(** * React hook codemods: syntax-tree matching and mutation

    A shallow embedding of the analysis and mutation passes of the
    repository's scripts:

    - the complex-[useState] analyzer ([analyzeFile], [findComponentName]);
    - the setter logger ([processFile] of the useState logger script);
    - the effect logger ([transformCode] of codeTransformer.js, with
      [processFile] of fileProcessor.js and the counter of
      debugUseEffects.js);
    - the function logger (the mutation branch of its [processFile]);
    - the profiler wrapper ([wrapReturnWithProfiler] of utils.js);
    - the summary of the analyzer's report, the scan pass, the categories
      and the menu of the function logger, and the component graph of
      the profiler tool ([ComponentAnalyzer] of utils.js).

    The parser, the traversal driver and the code generator are library
    code.  Parsed programs are values of [node]; [parse] and [generate]
    are parameters of the file-level functions; the traversal is the
    depth-first, visit-on-enter walk of the library, written out below. *)

From Stdlib Require Import PrimFloat Sorted.
From stdpp Require Import base strings list gmap pretty.

Open Scope string_scope.
Open Scope list_scope.
Open Scope nat_scope.
Open Scope stdpp_scope.

#[local] Set Warnings "-register-all".

(** ** Syntax trees *)

Module Ast.

(** The [type] tag of a node together with its scalar attributes. *)
Inductive kind : Type :=
  | KIdentifier (name : string)
  | KStringLiteral (value : string)
  | KNumericLiteral (value : float)
  | KBooleanLiteral (value : bool)
  | KNullLiteral
  | KArrowFunctionExpression
  | KFunctionExpression (id : option string)
  | KFunctionDeclaration (id : option string)
  | KConditionalExpression
  | KLogicalExpression (operator : string)
  | KBinaryExpression (operator : string)
  | KAssignmentExpression (operator : string)
  | KCallExpression (line : option nat)
  | KMemberExpression
  | KObjectExpression
  | KObjectProperty
  | KArrayExpression
  | KArrayPattern
  | KExpressionStatement
  | KReturnStatement
  | KBlockStatement
  | KVariableDeclaration (declKind : string)
  | KVariableDeclarator
  | KImportDeclaration (source : string)
  | KImportSpecifier
  | KImportDefaultSpecifier
  | KImportNamespaceSpecifier
  | KJSXElement
  | KJSXOpeningElement (selfClosing : bool)
  | KJSXClosingElement
  | KJSXIdentifier (name : string)
  | KJSXAttribute
  | KJSXExpressionContainer
  | KJSXFragment
  | KProgram
  | KOther (type : string).

(** A child field of a node: a node, an optional node, an array of nodes,
    or an array whose entries may be [null] (array holes). *)
Inductive slot (A : Type) : Type :=
  | One (a : A)
  | Opt (o : option A)
  | Many (l : list A)
  | Holes (l : list (option A)).

Arguments One {A} a.
Arguments Opt {A} o.
Arguments Many {A} l.
Arguments Holes {A} l.

(** A node: its kind and its child fields, in the order the traversal
    visits them. *)
Inductive node : Type :=
  | Node (type : kind) (fields : list (slot node)).

(** The node shapes the scripts inspect or build. *)
Abbreviation Identifier name := (Node (KIdentifier name) []).
Abbreviation StringLiteral value := (Node (KStringLiteral value) []).
Abbreviation NumericLiteral value := (Node (KNumericLiteral value) []).
Abbreviation BooleanLiteral value := (Node (KBooleanLiteral value) []).
Abbreviation NullLiteral := (Node KNullLiteral []).
Abbreviation ArrowFunctionExpression params body :=
  (Node KArrowFunctionExpression [Many params; One body]).
Abbreviation FunctionExpression id params body :=
  (Node (KFunctionExpression id) [Many params; One body]).
Abbreviation FunctionDeclaration id params body :=
  (Node (KFunctionDeclaration id) [Many params; One body]).
Abbreviation ConditionalExpression test consequent alternate :=
  (Node KConditionalExpression [One test; One consequent; One alternate]).
Abbreviation LogicalExpression operator left right :=
  (Node (KLogicalExpression operator) [One left; One right]).
Abbreviation BinaryExpression operator left right :=
  (Node (KBinaryExpression operator) [One left; One right]).
Abbreviation AssignmentExpression operator left right :=
  (Node (KAssignmentExpression operator) [One left; One right]).
Abbreviation CallExpression callee arguments line :=
  (Node (KCallExpression line) [One callee; Many arguments]).
Abbreviation MemberExpression object property :=
  (Node KMemberExpression [One object; One property]).
Abbreviation ObjectExpression properties :=
  (Node KObjectExpression [Many properties]).
Abbreviation ObjectProperty key value :=
  (Node KObjectProperty [One key; One value]).
Abbreviation ArrayExpression elements := (Node KArrayExpression [Holes elements]).
Abbreviation ArrayPattern elements := (Node KArrayPattern [Holes elements]).
Abbreviation ExpressionStatement expression :=
  (Node KExpressionStatement [One expression]).
Abbreviation ReturnStatement argument := (Node KReturnStatement [Opt argument]).
Abbreviation BlockStatement body := (Node KBlockStatement [Many body]).
Abbreviation VariableDeclaration declKind declarations :=
  (Node (KVariableDeclaration declKind) [Many declarations]).
Abbreviation VariableDeclarator id init :=
  (Node KVariableDeclarator [One id; Opt init]).
Abbreviation ImportDeclaration specifiers source :=
  (Node (KImportDeclaration source) [Many specifiers]).
Abbreviation ImportSpecifier local imported :=
  (Node KImportSpecifier [One local; One imported]).
Abbreviation ImportDefaultSpecifier local :=
  (Node KImportDefaultSpecifier [One local]).
Abbreviation JSXElement openingElement children closingElement :=
  (Node KJSXElement [One openingElement; Many children; Opt closingElement]).
Abbreviation JSXOpeningElement name attributes selfClosing :=
  (Node (KJSXOpeningElement selfClosing) [One name; Many attributes]).
Abbreviation JSXClosingElement name := (Node KJSXClosingElement [One name]).
Abbreviation JSXIdentifier name := (Node (KJSXIdentifier name) []).
Abbreviation JSXAttribute name value := (Node KJSXAttribute [One name; Opt value]).
Abbreviation JSXExpressionContainer expression :=
  (Node KJSXExpressionContainer [One expression]).
Abbreviation JSXFragment children := (Node KJSXFragment [Many children]).
Abbreviation Program body := (Node KProgram [Many body]).

Definition type_of (n : node) : kind := let 'Node k _ := n in k.
Definition fields_of (n : node) : list (slot node) := let 'Node _ fs := n in fs.

(** [n.name]: a string for identifiers, [undefined] for other nodes. *)
Definition name_of (n : node) : option string :=
  match type_of n with
  | KIdentifier s => Some s
  | KJSXIdentifier s => Some s
  | _ => None
  end.

(** [spec.imported.name] of an import specifier; [undefined] for a default
    or namespace specifier, which has no [imported]. *)
Definition imported_name (spec : node) : option string :=
  match spec with
  | ImportSpecifier _ imported => name_of imported
  | _ => None
  end.

(** A template literal prints an [undefined] value as the word. *)
Definition shown (v : option string) : string := default "undefined" v.

(** [t.isIdentifier(n)] *)
Definition isIdentifier (n : node) : bool :=
  match type_of n with KIdentifier _ => true | _ => false end.

(** The [type] string of a node. *)
Definition type_name (k : kind) : string :=
  match k with
  | KIdentifier _ => "Identifier"
  | KStringLiteral _ => "StringLiteral"
  | KNumericLiteral _ => "NumericLiteral"
  | KBooleanLiteral _ => "BooleanLiteral"
  | KNullLiteral => "NullLiteral"
  | KArrowFunctionExpression => "ArrowFunctionExpression"
  | KFunctionExpression _ => "FunctionExpression"
  | KFunctionDeclaration _ => "FunctionDeclaration"
  | KConditionalExpression => "ConditionalExpression"
  | KLogicalExpression _ => "LogicalExpression"
  | KBinaryExpression _ => "BinaryExpression"
  | KAssignmentExpression _ => "AssignmentExpression"
  | KCallExpression _ => "CallExpression"
  | KMemberExpression => "MemberExpression"
  | KObjectExpression => "ObjectExpression"
  | KObjectProperty => "ObjectProperty"
  | KArrayExpression => "ArrayExpression"
  | KArrayPattern => "ArrayPattern"
  | KExpressionStatement => "ExpressionStatement"
  | KReturnStatement => "ReturnStatement"
  | KBlockStatement => "BlockStatement"
  | KVariableDeclaration _ => "VariableDeclaration"
  | KVariableDeclarator => "VariableDeclarator"
  | KImportDeclaration _ => "ImportDeclaration"
  | KImportSpecifier => "ImportSpecifier"
  | KImportDefaultSpecifier => "ImportDefaultSpecifier"
  | KImportNamespaceSpecifier => "ImportNamespaceSpecifier"
  | KJSXElement => "JSXElement"
  | KJSXOpeningElement _ => "JSXOpeningElement"
  | KJSXClosingElement => "JSXClosingElement"
  | KJSXIdentifier _ => "JSXIdentifier"
  | KJSXAttribute => "JSXAttribute"
  | KJSXExpressionContainer => "JSXExpressionContainer"
  | KJSXFragment => "JSXFragment"
  | KProgram => "Program"
  | KOther type => type
  end.

(** [n.type === ty] *)
Definition has_type (n : node) (ty : string) : bool :=
  String.eqb (type_name (type_of n)) ty.

(** The array held by the first field of a node: the [properties] of an
    object literal, the [body] of a block or program, the [specifiers] of an
    import. *)
Definition items (n : node) : list node :=
  match fields_of n with
  | Many l :: _ => l
  | _ => []
  end.

(** The [elements] of an array literal or array pattern. *)
Definition elements (n : node) : list (option node) :=
  match fields_of n with
  | Holes l :: _ => l
  | _ => []
  end.

(** [s.includes(pat)] *)
Fixpoint includes (pat s : string) : bool :=
  String.prefix pat s ||
  match s with
  | EmptyString => false
  | String _ s' => includes pat s'
  end.

(** A predicate on every child held by a field. *)
Definition slot_all {A} (P : A → Prop) (f : slot A) : Prop :=
  match f with
  | One a => P a
  | Opt o => from_option P True o
  | Many l => Forall P l
  | Holes l => Forall (from_option P True) l
  end.

(** A test on some child held by a field. *)
Definition slot_any {A} (p : A → bool) (f : slot A) : bool :=
  match f with
  | One a => p a
  | Opt o => from_option p false o
  | Many l => existsb p l
  | Holes l => existsb (from_option p false) l
  end.

(** A function applied to every child held by a field. *)
Definition slot_map {A B} (g : A → B) (f : slot A) : slot B :=
  match f with
  | One a => One (g a)
  | Opt o => Opt (option_map g o)
  | Many l => Many (map g l)
  | Holes l => Holes (map (option_map g) l)
  end.

(** A sum over the children held by a field. *)
Definition slot_sum {A} (c : A → nat) (f : slot A) : nat :=
  match f with
  | One a => c a
  | Opt o => from_option c 0 o
  | Many l => sum_list_with c l
  | Holes l => sum_list_with (from_option c 0) l
  end.

(** Some node of the tree, the root included, satisfies [p]. *)
Fixpoint any_node (p : node → bool) (n : node) {struct n} : bool :=
  p n || existsb (slot_any (any_node p)) (fields_of n).

(** The number of nodes of the tree, the root included, that satisfy [p]. *)
Fixpoint count_nodes (p : node → bool) (n : node) {struct n} : nat :=
  (if p n then 1 else 0)
  + sum_list_with (slot_sum (count_nodes p)) (fields_of n).

End Ast.
Export Ast.

(** ** The traversal driver *)

Module Walk.

(** The result of a computation that threads a state [S] and may stop
    early for a reason of type [E]; the state at the stop is kept
    (module-level variables survive an exception). *)
Inductive outcome (E S A : Type) : Type :=
  | Ok (a : A) (s : S)
  | Stop (e : E) (s : S).

Arguments Ok {E S A} a s.
Arguments Stop {E S A} e s.

(** A JavaScript exception, by the name of its class. *)
Definition exn : Type := string.

Definition bind {E S A B} (m : S → outcome E S A)
    (k : A → S → outcome E S B) (s : S) : outcome E S B :=
  match m s with
  | Ok a s1 => k a s1
  | Stop e s1 => Stop e s1
  end.

Notation "x ⇐ m ;; k" := (bind m (λ x, k))
  (at level 100, m at next level, k at level 200, right associativity).

(** Visit the entries of an array in order. *)
Definition each {E S A B} (f : A → S → outcome E S B) :
    list A → S → outcome E S (list B) :=
  fix go l :=
    match l with
    | [] => Ok []
    | a :: l' => b ⇐ f a;; bs ⇐ go l';; Ok (b :: bs)
    end.

(** Visit an optional child; [null] is skipped. *)
Definition maybe {E S A B} (f : A → S → outcome E S B)
    (o : option A) : S → outcome E S (option B) :=
  match o with
  | None => Ok None
  | Some a => b ⇐ f a;; Ok (Some b)
  end.

(** Visit the children held by one field. *)
Definition field {E S A B} (f : A → S → outcome E S B)
    (sl : slot A) : S → outcome E S (slot B) :=
  match sl with
  | One a => b ⇐ f a;; Ok (One b)
  | Opt o => o' ⇐ maybe f o;; Ok (Opt o')
  | Many l => l' ⇐ each f l;; Ok (Many l')
  | Holes l => l' ⇐ each (maybe f) l;; Ok (Holes l')
  end.

(** What a visitor did to the node it was called on. *)
Inductive action : Type :=
  | Continue
  | Rewrite (f : node → node).

(** The state a computation ends in, whether it returns or stops. *)
Definition final {E S A} (o : outcome E S A) : S :=
  match o with
  | Ok _ s | Stop _ s => s
  end.

Definition apply_action (act : action) (n : node) : node :=
  match act with
  | Continue => n
  | Rewrite f => f n
  end.

Section traverse.
Context {S : Type}.

(** The visitor: called on entering a node, with the node's ancestors
    (nearest first). *)
Variable enter : list node → node → S → outcome exn S action.

(** [traverse(ast, visitor)]: depth first, the visitor on entering each
    node, then the node's children field by field.  An edit the visitor
    makes to the node shows on the node the walk leaves behind. *)
Fixpoint traverse (anc : list node) (n : node) {struct n} :
    S → outcome exn S node :=
  act ⇐ enter anc n;;
  fs ⇐ each (field (traverse (n :: anc))) (fields_of n);;
  Ok (apply_action act (Node (type_of n) fs)).

(** [path.traverse(visitor)]: the same walk over the descendants of the
    node of [path], the node itself not visited. *)
Definition traverse_inside (anc : list node) (n : node) :
    S → outcome exn S node :=
  fs ⇐ each (field (traverse (n :: anc))) (fields_of n);;
  Ok (Node (type_of n) fs).

End traverse.

(** The tree a walk leaves behind when its visitor keeps no state and
    decides by the node alone. *)
Fixpoint rewrite (v : node → action) (n : node) {struct n} : node :=
  apply_action (v n)
    (Node (type_of n) (map (slot_map (rewrite v)) (fields_of n))).

(** *** Traversal with [path.insertBefore]

    A visitor of a call expression may ask for statements to be inserted
    before it.  When the call is the expression of an expression statement
    that sits in the [body] array of a program or block, the library
    splices the statements into that array in front of the statement and
    queues them; they are visited after the remaining statements of the
    array.  Elsewhere the library rewrites the enclosing expression or
    statement and queues the result again.  The embedding covers the first
    case, with queued statements on which no visitor acts; everything else
    stops the walk with [Uncovered]. *)
Inductive halt : Type :=
  | Thrown (e : exn)
  | Uncovered.

Inductive request : Type :=
  | Pass
  | InsertBefore (stmts : node → list node).

Definition requested (req : request) (n : node) : list node :=
  match req with
  | Pass => []
  | InsertBefore stmts => stmts n
  end.

Section walk.
Context {S : Type}.

Variable enter : list node → node → S → outcome halt S request.

(** [reacts s n]: in state [s] some visitor acts on node [n]. *)
Variable reacts : S → node → bool.

(** A child outside a statement array: nothing may be pending for it. *)
Definition settled {A} (w : A → S → outcome halt S (list node * node))
    (a : A) : S → outcome halt S node :=
  r ⇐ w a;;
  match r.1 with
  | [] => Ok r.2
  | _ :: _ => Stop Uncovered
  end.

(** The statements of a [body] array, each preceded by what was inserted
    before it; the first component collects the inserted statements. *)
Definition statements {A} (w : A → S → outcome halt S (list node * node)) :
    list A → S → outcome halt S (list node * list node) :=
  fix go l :=
    match l with
    | [] => Ok ([], [])
    | a :: l' =>
        r ⇐ w a;; rs ⇐ go l';;
        Ok (r.1 ++ rs.1, r.1 ++ r.2 :: rs.2)
    end.

(** The visit of the queued statements at the end of the array. *)
Definition queued (inserted : list node) (s : S) : outcome halt S () :=
  if forallb (λ i, negb (any_node (reacts s) i)) inserted
  then Ok () s
  else Stop Uncovered s.

Fixpoint walk (anc : list node) (n : node) {struct n} :
    S → outcome halt S (list node * node) :=
  req ⇐ enter anc n;;
  match type_of n, fields_of n with
  | KExpressionStatement, [One e] =>
      r ⇐ walk (n :: anc) e;;
      let n' := ExpressionStatement r.2 in
      Ok (r.1 ++ requested req n', n')
  | (KProgram | KBlockStatement) as k, [Many body] =>
      rs ⇐ statements (walk (n :: anc)) body;;
      _ ⇐ queued rs.1;;
      let n' := Node k [Many rs.2] in
      Ok (requested req n', n')
  | k, fs =>
      fs' ⇐ each (field (settled (walk (n :: anc)))) fs;;
      let n' := Node k fs' in
      Ok (requested req n', n')
  end.

End walk.

End Walk.
Export Walk.

(** ** The complex-useState analyzer *)

Module Analyzer.

(** One reported initialization.  [componentName] is [None] where the
    script leaves it [undefined]; [lineNumber] likewise. *)
Record finding : Type := Finding {
  componentName : option string;
  variableName : string;
  filePath : string;
  lineNumber : option nat;
  reason : string;
  initialization : string;
}.

(** The variables the visitors of [analyzeFile] close over. *)
Record state : Type := State {
  useStateImported : bool;
  findings : list finding;
}.

(** [node.id] of a function node. *)
Definition function_id (n : node) : option string :=
  match type_of n with
  | KFunctionDeclaration id | KFunctionExpression id => id
  | _ => None
  end.

(** [findComponentName(path)]; [chain] is the node of [path] followed by
    its ancestors, nearest first. *)
Fixpoint findComponentName (chain : list node) : option string :=
  match chain with
  | [] => Some "Unknown Component"
  | current :: parents =>
      if has_type current "FunctionDeclaration"
         || has_type current "FunctionExpression"
         || has_type current "ArrowFunctionExpression"
      then
        match function_id current, parents with
        | Some name, _ => Some name
        | None, VariableDeclarator id _ :: _ => name_of id
        | None, _ => findComponentName parents
        end
      else findComponentName parents
  end.

(** The name of the variable being initialized. *)
Definition variableName_of (parent : option node) : string :=
  match parent with
  | Some (VariableDeclarator (ArrayPattern elems) _) =>
      match elems with
      | Some e :: _ =>
          match name_of e with
          | Some name => if String.eqb name "" then "unknown" else name
          | None => "unknown"
          end
      | _ => "unknown"
      end
  | _ => ""
  end.

(** The outcome of the chain of shape tests on an initializer. *)
Inductive verdict : Type :=
  | Complex (reason : string)
  | Basic
  | Unlisted.

(** The last test of the chain: the basic initializations that are
    skipped. *)
Definition is_basic (initialValue : node) : bool :=
  has_type initialValue "BooleanLiteral"
  || match type_of initialValue with
     | KStringLiteral value => String.eqb value ""
     | _ => false
     end
  || match type_of initialValue with
     | KNumericLiteral value => PrimFloat.eqb value 0
     | _ => false
     end
  || has_type initialValue "NullLiteral"
  || match type_of initialValue with
     | KIdentifier name => String.eqb name "undefined"
     | _ => false
     end.

(** The chain of shape tests, in the order of the script. *)
Definition classify (initialValue : node) : verdict :=
  if has_type initialValue "ArrowFunctionExpression"
     || has_type initialValue "FunctionExpression"
  then Complex "Function initialization"
  else if has_type initialValue "ConditionalExpression"
  then Complex "Ternary operator"
  else if has_type initialValue "LogicalExpression"
  then Complex "Logical expression"
  else if has_type initialValue "CallExpression"
  then Complex "Function call"
  else if has_type initialValue "ObjectExpression"
          && (0 <? length (items initialValue))
  then Complex "Complex object"
  else if has_type initialValue "ArrayExpression"
          && (0 <? length (elements initialValue))
  then Complex "Non-empty array"
  else if has_type initialValue "BinaryExpression"
  then Complex "Binary expression"
  else if is_basic initialValue
  then Basic
  else Unlisted.

Section analyzeFile.

(** [content.slice(n.start, n.end).trim()]: the trimmed source text of a
    node of the parsed file. *)
Variable snippet : node → string.

Variable file : string.

(** The [ImportDeclaration] visitor. *)
Definition enterImportDeclaration (n : node) (s : state) : state :=
  match type_of n with
  | KImportDeclaration source =>
      if String.eqb source "react"
         && existsb (λ spec,
              bool_decide (imported_name spec = Some "useState")) (items n)
      then State true (findings s)
      else s
  | _ => s
  end.

(** The [CallExpression] visitor. *)
Definition enterCallExpression (anc : list node) (n : node) (s : state) :
    state :=
  if negb (useStateImported s) then s else
  match n with
  | CallExpression callee arguments line =>
      if bool_decide (name_of callee = Some "useState") then
        match arguments with
        | [] => s
        | initialValue :: _ =>
            match classify initialValue with
            | Complex why =>
                State (useStateImported s)
                  (findings s ++
                   [ {| componentName := findComponentName (n :: anc);
                        variableName := variableName_of (head anc);
                        filePath := file;
                        lineNumber := line;
                        reason := why;
                        initialization := snippet initialValue |} ])
            | Basic | Unlisted => s
            end
        end
      else s
  | _ => s
  end.

Definition enter (anc : list node) (n : node) (s : state) :
    outcome exn state action :=
  Ok Continue (enterCallExpression anc n (enterImportDeclaration n s)).

(** The traversal of [analyzeFile] on a parsed file. *)
Definition analyzeAst (ast : node) : list finding :=
  match traverse enter [] ast (State false []) with
  | Ok _ s | Stop _ s => findings s
  end.

End analyzeFile.

Section processDirectory.

(** [parser.parse]; [None] when it throws on malformed source. *)
Variable parse : string → option node.
Variable snippet : string → node → string.

(** What [analyzeFile] leaves behind: its return value ([None] for
    [undefined]) and the lines it wrote to the error console. *)
Definition analyzeFile (file content : string) :
    option (list finding) * list string :=
  if negb (includes "useState" content) then (None, []) else
  match parse content with
  | Some ast => (Some (analyzeAst (snippet content) file ast), [])
  | None => (Some [], ["Error processing " +:+ file +:+ ":"])
  end.

(** [processDirectory] over the files the directory walk reaches, given
    as (path, content) pairs in the order of the walk. *)
Fixpoint processDirectory (files : list (string * string)) :
    list finding * list string :=
  match files with
  | [] => ([], [])
  | (file, content) :: rest =>
      let '(found, errs) := analyzeFile file content in
      let '(allFindings, console) := processDirectory rest in
      (match found with
       | Some fs => if 0 <? length fs then fs ++ allFindings else allFindings
       | None => allFindings
       end, errs ++ console)
  end.

End processDirectory.

End Analyzer.

(** ** The setter logger *)

Module SetterLogger.

(** The variables the visitors of [processFile] close over.  [stateSetters]
    maps a setter name to the name of its state variable, [None] when that
    name is [undefined] (the first element of the pattern is not an
    identifier). *)
Record state : Type := State {
  modified : bool;
  useStateImported : bool;
  stateSetters : gmap string (option string);
}.

Definition initial : state := State false false ∅.

(** The [ImportDeclaration] visitor. *)
Definition enterImportDeclaration (n : node) (s : state) : state :=
  match type_of n with
  | KImportDeclaration source =>
      if String.eqb source "react"
         && existsb (λ spec,
              has_type spec "ImportSpecifier"
              && bool_decide (imported_name spec = Some "useState")) (items n)
      then State (modified s) true (stateSetters s)
      else s
  | _ => s
  end.

(** [t.isCallExpression(init) && t.isIdentifier(init.callee) &&
    init.callee.name === 'useState'] *)
Definition is_useState_call (init : node) : bool :=
  match init with
  | CallExpression callee _ _ =>
      isIdentifier callee && bool_decide (name_of callee = Some "useState")
  | _ => false
  end.

(** The [VariableDeclarator] visitor.  A setter element without a [name]
    would be stored under the key [undefined], which no lookup by a callee
    name reaches; the map leaves it out. *)
Definition enterVariableDeclarator (n : node) (s : state) : state :=
  if negb (useStateImported s) then s else
  match n with
  | VariableDeclarator id (Some init) =>
      if is_useState_call init && has_type id "ArrayPattern" then
        match elements id with
        | Some st :: Some setter :: _ =>
            match name_of setter with
            | Some key =>
                State (modified s) (useStateImported s)
                  (<[key := name_of st]> (stateSetters s))
            | None => s
            end
        | _ => s
        end
      else s
  | _ => s
  end.

(** [findComponentName(path)] of this script; [chain] is the node of
    [path] followed by its ancestors, nearest first. *)
Fixpoint findComponentName (chain : list node) : option string :=
  match chain with
  | [] => Some "Unknown Component"
  | current :: parents =>
      if has_type current "FunctionDeclaration"
         || has_type current "FunctionExpression"
         || has_type current "ArrowFunctionExpression"
      then
        match Analyzer.function_id current, parents with
        | Some name, _ => Some name
        | None, VariableDeclarator id _ :: _ => name_of id
        | None, _ => findComponentName parents
        end
      else findComponentName parents
  end.

(** [console.log(`[${componentName}] ${stateName} updated to:`, arg)] as an
    expression statement. *)
Definition logStatement (componentName stateName : option string)
    (arg : node) : node :=
  ExpressionStatement
    (CallExpression
       (MemberExpression (Identifier "console") (Identifier "log"))
       [StringLiteral ("[" +:+ shown componentName +:+ "] "
                       +:+ shown stateName +:+ " updated to:");
        arg]
       None).

(** [t.isIdentifier(callee) && stateSetters.has(callee.name)], with the
    value found. *)
Definition tracked (s : state) (n : node) : option (option string) :=
  match n with
  | CallExpression callee _ _ =>
      if isIdentifier callee
      then name_of callee ≫= λ name, stateSetters s !! name
      else None
  | _ => None
  end.

(** The [CallExpression] visitor.  The log call takes the first argument
    of the setter call, the same node; without one the node builder
    rejects the [undefined] argument. *)
Definition enterCallExpression (anc : list node) (n : node) (s : state) :
    outcome halt state request :=
  match tracked s n with
  | Some stateName =>
      match n with
      | CallExpression _ (_ :: _) _ =>
          Ok (InsertBefore (λ n',
                match n' with
                | CallExpression _ (arg :: _) _ =>
                    [logStatement (findComponentName (n :: anc)) stateName arg]
                | _ => []
                end))
             (State true (useStateImported s) (stateSetters s))
      | _ => Stop (Thrown "TypeError") s
      end
  | None => Ok Pass s
  end.

Definition enter (anc : list node) (n : node) (s : state) :
    outcome halt state request :=
  enterCallExpression anc n
    (enterVariableDeclarator n (enterImportDeclaration n s)).

(** The nodes on which a visitor may act in state [s]. *)
Definition reacts (s : state) (n : node) : bool :=
  has_type n "ImportDeclaration"
  || match n with
     | VariableDeclarator _ (Some init) => is_useState_call init
     | _ => false
     end
  || bool_decide (is_Some (tracked s n)).

(** The traversal of [processFile] on a parsed file. *)
Definition processAst (ast : node) : outcome halt state node :=
  settled (walk enter reacts []) ast initial.

Section processFile.

(** [parser.parse]; [None] when it throws on malformed source. *)
Variable parse : string → option node.
(** [generate(ast, options, content).code] *)
Variable generate : string → node → string.

(** The files on disk, and the lines written to the console. *)
Definition world : Type := gmap string string * list string.

(** [processFile(filePath)].  [Stop Uncovered] is not an end of the
    script: it marks a file on which the walk leaves the embedding, and
    says nothing of what the script does to it. *)
Definition processFile (file : string) (w : world) : outcome halt world () :=
  match w.1 !! file with
  | None => Stop (Thrown "ENOENT") w
  | Some content =>
      if negb (includes "useState" content) then Ok () w else
      let failed := (w.1, w.2 ++ ["Error processing " +:+ file +:+ ":"]) in
      match parse content with
      | None => Ok () failed
      | Some ast =>
          match processAst ast with
          | Ok ast' s =>
              if modified s
              then Ok () (<[file := generate content ast']> w.1,
                          w.2 ++ ["Modified: " +:+ file])
              else Ok () w
          | Stop (Thrown _) _ => Ok () failed
          | Stop Uncovered _ => Stop Uncovered w
          end
      end
  end.

End processFile.

End SetterLogger.

(** ** The effect logger: codeTransformer.js *)

Module CodeTransformer.

(** The three statements [createEffectLogger] builds. *)
Record logger : Type := Logger {
  counterVar : node;
  incrementCounter : node;
  logStatement : node;
}.

Definition counterName (effectIndex : nat) : string :=
  "effectCallCount_" +:+ pretty effectIndex.

Definition consoleLog (args : list node) : node :=
  CallExpression (MemberExpression (Identifier "console") (Identifier "log"))
    args None.

Definition createEffectLogger (componentName : option string)
    (filePath lineNumber : string) (effectIndex : nat) : logger :=
  {| counterVar :=
       VariableDeclaration "let"
         [VariableDeclarator (Identifier (counterName effectIndex))
            (Some (NumericLiteral 0%float))];
     incrementCounter :=
       ExpressionStatement
         (AssignmentExpression "+="
            (Identifier (counterName effectIndex)) (NumericLiteral 1%float));
     logStatement :=
       ExpressionStatement
         (consoleLog
            [StringLiteral
               ("[" +:+ shown componentName +:+ "_Effect_"
                +:+ pretty effectIndex +:+ "] useEffect at " +:+ filePath
                +:+ ":" +:+ lineNumber +:+ " - Call count:");
             Identifier (counterName effectIndex)]) |}.

Definition createDependenciesLogger (componentName : option string)
    (effectIndex : nat) (deps : node) : node :=
  consoleLog
    [StringLiteral ("[" +:+ shown componentName +:+ "_Effect_"
                    +:+ pretty effectIndex +:+ "] Dependencies:");
     deps].

(** [effectCounter] is the module-level variable; the others are the
    locals of one call of [transformCode].  [hoisted] holds the statements
    put in front of the program body by [unshiftContainer], the latest
    first. *)
Record state : Type := State {
  effectCounter : nat;
  fileModified : bool;
  effectsFound : nat;
  hoisted : list node;
}.

(** The component name: the nearest enclosing function declaration or
    variable declarator. *)
Definition componentName_of (anc : list node) : option string :=
  match
    find (λ p, has_type p "FunctionDeclaration"
               || has_type p "VariableDeclarator") anc
  with
  | None => Some "Unknown"
  | Some parent =>
      match parent with
      | Node (KFunctionDeclaration id) _ => Some (default "Anonymous" id)
      | VariableDeclarator id _ => name_of id
      | _ => Some "Anonymous"
      end
  end.

(** The edit of the callback: the statements go in front of a block body;
    an expression body becomes a block that ends by returning it. *)
Definition instrument (lg : logger) (depsLogging : option node)
    (callback : node) : node :=
  let depsStatement :=
    from_option (λ d, [ExpressionStatement d]) [] depsLogging in
  match callback with
  | Node k [Many params; One body] =>
      if has_type body "BlockStatement" then
        Node k [Many params;
                One (BlockStatement
                       (depsStatement
                        ++ [incrementCounter lg; logStatement lg]
                        ++ items body))]
      else
        Node k [Many params;
                One (BlockStatement
                       ([incrementCounter lg; logStatement lg]
                        ++ depsStatement
                        ++ [ReturnStatement (Some body)]))]
  | _ => callback
  end.

(** [callback.type] is one of the two function-literal types. *)
Definition is_function_literal (callback : node) : bool :=
  has_type callback "ArrowFunctionExpression"
  || has_type callback "FunctionExpression".

(** [callee.type === 'Identifier' && callee.name === 'useEffect'] *)
Definition is_useEffect_call (n : node) : bool :=
  match n with
  | CallExpression callee _ _ =>
      has_type callee "Identifier"
      && bool_decide (name_of callee = Some "useEffect")
  | _ => false
  end.

Section transformCode.

Variable filePath : string.

(** The [CallExpression] visitor.  After the edit the dependency array
    is one node in two places, the second argument and the inserted log
    call, and the library reaches it in both; the walk visits it in its
    place as the second argument, which comes to the same unless the
    array itself holds a call of [useEffect]. *)
Definition enter (anc : list node) (n : node) (s : state) :
    outcome exn state action :=
  if negb (is_useEffect_call n) then Ok Continue s else
  match n with
  | CallExpression _ arguments line =>
      let s1 := State (effectCounter s) (fileModified s)
                  (Datatypes.S (effectsFound s)) (hoisted s) in
      match arguments with
      | [] => Stop "TypeError" s1
      | callback :: _ =>
          if is_function_literal callback then
            let componentName := componentName_of anc in
            let lineNumber := from_option pretty "unknown" line in
            let lg := createEffectLogger componentName filePath lineNumber
                        (effectCounter s1) in
            if existsb (λ p, has_type p "Program") anc then
              Ok (Rewrite (λ n',
                    match n' with
                    | CallExpression callee' (callback' :: rest') line' =>
                        let depsLogging :=
                          createDependenciesLogger componentName
                            (effectCounter s1) <$> head rest' in
                        CallExpression callee'
                          (instrument lg depsLogging callback' :: rest')
                          line'
                    | _ => n'
                    end))
                 (State (Datatypes.S (effectCounter s1)) true
                    (effectsFound s1) (counterVar lg :: hoisted s1))
            else Stop "TypeError" s1
          else Ok Continue s1
      end
  | _ => Ok Continue s
  end.

(** The program after the traversal: the hoisted declarations in front
    of the traversed body. *)
Definition hoist (decls : list node) (ast : node) : node :=
  match ast with
  | Node k (Many body :: more) => Node k (Many (decls ++ body) :: more)
  | _ => ast
  end.

(** The traversal of [transformCode] on a parsed file, from the current
    value of the module-level counter. *)
Definition transformAst (ast : node) (counter : nat) :
    outcome exn state node :=
  match traverse enter [] ast (State counter false 0 []) with
  | Ok ast' s => Ok (hoist (hoisted s) ast') s
  | Stop e s => Stop e s
  end.

(** [parser.parse]; [None] when it throws on malformed source. *)
Variable parse : string → option node.
(** [generate(ast, options, code).code] *)
Variable generate : string → node → string.

(** [transformCode(code, filePath)]: the pair ([modified],
    [effectsCount]) and the module-level counter after the call. *)
Definition transformCode (code : string) (counter : nat) :
    outcome exn nat (option string * nat) :=
  match parse code with
  | None => Stop "SyntaxError" counter
  | Some ast =>
      match transformAst ast counter with
      | Ok ast' s =>
          if fileModified s
          then Ok (Some (generate code ast'), effectsFound s)
                 (effectCounter s)
          else Ok (None, 0) (effectCounter s)
      | Stop e s => Stop e (effectCounter s)
      end
  end.

End transformCode.

End CodeTransformer.

(** ** The effect logger: fileProcessor.js and debugUseEffects.js *)

Module FileProcessor.

(** The files on disk, the lines written to the console, the counter of
    codeTransformer.js and the counter of debugUseEffects.js. *)
Record world : Type := World {
  files : gmap string string;
  console : list string;
  effectCounter : nat;
  globalEffectCounter : nat;
}.

Definition log (line : string) (w : world) : world :=
  World (files w) (console w ++ [line]) (effectCounter w)
    (globalEffectCounter w).

(** The line feed some messages start with. *)
Definition newline : string := String (Ascii.ascii_of_nat 10) "".

Section processFile.

Variable parse : string → option node.
Variable generate : string → node → string.

Definition failed (filePath : string) (w : world) : world :=
  log ("Error processing " +:+ filePath +:+ ":") w.

(** [processFile(filePath, updateEffectCounter)].  Of an error message
    the console keeps the text, not the error value printed after it. *)
Definition processFile (filePath : string) (w : world) : world :=
  let w := log (newline +:+ "Processing file: " +:+ filePath) w in
  match files w !! filePath with
  | None => failed filePath w
  | Some code =>
      if negb (includes "useEffect" code)
      then log "No useEffect found in file" w
      else
        match
          CodeTransformer.transformCode filePath parse generate code
            (effectCounter w)
        with
        | Stop _ counter =>
            failed filePath
              (World (files w) (console w) counter (globalEffectCounter w))
        | Ok (modified, effectsCount) counter =>
            let w := World (files w) (console w) counter
                       (globalEffectCounter w) in
            match modified with
            | Some text =>
                if String.eqb text "" then
                  log "No modifications were necessary" w
                else
                  let w :=
                    log ("Found " +:+ pretty effectsCount +:+ " useEffect"
                         +:+ (if bool_decide (effectsCount = 1)
                              then "" else "s")) w in
                  let w := World (<[filePath := text]> (files w))
                             (console w) (effectCounter w)
                             (globalEffectCounter w) in
                  let w := log ("Successfully modified " +:+ filePath) w in
                  World (files w) (console w) (effectCounter w)
                    (globalEffectCounter w + effectsCount)
            | None => log "No modifications were necessary" w
            end
        end
  end.

(** [processDirectory] over the files the directory walk reaches, in the
    order of the walk; the lines that announce the directories are left
    out. *)
Definition processDirectory (paths : list string) (w : world) : world :=
  foldl (λ w filePath, processFile filePath w) w paths.

(** The main script on the files under the target path. *)
Definition debugUseEffects (paths : list string)
    (disk : gmap string string) : world :=
  let w := World disk ["Starting useEffect debug script..."] 0 0 in
  let w := processDirectory paths w in
  let w := log (newline +:+ "Processing complete!") w in
  log ("Total useEffects found and modified: "
       +:+ pretty (globalEffectCounter w)) w.

End processFile.

End FileProcessor.

(** ** The function logger: the mutation pass *)

Module FunctionLogger.

(** [getFunctionName(path)]; [parent] is the node of the parent path. *)
Definition getFunctionName (n : node) (parent : option node) :
    option string :=
  match Analyzer.function_id n with
  | Some name => Some name
  | None =>
      match parent with
      | Some (VariableDeclarator id _) =>
          if isIdentifier id then name_of id else None
      | Some (ObjectProperty key _) =>
          if isIdentifier key then name_of key else None
      | _ => None
      end
  end.

(** [name[0] === name[0].toUpperCase()] on the first character, for names
    that start with an ASCII character: true unless it is a lower-case
    letter.  Names that start with another character are outside the
    embedding (the test then depends on the case tables of Unicode). *)
Definition starts_upper (name : string) : bool :=
  match name with
  | EmptyString => false
  | String c _ =>
      let k := Ascii.nat_of_ascii c in negb ((97 <=? k) && (k <=? 122))
  end.

(** The name a declarator gives: [path.node.id.name] read on the
    declarator itself. *)
Definition declared_name (current : node) (parent : option node) :
    option string :=
  match current with
  | VariableDeclarator id _ =>
      match name_of id with
      | Some name => Some name
      | None => getFunctionName current parent
      end
  | _ => getFunctionName current parent
  end.

(** [findParentComponent(path)]; [chain] is the node of [path] followed by
    its ancestors. *)
Fixpoint findParentComponent (chain : list node) : option string :=
  match chain with
  | [] => None
  | current :: parents =>
      if has_type current "FunctionDeclaration"
         || match current with
            | VariableDeclarator _ (Some init) =>
                has_type init "ArrowFunctionExpression"
            | _ => false
            end
      then
        match declared_name current (head parents) with
        | Some name =>
            if negb (String.eqb name "") && starts_upper name
            then Some name
            else findParentComponent parents
        | None => findParentComponent parents
        end
      else findParentComponent parents
  end.

(** [console.log(`[${parentName}] Called: ${functionName}`)] as an
    expression statement. *)
Definition logStatement (parentName functionName : string) : node :=
  ExpressionStatement
    (CallExpression
       (MemberExpression (Identifier "console") (Identifier "log"))
       [StringLiteral ("[" +:+ parentName +:+ "] Called: " +:+ functionName)]
       None).

(** The edit of a function selected for logging. *)
Definition addLog (log : node) (fn : node) : node :=
  match fn with
  | Node k [Many params; One body] =>
      if has_type body "BlockStatement" then
        Node k [Many params; One (BlockStatement (log :: items body))]
      else
        let originalBody := body in
        Node k [Many params;
                One (BlockStatement
                       [log; ReturnStatement (Some originalBody)])]
  | _ => fn
  end.

(** The locals [modified] and [modifiedFunctions] of [processFile]. *)
Record state : Type := State {
  modified : bool;
  modifiedFunctions : nat;
}.

Section processFile.

(** The names chosen for logging, and the hierarchy recorded by the scan
    pass. *)
Variable functionsToLog : gset string.
Variable functionHierarchy : gmap string string.

Definition nonempty (v : option string) : option string :=
  v ≫= λ name, if String.eqb name "" then None else Some name.

(** The [Function] visitor with [scanOnly] false. *)
Definition enter (anc : list node) (n : node) (s : state) :
    outcome exn state action :=
  if has_type n "FunctionDeclaration"
     || has_type n "FunctionExpression"
     || has_type n "ArrowFunctionExpression"
  then
    match nonempty (getFunctionName n (head anc)) with
    | None => Ok Continue s
    | Some functionName =>
        let componentName := findParentComponent (n :: anc) in
        if bool_decide (functionName ∈ functionsToLog) then
          if bool_decide (componentName = Some functionName)
          then Ok Continue s
          else
            let parentName :=
              default "global"
                (nonempty componentName
                 ∪ nonempty (functionHierarchy !! functionName)) in
            Ok (Rewrite (addLog (logStatement parentName functionName)))
               (State true (Datatypes.S (modifiedFunctions s)))
        else Ok Continue s
    end
  else Ok Continue s.

End processFile.

End FunctionLogger.

(** ** The profiler wrapper *)

Module Profiler.

(** [arg.openingElement.name.name] *)
Definition opening_name (arg : node) : option string :=
  match arg with
  | Node KJSXElement (One (Node _ (One name :: _)) :: _) => name_of name
  | _ => None
  end.

(** The element built around the returned JSX. *)
Definition wrapped (componentName : string) (arg : node) : node :=
  JSXElement
    (JSXOpeningElement (JSXIdentifier "Profiler")
       [JSXAttribute (JSXIdentifier "id")
          (Some (StringLiteral componentName));
        JSXAttribute (JSXIdentifier "onRender")
          (Some (JSXExpressionContainer (Identifier "onRenderCallback")))]
       false)
    [arg]
    (Some (JSXClosingElement (JSXIdentifier "Profiler"))).

(** The [ReturnStatement] visitor of [wrapReturnWithProfiler]. *)
Definition enterReturnStatement (componentName : string) (n : node) :
    action :=
  match n with
  | ReturnStatement argument =>
      let isJSXElement := from_option (λ a, has_type a "JSXElement") false in
      let isJSXFragment :=
        from_option (λ a, has_type a "JSXFragment") false in
      if negb (isJSXElement argument) && negb (isJSXFragment argument)
      then Continue
      else if isJSXElement argument
              && bool_decide (argument ≫= opening_name = Some "Profiler")
      then Continue
      else
        Rewrite (λ n',
          match n' with
          | ReturnStatement (Some arg) =>
              ReturnStatement (Some (wrapped componentName arg))
          | _ => n'
          end)
  | _ => Continue
  end.

Definition enter (componentName : string) (anc : list node) (n : node)
    (s : ()) : outcome exn () action :=
  Ok (enterReturnStatement componentName n) s.

(** [path.node.id?.name || path.parent?.id?.name || 'UnknownComponent'] *)
Definition componentName_of (fn : node) (parent : option node) : string :=
  let own := FunctionLogger.nonempty (Analyzer.function_id fn) in
  let fromParent :=
    FunctionLogger.nonempty
      (parent ≫= λ p,
        match p with
        | VariableDeclarator id _ => name_of id
        | Node (KFunctionDeclaration id) _
        | Node (KFunctionExpression id) _ => id
        | _ => None
        end) in
  default "UnknownComponent" (own ∪ fromParent).

(** [wrapReturnWithProfiler(path)]: [fn] is the node of [path], [anc] its
    ancestors. *)
Definition wrapReturnWithProfiler (anc : list node) (fn : node) : node :=
  match
    traverse_inside (enter (componentName_of fn (head anc))) anc fn ()
  with
  | Ok fn' _ => fn'
  | Stop _ _ => fn
  end.

End Profiler.

(** ** The analyzer's report *)

Module Report.
Import Analyzer.

(** [acc[reason] = (acc[reason] || 0) + 1] on an object whose keys are
    kept in the order of their first assignment. *)
Fixpoint bump (key : string) (acc : list (string * nat)) :
    list (string * nat) :=
  match acc with
  | [] => [(key, 1)]
  | (k, count) :: rest =>
      if String.eqb k key then (k, S count) :: rest
      else (k, count) :: bump key rest
  end.

(** [findings.reduce(..., {})] *)
Definition typeCount (findings : list finding) : list (string * nat) :=
  foldl (λ acc finding, bump (reason finding) acc) [] findings.

(** [entries.sort(([, a], [, b]) => b - a)]: the sort is stable, so its
    result is the one of inserting the entries from the right, each one in
    front of the first entry that does not count more. *)
Fixpoint insert_entry (x : string * nat) (l : list (string * nat)) :
    list (string * nat) :=
  match l with
  | [] => [x]
  | y :: l' => if x.2 <? y.2 then y :: insert_entry x l' else x :: y :: l'
  end.

Definition sort (entries : list (string * nat)) : list (string * nat) :=
  foldr insert_entry [] entries.

(** The entries printed under 'Summary by initialization type:'. *)
Definition summary (findings : list finding) : list (string * nat) :=
  sort (typeCount findings).

(** The lines of one finding; [relative] is [path.relative] from the
    working directory. *)
Definition entry_lines (relative : string → string) (index : nat)
    (f : finding) : list string :=
  [ pretty (index + 1) +:+ ". " +:+ shown (componentName f)
      +:+ " (" +:+ variableName f +:+ ")";
    "   File: " +:+ relative (filePath f) +:+ ":"
      +:+ from_option pretty "undefined" (lineNumber f);
    "   Type: " +:+ reason f;
    "   Init: " +:+ initialization f;
    "" ].

(** What the script prints after the directory walk. *)
Definition report (relative : string → string) (findings : list finding) :
    list string :=
  match findings with
  | [] => ["No complex useState initializations found."]
  | _ :: _ =>
      [ "Found " +:+ pretty (length findings)
          +:+ " complex useState initializations:"
          +:+ String (Ascii.ascii_of_nat 10) "" ]
      ++ concat (imap (entry_lines relative) findings)
      ++ [ String (Ascii.ascii_of_nat 10) ""
             +:+ "Summary by initialization type:" ]
      ++ ((λ entry, entry.1 +:+ ": " +:+ pretty entry.2) <$> summary findings)
  end.

End Report.

(** ** The function logger: scan pass, files and menu *)

Module FunctionRegistry.
Import FunctionLogger.

(** [s.endsWith(suffix)] *)
Definition endsWith (suffix s : string) : bool :=
  (String.length suffix <=? String.length s)
  && String.eqb
       (String.substring (String.length s - String.length suffix)
          (String.length suffix) s)
       suffix.

(** The module-level maps [functionLocations] and [functionHierarchy],
    and the locals [modified] and [modifiedFunctions] of the call of
    [processFile] under way. *)
Record state : Type := State {
  functionLocations : gmap string string;
  functionHierarchy : gmap string string;
  modified : bool;
  modifiedFunctions : nat;
}.

(** One of the three function node types. *)
Definition is_function (n : node) : bool :=
  has_type n "FunctionDeclaration"
  || has_type n "FunctionExpression"
  || has_type n "ArrowFunctionExpression".

(** [path.findParent(p => p.isFunctionDeclaration() ||
    p.isFunctionExpression() || p.isArrowFunctionExpression())]: the
    nearest function among the ancestors, with its own parent. *)
Fixpoint enclosing_function (anc : list node) : option (node * option node) :=
  match anc with
  | [] => None
  | p :: rest =>
      if is_function p then Some (p, head rest) else enclosing_function rest
  end.

Section processFile.

Variable filePath : string.
Variable scanOnly : bool.
Variable functionsToLog : gset string.

(** The [Function] visitor.  Object and class methods have no [id] and
    no declarator or property for a parent, so they have no name and the
    visitor returns on them at once. *)
Definition enter (anc : list node) (n : node) (s : state) :
    outcome exn state action :=
  if is_function n then
    match nonempty (getFunctionName n (head anc)) with
    | None => Ok Continue s
    | Some functionName =>
        let componentName := findParentComponent (n :: anc) in
        if scanOnly then
          let locations := <[functionName := filePath]> (functionLocations s) in
          let hierarchy :=
            match nonempty componentName with
            | Some component =>
                <[functionName := component]> (functionHierarchy s)
            | None =>
                match enclosing_function anc with
                | Some (parent, grandparent) =>
                    match nonempty (getFunctionName parent grandparent) with
                    | Some parentName =>
                        <[functionName := parentName]> (functionHierarchy s)
                    | None => functionHierarchy s
                    end
                | None => functionHierarchy s
                end
            end in
          Ok Continue
            (State locations hierarchy (modified s) (modifiedFunctions s))
        else if bool_decide (functionName ∈ functionsToLog) then
          if bool_decide (componentName = Some functionName)
          then Ok Continue s
          else
            let parentName :=
              default "global"
                (nonempty componentName
                 ∪ nonempty (functionHierarchy s !! functionName)) in
            Ok (Rewrite (addLog (logStatement parentName functionName)))
               (State (functionLocations s) (functionHierarchy s) true
                  (Datatypes.S (modifiedFunctions s)))
        else Ok Continue s
    end
  else Ok Continue s.

End processFile.

(** The files on disk, the lines written to the console and the two
    module-level maps. *)
Record world : Type := World {
  files : gmap string string;
  console : list string;
  locations : gmap string string;
  hierarchy : gmap string string;
}.

(** The value [processFile] and [processDirectory] return. *)
Record counts : Type := Counts {
  modifiedFiles : nat;
  modifiedFunctionCount : nat;
}.

Section files.

(** [path.extname] *)
Variable extname : string → string.
(** [parser.parse]; [None] when it throws on malformed source. *)
Variable parse : string → option node.
(** [generate(ast, { retainLines: true }, content).code] *)
Variable generate : string → node → string.

(** The test that lets a file through. *)
Definition wanted (filePath : string) : bool :=
  bool_decide (extname filePath ∈ [".js"; ".jsx"; ".ts"; ".tsx"])
  && negb (includes ".test." filePath)
  && negb (includes ".spec." filePath)
  && negb (endsWith ".d.ts" filePath).

(** [processFile(filePath, scanOnly, functionsToLog)].  Reading a file
    that is not there throws outside the [try]. *)
Definition processFile (filePath : string) (scanOnly : bool)
    (functionsToLog : gset string) (w : world) : outcome exn world counts :=
  if negb (wanted filePath) then Ok (Counts 0 0) w else
  match files w !! filePath with
  | None => Stop "ENOENT" w
  | Some content =>
      match parse content with
      | None =>
          Ok (Counts 0 0)
            (World (files w)
               (console w ++ ["Error processing " +:+ filePath +:+ ":"])
               (locations w) (hierarchy w))
      | Some ast =>
          match
            traverse (enter filePath scanOnly functionsToLog) [] ast
              (State (locations w) (hierarchy w) false 0)
          with
          | Stop _ s =>
              Ok (Counts 0 0)
                (World (files w)
                   (console w ++ ["Error processing " +:+ filePath +:+ ":"])
                   (functionLocations s) (functionHierarchy s))
          | Ok ast' s =>
              if modified s then
                Ok (Counts 1 (modifiedFunctions s))
                  (World (<[filePath := generate content ast']> (files w))
                     (console w
                      ++ ["Modified: " +:+ filePath +:+ " ("
                          +:+ pretty (modifiedFunctions s) +:+ " functions)"])
                     (functionLocations s) (functionHierarchy s))
              else
                Ok (Counts 0 0)
                  (World (files w) (console w)
                     (functionLocations s) (functionHierarchy s))
          end
      end
  end.

(** [processDirectory] over the files the directory walk reaches, in the
    order of the walk, with the totals it returns. *)
Fixpoint processDirectory (paths : list string) (scanOnly : bool)
    (functionsToLog : gset string) (w : world) : outcome exn world counts :=
  match paths with
  | [] => Ok (Counts 0 0) w
  | filePath :: rest =>
      match processFile filePath scanOnly functionsToLog w with
      | Stop e w1 => Stop e w1
      | Ok results w1 =>
          match processDirectory rest scanOnly functionsToLog w1 with
          | Stop e w2 => Stop e w2
          | Ok totals w2 =>
              Ok (Counts (modifiedFiles results + modifiedFiles totals)
                    (modifiedFunctionCount results
                     + modifiedFunctionCount totals)) w2
          end
      end
  end.

End files.

(** [functionRegistry] *)
Record registry : Type := Registry {
  components : gset string;
  hooks : gset string;
  handlers : gset string;
  utils : gset string;
}.

(** The category a function name falls in. *)
Definition categorize (funcName : string) (r : registry) : registry :=
  if String.prefix "handle" funcName || String.prefix "on" funcName
  then Registry (components r) (hooks r) ({[funcName]} ∪ handlers r) (utils r)
  else if String.prefix "use" funcName
  then Registry (components r) ({[funcName]} ∪ hooks r) (handlers r) (utils r)
  else Registry (components r) (hooks r) (handlers r) ({[funcName]} ∪ utils r).

(** [categorizeFunctions()]: the registry is cleared and filled from the
    names that have an entry in [functionHierarchy]. *)
Definition categorizeFunctions (functionHierarchy : gmap string string) :
    registry :=
  set_fold categorize (Registry ∅ ∅ ∅ ∅) (dom functionHierarchy).

(** [functionRegistry[categoryMap[selection]]]; [None] for a selection
    that the map does not list. *)
Definition category (r : registry) (selection : string) :
    option (gset string) :=
  if String.eqb selection "1" then Some (components r)
  else if String.eqb selection "2" then Some (hooks r)
  else if String.eqb selection "3" then Some (handlers r)
  else if String.eqb selection "4" then Some (utils r)
  else None.

(** The set [functionsToLog] that [addLoggingToSelection] builds. *)
Definition functionsToLog (r : registry) (selections : gset string) :
    gset string :=
  set_fold (λ selection acc, default ∅ (category r selection) ∪ acc) ∅
    selections.

(** [s.split(' ')] *)
Fixpoint split_spaces (s : string) : list string :=
  match s with
  | EmptyString => [EmptyString]
  | String c rest =>
      if Ascii.eqb c (Ascii.ascii_of_nat 32) then EmptyString :: split_spaces rest
      else match split_spaces rest with
           | [] => [String c EmptyString]
           | word :: words => String c word :: words
           end
  end.

(** The last step of [handleInput]: every number of the input toggles
    its selection; [input] is the text after [trim] and [toLowerCase],
    other than one of the commands. *)
Definition toggle (num : string) (selections : gset string) : gset string :=
  if bool_decide (num ∈ selections)
  then selections ∖ {[num]}
  else selections ∪ {[num]}.

Definition numbers (input : string) : list string :=
  filter (λ n, n ∈ ["1"; "2"; "3"; "4"]) (split_spaces input).

Definition handleNumbers (input : string) (selections : gset string) :
    gset string :=
  foldl (λ acc num, toggle num acc) selections (numbers input).

End FunctionRegistry.

(** ** The function logger: the menu loop *)

Module FunctionMenu.
Import FunctionRegistry.

(** What [handleInput] does to the selections, and whether it asks to
    quit; [input] is the text after [trim] and [toLowerCase].  Listing
    and adding the logs leave the selections as they are. *)
Definition handleInput (input : string) (selections : gset string) :
    bool * gset string :=
  if String.eqb input "q" then (true, selections)
  else if String.eqb input "l" then (false, selections)
  else if String.eqb input "c" then (false, ∅)
  else if String.eqb input "a" then (false, selections)
  else (false, handleNumbers input selections).

End FunctionMenu.

(** ** The profiler tool: finding the components *)

Module ProfilerScan.

(** [filePath.endsWith('.tsx')], the test, spec and story files apart. *)
Definition shouldProcessFile (filePath : string) : bool :=
  if FunctionRegistry.endsWith ".test.tsx" filePath
     || FunctionRegistry.endsWith ".spec.tsx" filePath
     || FunctionRegistry.endsWith ".stories.tsx" filePath
  then false
  else FunctionRegistry.endsWith ".tsx" filePath.

(** [/^[A-Z]/.test(name)] *)
Definition capitalized (name : string) : bool :=
  match name with
  | EmptyString => false
  | String c _ =>
      let k := Ascii.nat_of_ascii c in (65 <=? k) && (k <=? 90)
  end.

(** [n.id?.name] of a function or of a variable declarator; other nodes
    the visitors are called on have no [id]. *)
Definition id_name (n : node) : option string :=
  match n with
  | VariableDeclarator id _ => name_of id
  | Node (KFunctionDeclaration id) _ | Node (KFunctionExpression id) _ => id
  | _ => None
  end.

(** The [ReturnStatement] visitor of [isReactComponent]. *)
Definition enterReturnStatement (anc : list node) (n : node)
    (hasJSXReturn : bool) : outcome exn bool action :=
  match n with
  | ReturnStatement (Some arg) =>
      if has_type arg "JSXElement" || has_type arg "JSXFragment"
      then Ok Continue true
      else Ok Continue hasJSXReturn
  | _ => Ok Continue hasJSXReturn
  end.

(** [isReactComponent(path)]: [n] is the node of [path], [anc] its
    ancestors. *)
Definition isReactComponent (anc : list node) (n : node) : bool :=
  match
    FunctionLogger.nonempty (id_name n)
    ∪ FunctionLogger.nonempty (head anc ≫= id_name)
  with
  | None => false
  | Some name =>
      if capitalized name
      then final (traverse_inside enterReturnStatement anc n false)
      else false
  end.

End ProfilerScan.

(** ** The profiler tool: the component graph *)

Module ComponentAnalyzer.
Import ProfilerScan.

(** [class ComponentNode].  A set is the list of its elements in the
    order they were added. *)
Record ComponentNode : Type := NewComponentNode {
  name : string;
  filePath : string;
  type : string;
  children : list string;
  parents : list string;
  imports : list string;
}.

(** [set.add(x)] *)
Definition set_add (x : string) (set : list string) : list string :=
  if bool_decide (x ∈ set) then set else set ++ [x].

(** [class ComponentAnalyzer]: the map [components], with its entries in
    the order they were set, and [currentFilePath]. *)
Record analyzer : Type := Analyzer {
  components : list (string * ComponentNode);
  currentFilePath : string;
}.

(** [components.get(name)] *)
Definition get (key : string) (map : list (string * ComponentNode)) :
    option ComponentNode :=
  snd <$> find (λ entry, String.eqb entry.1 key) map.

(** A change made to the node stored under a key. *)
Definition adjust (key : string) (f : ComponentNode → ComponentNode)
    (map : list (string * ComponentNode)) : list (string * ComponentNode) :=
  (λ entry, if String.eqb entry.1 key then (entry.1, f entry.2) else entry)
    <$> map.

(** [addComponent(name, type)] *)
Definition addComponent (name type : string) (a : analyzer) : analyzer :=
  match get name (components a) with
  | Some _ => a
  | None =>
      Analyzer
        (components a
         ++ [(name, NewComponentNode name (currentFilePath a) type [] [] [])])
        (currentFilePath a)
  end.

(** [addRelationship(parentName, childName)] *)
Definition addRelationship (parentName childName : string) (a : analyzer) :
    analyzer :=
  match get parentName (components a), get childName (components a) with
  | Some _, Some _ =>
      Analyzer
        (adjust childName
           (λ child,
              NewComponentNode (name child) (filePath child) (type child)
                (children child) (set_add parentName (parents child))
                (imports child))
           (adjust parentName
              (λ parent,
                 NewComponentNode (name parent) (filePath parent)
                   (type parent) (set_add childName (children parent))
                   (parents parent) (imports parent))
              (components a)))
        (currentFilePath a)
  | _, _ => a
  end.

(** [s.toLowerCase()] on the letters A to Z. *)
Definition lower (c : Ascii.ascii) : Ascii.ascii :=
  let k := Ascii.nat_of_ascii c in
  if (65 <=? k) && (k <=? 90) then Ascii.ascii_of_nat (k + 32) else c.

Fixpoint toLowerCase (s : string) : string :=
  match s with
  | EmptyString => EmptyString
  | String c rest => String (lower c) (toLowerCase rest)
  end.

(** [detectComponentType(filePath, componentName)] *)
Definition detectComponentType (filePath componentName : string) : string :=
  let normalized := toLowerCase filePath in
  if includes "/pages/" normalized || includes "/screens/" normalized
  then "page"
  else if includes "/layouts/" normalized then "layout"
  else if includes "/components/" normalized then "component"
  else if includes "Provider" componentName then "provider"
  else "component".

(** The locals of [analyzeFile] the visitors close over, with the
    analyzer. *)
Record state : Type := State {
  this : analyzer;
  importedComponents : gset string;
}.

(** [spec.local] of an import specifier or default specifier. *)
Definition local_of (spec : node) : option node :=
  if has_type spec "ImportSpecifier" || has_type spec "ImportDefaultSpecifier"
  then match fields_of spec with
       | One local :: _ => Some local
       | _ => None
       end
  else None.

(** The [ImportDeclaration] visitor. *)
Definition enterImportDeclaration (n : node) (s : state) : state :=
  if has_type n "ImportDeclaration" then
    State (this s)
      (foldl
         (λ imported spec,
            match local_of spec ≫= name_of with
            | Some name =>
                if capitalized name then {[name]} ∪ imported else imported
            | None => imported
            end)
         (importedComponents s) (items n))
  else s.

(** The [JSXElement] visitor of the walk inside a component. *)
Definition enterJSXElement (name : string) (imported : gset string)
    (anc : list node) (n : node) (a : analyzer) :
    outcome exn analyzer action :=
  if has_type n "JSXElement" then
    match Profiler.opening_name n with
    | Some elementName =>
        if capitalized elementName && bool_decide (elementName ∈ imported)
        then Ok Continue (addRelationship name elementName a)
        else Ok Continue a
    | None => Ok Continue a
    end
  else Ok Continue a.

(** What both component visitors do once the component is recognised. *)
Definition register (filePath : string) (anc : list node) (n : node)
    (name : string) (s : state) : state :=
  let type := detectComponentType filePath name in
  let a := addComponent name type (this s) in
  State
    (final (traverse_inside (enterJSXElement name (importedComponents s))
              anc n a))
    (importedComponents s).

Section analyzeFile.

Variable filePath : string.

(** The [FunctionDeclaration] and [VariableDeclarator] visitors.  A
    component recognised by the name of its parent has no [id] of its own
    to read the name from, which throws; no parsed tree has such a
    parent. *)
Definition enterComponent (anc : list node) (n : node) (s : state) :
    outcome exn state action :=
  if has_type n "FunctionDeclaration" then
    if isReactComponent anc n then
      match Analyzer.function_id n with
      | Some name => Ok Continue (register filePath anc n name s)
      | None => Stop "TypeError" s
      end
    else Ok Continue s
  else
    match n with
    | VariableDeclarator id (Some init) =>
        if has_type init "ArrowFunctionExpression" && isReactComponent anc n
        then
          match name_of id with
          | Some name => Ok Continue (register filePath anc n name s)
          | None => Stop "TypeError" s
          end
        else Ok Continue s
    | _ => Ok Continue s
    end.

Definition enter (anc : list node) (n : node) (s : state) :
    outcome exn state action :=
  enterComponent anc n (enterImportDeclaration n s).

End analyzeFile.

Section scan.

(** [parser.parse]; [None] when it throws on malformed source. *)
Variable parse : string → option node.

(** [analyzeFile(filePath)] on a file with the given content: the
    analyzer afterwards and the lines written to the error console. *)
Definition analyzeFile (filePath content : string) (a : analyzer) :
    analyzer * list string :=
  if negb (shouldProcessFile filePath) then (a, []) else
  let a := Analyzer (components a) filePath in
  match parse content with
  | None => (a, ["Error analyzing " +:+ filePath +:+ ":"])
  | Some ast =>
      match traverse (enter filePath) [] ast (State a ∅) with
      | Ok _ s => (this s, [])
      | Stop _ s => (this s, ["Error analyzing " +:+ filePath +:+ ":"])
      end
  end.

(** [scanDirectory] over the files the directory walk reaches, given as
    (path, content) pairs in the order of the walk. *)
Definition scanDirectory (files : list (string * string)) (a : analyzer) :
    analyzer * list string :=
  foldl (λ acc entry,
           let '(a', errors) := analyzeFile entry.1 entry.2 acc.1 in
           (a', acc.2 ++ errors))
    (a, []) files.

End scan.

(** A node of the tree [getComponentsAsTree] builds. *)
Inductive tree : Type :=
  | TreeNode (name type filePath : string) (children : list tree).

(** The loop both [buildTree] and [getComponentsAsTree] run: [step]
    builds the node of one entry, [null] ([None] inside) when there is
    nothing to add, and the nodes are pushed in the order of the entries.
    [None] outside means that the bound on the depth was too low. *)
Definition collect {A} (step : A → gset string → option (option tree * gset string))
    (entries : list A) (visited : gset string) :
    option (list tree * gset string) :=
  foldl
    (λ acc entry,
       '(nodes, visited) ← acc;
       '(node, visited) ← step entry visited;
       Some (match node with
             | Some t => nodes ++ [t]
             | None => nodes
             end, visited))
    (Some ([], visited)) entries.

(** [buildTree(component)] with the set [visited].  The recursion goes as
    deep as there are components that are not yet visited, and [fuel]
    bounds it. *)
Fixpoint buildTree (fuel : nat) (map : list (string * ComponentNode))
    (component : ComponentNode) (visited : gset string) :
    option (option tree * gset string) :=
  match fuel with
  | 0 => None
  | S fuel =>
      if bool_decide (name component ∈ visited) then Some (None, visited)
      else
        '(nodes, visited) ←
          collect
            (λ childName visited,
               match get childName map with
               | Some childComponent =>
                   buildTree fuel map childComponent visited
               | None => Some (None, visited)
               end)
            (children component) ({[name component]} ∪ visited);
        Some (Some (TreeNode (name component) (type component)
                      (filePath component) nodes), visited)
  end.

(** The components without parents. *)
Definition rootComponents (map : list (string * ComponentNode)) :
    list ComponentNode :=
  filter (λ component, parents component = []) map.*2.

(** [getComponentsAsTree()] with a bound on the depth. *)
Definition treesWithin (fuel : nat) (map : list (string * ComponentNode)) :
    option (list tree) :=
  fst <$> collect (buildTree fuel map) (rootComponents map) ∅.

(** [getComponentsAsTree()]: one level per component is enough. *)
Definition getComponentsAsTree (a : analyzer) : option (list tree) :=
  treesWithin (S (length (components a))) (components a).

(** An entry of the menu. *)
Record choice : Type := Choice {
  title : string;
  value : string;
  description : string;
}.

Definition typeEmoji (type : string) : string :=
  if String.eqb type "page" then "📱"
  else if String.eqb type "layout" then "🔲"
  else if String.eqb type "component" then "🧩"
  else if String.eqb type "provider" then "🔌"
  else "🧩".

(** ['  '.repeat(level)] *)
Fixpoint indent (level : nat) : string :=
  match level with
  | 0 => ""
  | S level => "  " +:+ indent level
  end.

Section choices.

(** [path.basename] *)
Variable basename : string → string.

(** [convertTreeToChoices([node], level)] *)
Fixpoint choicesOf (level : nat) (t : tree) : list choice :=
  let 'TreeNode name type filePath children := t in
  Choice (indent level +:+ typeEmoji type +:+ " " +:+ name) name
    (type +:+ " - " +:+ basename filePath)
  :: concat (choicesOf (S level) <$> children).

(** [convertTreeToChoices(tree, level)] *)
Definition convertTreeToChoices (forest : list tree) (level : nat) :
    list choice :=
  concat (choicesOf level <$> forest).

End choices.

(** The names of the components of one type, in the order of the map. *)
Definition componentsOfType (type : string)
    (map : list (string * ComponentNode)) : list string :=
  ComponentAnalyzer.name <$>
    filter (λ c, ComponentAnalyzer.type c = type) map.*2.

(** [[...new Set(list)]]: every element once, where it comes first. *)
Definition unique (l : list string) : list string :=
  foldl (λ seen x, set_add x seen) [] l.

(** What [selectComponentsToProfile] makes of the answer to the prompt;
    [response] is [response.components || []]. *)
Definition selected (a : analyzer) (response : list string) : list string :=
  if bool_decide ("*all*" ∈ response) then (components a).*1 else
  let selectedComponents :=
    foldl
      (λ selectedComponents type,
         if bool_decide ("*" +:+ type +:+ "*" ∈ selectedComponents)
         then selectedComponents ++ componentsOfType type (components a)
         else selectedComponents)
      response ["page"; "layout"; "component"; "provider"] in
  unique (filter (λ c, String.prefix "*" c = false) selectedComponents).

End ComponentAnalyzer.

(** * The claims' vocabulary *)

(** ** Initializer shapes *)

Module Shapes.
Import Analyzer.

(** The complex shapes in the precedence order of the specification, each
    with the label the script reports for it. *)
Definition complex_shapes : list ((node → bool) * string) :=
  [ (λ v, has_type v "ArrowFunctionExpression"
          || has_type v "FunctionExpression", "Function initialization");
    (λ v, has_type v "ConditionalExpression", "Ternary operator");
    (λ v, has_type v "LogicalExpression", "Logical expression");
    (λ v, has_type v "CallExpression", "Function call");
    (λ v, has_type v "ObjectExpression" && bool_decide (1 ≤ length (items v)),
     "Complex object");
    (λ v, has_type v "ArrayExpression"
          && bool_decide (1 ≤ length (elements v)), "Non-empty array");
    (λ v, has_type v "BinaryExpression", "Binary expression") ].

(** First match wins. *)
Definition first_match (v : node) : option string :=
  snd <$> find (λ row, row.1 v) complex_shapes.

(** The initializers that are not reported: the basic literals, and the
    empty object and array literals. *)
Definition plain_initializer (v : node) : bool :=
  match type_of v with
  | KBooleanLiteral _ | KNullLiteral => true
  | KStringLiteral value => bool_decide (value = "")
  | KNumericLiteral value => PrimFloat.eqb value 0
  | KIdentifier name => bool_decide (name = "undefined")
  | KObjectExpression => bool_decide (items v = [])
  | KArrayExpression => bool_decide (elements v = [])
  | _ => false
  end.

End Shapes.

(** ** Call sites of the analyzer *)

Module Sites.
Import Analyzer Shapes.

(** What [c] gives on the children held by a field, in their order. *)
Definition slot_concat {A X} (c : A → list X) (f : slot A) : list X :=
  match f with
  | One a => c a
  | Opt o => from_option c [] o
  | Many l => concat (c <$> l)
  | Holes l => concat (from_option c [] <$> l)
  end.

(** What [c] gives on the nodes of a tree, in the order of the walk: a
    node before its children, the children field by field. *)
Fixpoint collect_nodes {X} (c : node → list X) (n : node) {struct n} :
    list X :=
  c n ++ concat (slot_concat (collect_nodes c) <$> fields_of n).

(** The line and the label of a finding. *)
Definition site (f : finding) : option nat * string :=
  (lineNumber f, reason f).

(** What a node is to be reported with: a call of [useState] whose first
    argument has a complex shape, with its line and the label of the
    first shape that matches; nothing for any other node. *)
Definition reported (n : node) : list (option nat * string) :=
  match n with
  | CallExpression callee (initialValue :: _) line =>
      if bool_decide (name_of callee = Some "useState")
      then from_option (λ label, [(line, label)]) [] (first_match initialValue)
      else []
  | _ => []
  end.

(** A component with one state variable, initialized by a function. *)
Definition component (name state setter : string) (value : float)
    (line : nat) : node :=
  FunctionDeclaration (Some name) []
    (BlockStatement
       [VariableDeclaration "const"
          [VariableDeclarator
             (ArrayPattern [Some (Identifier state); Some (Identifier setter)])
             (Some (CallExpression (Identifier "useState")
                      [ArrowFunctionExpression [] (NumericLiteral value)]
                      (Some line)))]]).

Definition react_import : node :=
  ImportDeclaration
    [ImportSpecifier (Identifier "useState") (Identifier "useState")] "react".

(** The file

      function A() { const [a, setA] = useState(() => 1); }
      import { useState } from 'react';
      function B() { const [b, setB] = useState(() => 2); }

    with a component in front of the import. *)
Definition late_import : node :=
  Program
    [ component "A" "a" "setA" 1%float 1;
      react_import;
      component "B" "b" "setB" 2%float 3 ].

End Sites.

(** ** Imports *)

Module Imports.

(** [n] is an import declaration from 'react' that names [hook] as the
    imported binding of one of its specifiers. *)
Definition imports_hook (hook : string) (n : node) : bool :=
  match type_of n with
  | KImportDeclaration source =>
      String.eqb source "react"
      && existsb (λ spec, bool_decide (imported_name spec = Some hook))
           (items n)
  | _ => false
  end.

(** A file with a local function named like a hook, and no import:

      function useState(x) { return [x, f]; }
      function C() { const [a, setA] = useState(() => 1); setA(2); }  *)
Definition local_useState : node :=
  Program
    [ FunctionDeclaration (Some "useState") [Identifier "x"]
        (BlockStatement
           [ReturnStatement
              (Some (ArrayExpression
                       [Some (Identifier "x"); Some (Identifier "f")]))]);
      FunctionDeclaration (Some "C") []
        (BlockStatement
           [ VariableDeclaration "const"
               [VariableDeclarator
                  (ArrayPattern
                     [Some (Identifier "a"); Some (Identifier "setA")])
                  (Some (CallExpression (Identifier "useState")
                           [ArrowFunctionExpression []
                              (NumericLiteral 1%float)]
                           (Some 2)))];
             ExpressionStatement
               (CallExpression (Identifier "setA") [NumericLiteral 2%float]
                  (Some 2)) ]) ].

(** The same for the effect hook:

      function useEffect(f) { f(); }
      function App() { useEffect(() => tick()); }  *)
Definition local_useEffect : node :=
  Program
    [ FunctionDeclaration (Some "useEffect") [Identifier "f"]
        (BlockStatement
           [ExpressionStatement
              (CallExpression (Identifier "f") [] (Some 1))]);
      FunctionDeclaration (Some "App") []
        (BlockStatement
           [ExpressionStatement
              (CallExpression (Identifier "useEffect")
                 [ArrowFunctionExpression []
                    (CallExpression (Identifier "tick") [] (Some 2))]
                 (Some 2))]) ].

(** What the effect logger makes of it. *)
Definition local_useEffect_logged : node :=
  Program
    [ VariableDeclaration "let"
        [VariableDeclarator (Identifier "effectCallCount_0")
           (Some (NumericLiteral 0%float))];
      FunctionDeclaration (Some "useEffect") [Identifier "f"]
        (BlockStatement
           [ExpressionStatement
              (CallExpression (Identifier "f") [] (Some 1))]);
      FunctionDeclaration (Some "App") []
        (BlockStatement
           [ExpressionStatement
              (CallExpression (Identifier "useEffect")
                 [ArrowFunctionExpression []
                    (BlockStatement
                       [ ExpressionStatement
                           (AssignmentExpression "+="
                              (Identifier "effectCallCount_0")
                              (NumericLiteral 1%float));
                         ExpressionStatement
                           (CallExpression
                              (MemberExpression (Identifier "console")
                                 (Identifier "log"))
                              [ StringLiteral
                                  "[App_Effect_0] useEffect at App.js:2 - Call count:";
                                Identifier "effectCallCount_0" ]
                              None);
                         ReturnStatement
                           (Some (CallExpression (Identifier "tick") []
                                    (Some 2))) ])]
                 (Some 2))]) ].

End Imports.

(** ** Setter calls *)

Module Setters.

(** An identifier or a literal. *)
Definition atom (n : node) : bool :=
  match n with
  | Identifier _ | StringLiteral _ | NumericLiteral _
  | BooleanLiteral _ | NullLiteral => true
  | _ => false
  end.

(** The nodes on which a visitor of the setter logger may act, whatever
    the state: import declarations, variable declarators and calls of an
    identifier. *)
Definition may_act (n : node) : bool :=
  has_type n "ImportDeclaration"
  || has_type n "VariableDeclarator"
  || match n with
     | CallExpression callee _ _ => isIdentifier callee
     | _ => false
     end.

(** A statement [console.log(label, value)] with a string literal label. *)
Definition is_log_statement (n : node) : bool :=
  match n with
  | ExpressionStatement
      (CallExpression
         (MemberExpression (Identifier "console") (Identifier "log"))
         [StringLiteral _; _] _) => true
  | _ => false
  end.

Definition counter_declaration : node :=
  VariableDeclaration "const"
    [VariableDeclarator
       (ArrayPattern [Some (Identifier "count"); Some (Identifier "setCount")])
       (Some (CallExpression (Identifier "useState")
                [NumericLiteral 0%float] (Some 3)))].

Definition setCount_call : node :=
  ExpressionStatement
    (CallExpression (Identifier "setCount") [NumericLiteral 1%float]
       (Some 4)).

(** The log statement for [setCount(1)]; [line] is [None] on the statement
    the script builds and the source line on the statement read back by
    the parser. *)
Definition setCount_log (line : option nat) : node :=
  ExpressionStatement
    (CallExpression
       (MemberExpression (Identifier "console") (Identifier "log"))
       [StringLiteral "[Counter] count updated to:"; NumericLiteral 1%float]
       line).

(** A statement as the parser reads it back: its call carries a source
    line. *)
Definition at_line (line : option nat) (stmt : node) : node :=
  match stmt with
  | ExpressionStatement (Node (KCallExpression _) fs) =>
      ExpressionStatement (Node (KCallExpression line) fs)
  | _ => stmt
  end.

Definition counter_file (body : list node) : node :=
  Program
    [ ImportDeclaration
        [ImportSpecifier (Identifier "useState") (Identifier "useState")]
        "react";
      FunctionDeclaration (Some "Counter") [] (BlockStatement body) ].

(** The file

      import { useState } from 'react';
      function Counter() {
        const [count, setCount] = useState(0);
        setCount(1);
      }

    what a run of the setter logger makes of it, that output parsed
    again (the log statement is printed behind the declaration, on its
    line), and what a second run makes of that. *)
Definition counter : node :=
  counter_file [counter_declaration; setCount_call].
Definition counter_logged : node :=
  counter_file [counter_declaration; setCount_log None; setCount_call].
Definition counter_logged_parsed : node :=
  counter_file [counter_declaration; setCount_log (Some 3); setCount_call].
Definition counter_logged_twice : node :=
  counter_file
    [counter_declaration; setCount_log (Some 3); setCount_log None;
     setCount_call].

End Setters.

(** ** Effect call sites *)

Module Effects.
Import CodeTransformer.

(** The declaration hoisted for the site with index [i]:
    [let effectCallCount_i = 0]. *)
Definition counter_declaration (i : nat) : node :=
  VariableDeclaration "let"
    [VariableDeclarator (Identifier (counterName i))
       (Some (NumericLiteral 0%float))].

(** A [useEffect] call whose first argument is a function literal: a site
    the effect logger instruments. *)
Definition instrumentable (n : node) : bool :=
  is_useEffect_call n
  && match n with
     | CallExpression _ (callback :: _) _ => is_function_literal callback
     | _ => false
     end.

(** A site whose dependency argument holds a call of [useEffect]. *)
Definition effect_in_dependencies (n : node) : bool :=
  instrumentable n
  && match n with
     | CallExpression _ (_ :: deps :: _) _ => any_node is_useEffect_call deps
     | _ => false
     end.

(** A [useEffect] call the effect logger counts and leaves as it is. *)
Definition left_alone (n : node) : bool :=
  is_useEffect_call n && negb (instrumentable n).

(** The file

      function App() { useEffect(() => tick()); }  *)
Definition one_effect : node :=
  Program
    [ FunctionDeclaration (Some "App") []
        (BlockStatement
           [ExpressionStatement
              (CallExpression (Identifier "useEffect")
                 [ArrowFunctionExpression []
                    (CallExpression (Identifier "tick") [] (Some 1))]
                 (Some 1))]) ].

(** The file

      function App() { useEffect(() => tick(), [id]); useEffect(cb, []); }

    with one call that is instrumented and one that is not. *)
Definition two_calls : node :=
  Program
    [ FunctionDeclaration (Some "App") []
        (BlockStatement
           [ ExpressionStatement
               (CallExpression (Identifier "useEffect")
                  [ ArrowFunctionExpression []
                      (CallExpression (Identifier "tick") [] (Some 1));
                    ArrayExpression [Some (Identifier "id")] ]
                  (Some 1));
             ExpressionStatement
               (CallExpression (Identifier "useEffect")
                  [Identifier "cb"; ArrayExpression []]
                  (Some 1)) ]) ].

End Effects.

(** ** Runs over files *)

Module Runs.
Import Effects.

(** What the effect logger makes of [two_calls], from a counter at 0. *)
Definition two_calls_logged : node :=
  Eval vm_compute in
    match CodeTransformer.transformAst "App.js" two_calls 0 with
    | Ok out _ => out
    | Stop _ _ => two_calls
    end.

Definition two_calls_state : CodeTransformer.state :=
  Eval vm_compute in final (CodeTransformer.transformAst "App.js" two_calls 0).

(** A parser that knows one source text, and a generator that prints a
    fixed text. *)
Definition parse_only (code : string) (ast : node) (text : string) :
    option node :=
  if String.eqb text code then Some ast else None.

Definition print_fixed (text : string) (_ : string) (_ : node) : string :=
  text.

(** A file that calls [useEffect] with a callback that is not a function
    literal: [useEffect(cb, [])]. *)
Definition callback_by_name : node :=
  Program
    [ExpressionStatement
       (CallExpression (Identifier "useEffect")
          [Identifier "cb"; ArrayExpression []] (Some 1))].

(** Two worlds that agree on everything but the console. *)
Definition same_but_console (w w' : FileProcessor.world) : Prop :=
  FileProcessor.files w = FileProcessor.files w' ∧
  FileProcessor.effectCounter w = FileProcessor.effectCounter w' ∧
  FileProcessor.globalEffectCounter w = FileProcessor.globalEffectCounter w'.

End Runs.

(** ** Callback bodies *)

Module Bodies.

(** The expression whose value a list of statements returns: expression
    statements run in order, then the first [return] hands back its
    argument. *)
Fixpoint block_result (stmts : list node) : option node :=
  match stmts with
  | [] => None
  | ReturnStatement argument :: _ => argument
  | st :: rest =>
      if has_type st "ExpressionStatement" then block_result rest else None
  end.

(** The expression whose value a function literal returns: that of its
    block, or its body when the body is an expression. *)
Definition returned_expression (fn : node) : option node :=
  match fn with
  | Node _ [Many _; One body] =>
      if has_type body "BlockStatement" then block_result (items body)
      else Some body
  | _ => None
  end.

End Bodies.

(** ** Reports of the analyzer *)

Module Reports.
Import Analyzer Shapes.

(** The labels a finding can carry. *)
Definition labels : list string := snd <$> complex_shapes.

(** A call the analyzer reports once the import is confirmed: the callee
    has the name [useState] and the first argument has a complex shape. *)
Definition complex_call (n : node) : bool :=
  match n with
  | CallExpression callee (initialValue :: _) _ =>
      bool_decide (name_of callee = Some "useState")
      && bool_decide (is_Some (first_match initialValue))
  | _ => false
  end.

(** One of the three function node types. *)
Definition is_function (n : node) : bool :=
  has_type n "FunctionDeclaration"
  || has_type n "FunctionExpression"
  || has_type n "ArrowFunctionExpression".

(** What one file adds to the findings of a directory. *)
Definition contribution (parse : string → option node)
    (snippet : string → node → string) (entry : string * string) :
    list finding :=
  default [] (analyzeFile parse snippet entry.1 entry.2).1.

End Reports.

(** ** The summary of the report *)

Module Tally.
Import Analyzer.

(** The count an object holds under a key, 0 when the key is absent. *)
Definition held (key : string) (acc : list (string * nat)) : nat :=
  from_option snd 0 (find (λ entry, String.eqb entry.1 key) acc).

(** The number of findings that carry a label. *)
Definition count_reason (label : string) (findings : list finding) : nat :=
  length (filter (λ f, reason f = label) findings).

(** Three findings, two of them with the same label. *)
Definition three_findings : list finding :=
  [ Finding (Some "App") "a" "App.jsx" (Some 3) "Function call" "f()";
    Finding (Some "App") "b" "App.jsx" (Some 4) "Ternary operator" "x ? 1 : 2";
    Finding (Some "App") "c" "App.jsx" (Some 5) "Function call" "g()" ].

End Tally.

(** ** Effect calls without a callback *)

Module Bare.
Import CodeTransformer.

(** A call [useEffect()] without arguments. *)
Definition bare_useEffect (n : node) : bool :=
  is_useEffect_call n
  && match n with
     | CallExpression _ [] _ => true
     | _ => false
     end.

(** The file [function App() { useEffect(() => tick()); useEffect(); }]. *)
Definition effect_then_bare : node :=
  Program
    [ FunctionDeclaration (Some "App") []
        (BlockStatement
           [ ExpressionStatement
               (CallExpression (Identifier "useEffect")
                  [ArrowFunctionExpression []
                     (CallExpression (Identifier "tick") [] (Some 1))]
                  (Some 1));
             ExpressionStatement
               (CallExpression (Identifier "useEffect") [] (Some 1)) ]) ].

End Bare.

(** ** Names and selections *)

Module Names.

(** The name starts with a letter from A to Z. *)
Definition upper_initial (name : string) : bool :=
  match name with
  | EmptyString => false
  | String c _ =>
      let k := Ascii.nat_of_ascii c in (65 <=? k) && (k <=? 90)
  end.

(** The selections the menu can hold. *)
Definition menu_numbers : gset string := {[ "1"; "2"; "3"; "4" ]}.

(** A file with a component [App] that holds a handler:

      function App() { const handleClick = () => go(); }  *)
Definition app_with_handler : node :=
  Program
    [ FunctionDeclaration (Some "App") []
        (BlockStatement
           [ VariableDeclaration "const"
               [VariableDeclarator (Identifier "handleClick")
                  (Some (ArrowFunctionExpression []
                           (CallExpression (Identifier "go") []
                              (Some 1))))] ]) ].

End Names.

(** ** Returned JSX *)

Module Returns.

(** A [return] of a JSX element or fragment. *)
Definition returns_jsx (n : node) : bool :=
  match n with
  | ReturnStatement (Some arg) =>
      has_type arg "JSXElement" || has_type arg "JSXFragment"
  | _ => false
  end.

(** A [return] of a JSX element or fragment that is not a [Profiler]
    element. *)
Definition returns_bare_jsx (n : node) : bool :=
  match n with
  | ReturnStatement (Some arg) =>
      (has_type arg "JSXElement"
       && negb (bool_decide (Profiler.opening_name arg = Some "Profiler")))
      || (negb (has_type arg "JSXElement") && has_type arg "JSXFragment")
  | _ => false
  end.

(** Some node below [n] satisfies [p]. *)
Definition below (p : node → bool) (n : node) : bool :=
  existsb (slot_any (any_node p)) (fields_of n).

(** The component [const Card = () => <div/>]. *)
Definition card : node :=
  ArrowFunctionExpression []
    (JSXElement (JSXOpeningElement (JSXIdentifier "div") [] true) [] None).

(** The component

      function List() { return <ul>{items.map(i => { return <li/>; })}</ul>; } *)
Definition list_component : node :=
  FunctionDeclaration (Some "List") []
    (BlockStatement
       [ReturnStatement
          (Some (JSXElement (JSXOpeningElement (JSXIdentifier "ul") [] false)
                   [JSXExpressionContainer
                      (CallExpression
                         (MemberExpression (Identifier "items")
                            (Identifier "map"))
                         [ArrowFunctionExpression [Identifier "i"]
                            (BlockStatement
                               [ReturnStatement
                                  (Some (JSXElement
                                           (JSXOpeningElement
                                              (JSXIdentifier "li") [] true)
                                           [] None))])]
                         (Some 1))]
                   (Some (JSXClosingElement (JSXIdentifier "ul")))))]).

End Returns.

(** ** The component graph *)

Module Graph.
Import ComponentAnalyzer.

(** The names of the nodes of a tree, each before its children. *)
Fixpoint tree_names (t : tree) : list string :=
  let 'TreeNode name _ _ children := t in
  name :: concat (tree_names <$> children).

(** The names of the nodes of a forest. *)
Definition forest_names (forest : list tree) : list string :=
  concat (tree_names <$> forest).

(** The names of the components stored in a map. *)
Definition stored_names (map : list (string * ComponentNode)) : gset string :=
  list_to_set (name <$> map.*2).

(** A map as the analyzer builds it: no key twice, every node under its
    own name, and a component among the children of another exactly when
    the other is among its parents (the children and parents of a name
    that is not in the map being none). *)
Definition well_formed (map : list (string * ComponentNode)) : Prop :=
  NoDup map.*1 ∧
  Forall (λ entry, name entry.2 = entry.1) map ∧
  ∀ p c,
    c ∈ from_option children [] (get p map)
    ↔ p ∈ from_option parents [] (get c map).

(** Every component of [map] is in [map'], with the file and the type it
    had. *)
Definition keeps (map map' : list (string * ComponentNode)) : Prop :=
  ∀ key component,
    get key map = Some component →
    ∃ component',
      get key map' = Some component' ∧
      filePath component' = filePath component ∧
      type component' = type component.

(** Two files that define a component [Card] each:
    [function Card() { return <div/>; }]. *)
Definition card_file : node :=
  Program
    [ FunctionDeclaration (Some "Card") []
        (BlockStatement
           [ReturnStatement
              (Some (JSXElement
                       (JSXOpeningElement (JSXIdentifier "div") [] true)
                       [] None))]) ].

Definition two_cards : list (string * string) :=
  [ ("src/pages/Card.tsx", "Card"); ("src/layouts/Card.tsx", "Card") ].

(** What a step of the loop of [buildTree] does to the set of visited
    names, and the node it builds: with [names] the names that may be
    visited, the set grows within them, and the names of the node are new
    and visited afterwards. *)
Definition steps_well {A} (names : gset string)
    (step : A → gset string → option (option tree * gset string))
    (bound : gset string → Prop) (entry : A) : Prop :=
  ∀ visited, bound visited →
    ∃ node visited',
      step entry visited = Some (node, visited') ∧
      visited ⊆ visited' ∧ visited' ⊆ (visited ∪ names) ∧
      NoDup (from_option tree_names [] node) ∧
      ∀ v, v ∈ from_option tree_names [] node → (v ∉ visited) ∧ v ∈ visited'.

(** The loop of [selectComponentsToProfile] over the type groups, from
    the answers to the prompt. *)
Definition grow (map : list (string * ComponentNode))
    (answers types : list string) : list string :=
  foldl
    (λ selectedComponents type,
       if bool_decide ("*" +:+ type +:+ "*" ∈ selectedComponents)
       then selectedComponents ++ componentsOfType type map
       else selectedComponents)
    answers types.

End Graph.

(** * Facts *)

(** ** Trees *)

Module AstFacts.

(** Induction over trees: a property holds of every node when it holds of
    a node as soon as it holds of every child. *)
Lemma node_ind' (P : node → Prop) :
  (∀ k fs, Forall (slot_all P) fs → P (Node k fs)) → ∀ n, P n.
Proof.
  intros step. fix IH 1. intros [k fs]. apply step.
  induction fs as [|f fs IHfs]; constructor; [|exact IHfs].
  destruct f as [a|[a|]|l|l]; simpl; try exact I; try apply IH.
  - induction l; constructor; auto.
  - induction l as [|[a|] l IHl]; constructor; simpl; auto.
Qed.

Lemma existsb_false_Forall {A} (p : A → bool) (l : list A) :
  existsb p l = false ↔ Forall (λ a, p a = false) l.
Proof.
  induction l as [|a l IH]; simpl.
  - split; [constructor|done].
  - rewrite orb_false_iff, IH. split.
    + intros [??]. by constructor.
    + by inversion 1.
Qed.

(** No node of a tree passes a test exactly when the root fails it and no
    node of a child passes it. *)
Lemma any_node_false (p : node → bool) (k : kind) (fs : list (slot node)) :
  any_node p (Node k fs) = false ↔
  p (Node k fs) = false ∧ Forall (slot_all (λ c, any_node p c = false)) fs.
Proof.
  simpl. rewrite orb_false_iff, existsb_false_Forall.
  apply and_iff_compat_l. apply Forall_iff. intros [a|[a|]|l|l]; simpl;
    rewrite ?existsb_false_Forall; try done.
  apply Forall_iff. by intros [a|].
Qed.

Lemma sum_list_with_add {A} (f g h : A → nat) l :
  Forall (λ x, f x = g x + h x) l →
  sum_list_with f l = sum_list_with g l + sum_list_with h l.
Proof. induction 1 as [|x l Hx _ IH]; simpl; lia. Qed.

(** Counting with a test that is the disjoint union of two tests. *)
Lemma count_nodes_split (p a b : node → bool) :
  (∀ n, (if p n then 1 else 0)
        = (if a n then 1 else 0) + (if b n then 1 else 0)) →
  ∀ n, count_nodes p n = count_nodes a n + count_nodes b n.
Proof.
  intros Hp. induction n as [k fs IH] using node_ind'. simpl.
  rewrite (Hp (Node k fs)).
  rewrite (sum_list_with_add _ (slot_sum (count_nodes a))
             (slot_sum (count_nodes b))); [lia|].
  eapply Forall_impl; [exact IH|].
  intros [x|[x|]|l|l]; simpl; try done.
  - apply sum_list_with_add.
  - intros H. apply sum_list_with_add. eapply Forall_impl; [exact H|].
    by intros [x|].
Qed.

End AstFacts.

(** ** The traversal driver *)

Module WalkFacts.
Import AstFacts.

Section invariants.
Context {E S : Type}.

(** A property of the state that every step keeps is kept by a walk over
    an array, an optional child and a field. *)
Lemma each_final {A B} (I : S → Prop) (f : A → S → outcome E S B) l :
  Forall (λ a, ∀ s, I s → I (final (f a s))) l →
  ∀ s, I s → I (final (each f l s)).
Proof.
  induction 1 as [|a l Ha _ IH]; intros s Hs; simpl; [done|].
  unfold bind. specialize (Ha s Hs). destruct (f a s) as [b s1|e s1]; [|done].
  specialize (IH s1 Ha). simpl in *. unfold bind.
  by destruct (each f l s1).
Qed.

Lemma maybe_final {A B} (I : S → Prop) (f : A → S → outcome E S B) o :
  from_option (λ a, ∀ s, I s → I (final (f a s))) True o →
  ∀ s, I s → I (final (maybe f o s)).
Proof.
  destruct o as [a|]; simpl; intros Ha s Hs; [|done].
  unfold bind. specialize (Ha s Hs). by destruct (f a s).
Qed.

Lemma field_final {A B} (I : S → Prop) (f : A → S → outcome E S B) sl :
  slot_all (λ a, ∀ s, I s → I (final (f a s))) sl →
  ∀ s, I s → I (final (field f sl s)).
Proof.
  destruct sl as [a|o|l|l]; simpl; intros H s Hs; unfold bind.
  - specialize (H s Hs). by destruct (f a s).
  - pose proof (maybe_final I f o H s Hs) as H'. by destruct (maybe f o s).
  - pose proof (each_final I f l H s Hs) as H'. by destruct (each f l s).
  - assert (Forall (λ o, ∀ s, I s → I (final (maybe f o s))) l) as H0.
    { eapply Forall_impl; [exact H|]. intros o Ho. by apply maybe_final. }
    pose proof (each_final I (maybe f) l H0 s Hs) as H'.
    by destruct (each (maybe f) l s).
Qed.

(** A quantity of the state that every step raises by a known amount is
    raised by the sum of the amounts. *)
Lemma each_length {A B} (f : A → S → outcome E S B) l :
  ∀ s l' s', each f l s = Ok l' s' → length l' = length l.
Proof.
  induction l as [|a l IH]; intros s l' s'; simpl.
  - by intros [= <- _].
  - unfold bind. destruct (f a s) as [b s1|e s1]; [|done].
    destruct (each f l s1) as [bs s2|e s2] eqn:Hl; [|done].
    intros [= <- _]. simpl. by rewrite (IH _ _ _ Hl).
Qed.

Lemma each_count {A B} (m : S → nat) (c : A → nat)
    (f : A → S → outcome E S B) l :
  Forall (λ a, ∀ s b s', f a s = Ok b s' → m s' = m s + c a) l →
  ∀ s l' s', each f l s = Ok l' s' → m s' = m s + sum_list_with c l.
Proof.
  induction 1 as [|a l Ha _ IH]; intros s l' s'; simpl.
  - intros [= _ <-]. lia.
  - unfold bind. destruct (f a s) as [b s1|e s1] eqn:Hf; [|done].
    destruct (each f l s1) as [bs s2|e s2] eqn:Hl; [|done].
    intros [= _ <-]. rewrite (IH _ _ _ Hl), (Ha _ _ _ Hf). lia.
Qed.

Lemma maybe_count {A B} (m : S → nat) (c : A → nat)
    (f : A → S → outcome E S B) o :
  from_option (λ a, ∀ s b s', f a s = Ok b s' → m s' = m s + c a) True o →
  ∀ s o' s', maybe f o s = Ok o' s' → m s' = m s + from_option c 0 o.
Proof.
  destruct o as [a|]; simpl; intros Ha s o' s'.
  - unfold bind. destruct (f a s) as [b s1|e s1] eqn:Hf; [|done].
    intros [= _ <-]. eauto.
  - intros [= _ <-]. lia.
Qed.

Lemma field_count {A B} (m : S → nat) (c : A → nat)
    (f : A → S → outcome E S B) sl :
  slot_all (λ a, ∀ s b s', f a s = Ok b s' → m s' = m s + c a) sl →
  ∀ s sl' s', field f sl s = Ok sl' s' → m s' = m s + slot_sum c sl.
Proof.
  destruct sl as [a|o|l|l]; simpl; intros H s sl' s'; unfold bind.
  - destruct (f a s) as [b s1|e s1] eqn:Hf; [|done]. intros [= _ <-]. eauto.
  - destruct (maybe f o s) as [b s1|e s1] eqn:Hf; [|done]. intros [= _ <-].
    by eapply maybe_count.
  - destruct (each f l s) as [b s1|e s1] eqn:Hf; [|done]. intros [= _ <-].
    by eapply each_count.
  - destruct (each (maybe f) l s) as [b s1|e s1] eqn:Hf; [|done].
    intros [= _ <-]. eapply each_count; [|done].
    eapply Forall_impl; [exact H|]. intros o Ho. by apply maybe_count.
Qed.

End invariants.

Section traverse.
Context {S : Type}.
Variable enter : list node → node → S → outcome exn S action.

(** A property of the state that the visitor keeps on every node other
    than those marked by [bad] holds at the end of the walk over a tree
    without such nodes, whether the walk returns or stops. *)
Lemma traverse_final (I : S → Prop) (bad : node → bool) :
  (∀ anc n s, bad n = false → I s → I (final (enter anc n s))) →
  ∀ n anc s,
    any_node bad n = false → I s → I (final (traverse enter anc n s)).
Proof.
  intros Henter. induction n as [k fs IH] using node_ind'.
  intros anc s [Hq Hfs]%any_node_false Hs. simpl. unfold bind.
  specialize (Henter anc _ s Hq Hs).
  destruct (enter anc (Node k fs) s) as [act s1|e s1]; [|done].
  simpl in Henter.
  assert (I (final (each (field (traverse enter (Node k fs :: anc))) fs s1)))
    as Hend.
  { apply each_final; [|done]. rewrite Forall_forall in IH, Hfs |- *.
    intros sl Hsl. apply field_final.
    specialize (IH sl Hsl). specialize (Hfs sl Hsl).
    destruct sl as [a|[a|]|l|l]; simpl in *; auto.
    - rewrite Forall_forall in IH, Hfs |- *. auto.
    - rewrite Forall_forall in IH, Hfs |- *. intros [a|] Ha; simpl; [|done].
      specialize (IH _ Ha). specialize (Hfs _ Ha). simpl in *. auto. }
  by destruct (each _ fs s1).
Qed.

(** A quantity of the state that the visitor raises by one on the nodes
    that pass [p], and leaves alone on the others, is raised by a walk that
    returns by the number of nodes of the tree that pass [p]. *)
Lemma traverse_count (m : S → nat) (p : node → bool) :
  (∀ anc n s act s',
     enter anc n s = Ok act s' → m s' = m s + (if p n then 1 else 0)) →
  ∀ n anc s n' s',
    traverse enter anc n s = Ok n' s' → m s' = m s + count_nodes p n.
Proof.
  intros Henter. induction n as [k fs IH] using node_ind'.
  intros anc s n' s'. simpl. unfold bind.
  destruct (enter anc (Node k fs) s) as [act s1|e s1] eqn:He; [|done].
  destruct (each _ fs s1) as [fs' s2|e s2] eqn:Hfs; [|done].
  intros [= _ <-]. apply Henter in He.
  eapply (each_count m (slot_sum (count_nodes p))) in Hfs.
  - rewrite Hfs, He. lia.
  - eapply Forall_impl; [exact IH|]. intros sl Hsl. apply field_count.
    destruct sl as [a|[a|]|l|l]; simpl in *; eauto.
    + eapply Forall_impl; [exact Hsl|]. eauto.
    + eapply Forall_impl; [exact Hsl|]. intros [a|]; simpl; eauto.
Qed.

(** No node fails the test that every node passes. *)
Lemma any_node_never (n : node) : any_node (λ _, false) n = false.
Proof.
  induction n as [k fs IH] using node_ind'. apply any_node_false.
  split; [done|]. eapply Forall_impl; [exact IH|].
  by intros [a|[a|]|l|l].
Qed.

End traverse.

Section walk.
Context {S : Type}.

(** Children that the walk hands back as they were, in a state it leaves
    as it was. *)
Lemma each_fixed {A} (f : A → S → outcome halt S A) (s : S) l :
  Forall (λ a, f a s = Ok a s) l → each f l s = Ok l s.
Proof.
  induction 1 as [|a l Ha _ IH]; simpl; [done|].
  unfold bind. by rewrite Ha, IH.
Qed.

Lemma fields_settled (w : node → S → outcome halt S (list node * node))
    (s : S) fs :
  Forall (slot_all (λ c, w c s = Ok ([], c) s)) fs →
  each (field (settled w)) fs s = Ok fs s.
Proof.
  intros H. apply each_fixed. eapply Forall_impl; [exact H|].
  assert (∀ c, w c s = Ok ([], c) s → settled w c s = Ok c s) as Hone.
  { intros c Hc. unfold settled, bind. by rewrite Hc. }
  intros [a|[a|]|l|l]; simpl; unfold bind; intros Hsl.
  - by rewrite Hone.
  - by rewrite Hone.
  - done.
  - rewrite each_fixed; [done|]. eapply Forall_impl; [exact Hsl|]. auto.
  - rewrite each_fixed; [done|]. eapply Forall_impl; [exact Hsl|].
    intros [a|]; simpl; [|done]. intros Ha. unfold bind. by rewrite Hone.
Qed.

Lemma statements_fixed (w : node → S → outcome halt S (list node * node))
    (s : S) body :
  Forall (λ c, w c s = Ok ([], c) s) body →
  statements w body s = Ok ([], body) s.
Proof.
  induction 1 as [|a l Ha _ IH]; simpl; [done|].
  unfold bind. by rewrite Ha, IH.
Qed.

(** A walk over a tree on whose nodes the visitor does nothing, in a state
    it keeps, hands the tree back. *)
Lemma walk_fixed (enter : list node → node → S → outcome halt S request)
    (reacts : S → node → bool) (s : S) (bad : node → bool) :
  (∀ anc n, bad n = false → enter anc n s = Ok Pass s) →
  ∀ n anc, any_node bad n = false → walk enter reacts anc n s = Ok ([], n) s.
Proof.
  intros Henter. induction n as [k fs IH] using node_ind'.
  intros anc [Hbad Hfs]%any_node_false.
  assert (Forall (slot_all (λ c,
            walk enter reacts (Node k fs :: anc) c s = Ok ([], c) s)) fs)
    as Hkids.
  { rewrite Forall_forall in IH, Hfs |- *. intros sl Hsl.
    specialize (IH sl Hsl). specialize (Hfs sl Hsl).
    destruct sl as [a|[a|]|l|l]; simpl in *; auto.
    - rewrite Forall_forall in IH, Hfs |- *. auto.
    - rewrite Forall_forall in IH, Hfs |- *. intros [a|] Ha; simpl; [|done].
      specialize (IH _ Ha). specialize (Hfs _ Ha). simpl in *. auto. }
  pose proof (fields_settled _ _ _ Hkids) as Hgeneric.
  pose proof (Henter anc _ Hbad) as He.
  destruct k;
    try (simpl; unfold bind at 1; rewrite He; unfold bind; by rewrite Hgeneric);
    destruct fs as [|[e|o|body|hs] [|f2 fs2]];
    try (simpl; unfold bind at 1; rewrite He; unfold bind;
         simpl in Hgeneric; unfold bind in Hgeneric;
         first [done | by rewrite Hgeneric]);
    apply Forall_cons in Hkids as [Hkid _]; simpl in Hkid;
    simpl; unfold bind at 1; rewrite He; unfold bind.
  - by rewrite Hkid.
  - by rewrite (statements_fixed _ _ _ Hkid).
  - by rewrite (statements_fixed _ _ _ Hkid).
Qed.

End walk.

Section unchanged.
Context {S : Type} (P : S → Prop).

(** Children that come back as they were whenever the walk ends in a state
    with [P], which then held from the start. *)
Lemma each_unchanged {A} (f : A → S → outcome halt S A) l :
  Forall (λ a, ∀ s b s', f a s = Ok b s' → P s' → b = a ∧ P s) l →
  ∀ s l' s', each f l s = Ok l' s' → P s' → l' = l ∧ P s.
Proof.
  induction 1 as [|a l Ha _ IH]; intros s l' s'; simpl.
  - by intros [= <- <-].
  - unfold bind. destruct (f a s) as [b s1|e s1] eqn:Hf; [|done].
    destruct (each f l s1) as [bs s2|e s2] eqn:Hl; [|done].
    intros [= <- <-] Hs'. destruct (IH _ _ _ Hl Hs') as [-> Hs1].
    by destruct (Ha _ _ _ Hf Hs1) as [-> Hs].
Qed.

Lemma fields_unchanged (w : node → S → outcome halt S (list node * node)) fs :
  Forall (slot_all (λ c, ∀ s r s',
            w c s = Ok r s' → P s' → r = ([], c) ∧ P s)) fs →
  ∀ s fs' s',
    each (field (settled w)) fs s = Ok fs' s' → P s' → fs' = fs ∧ P s.
Proof.
  intros H. apply each_unchanged. eapply Forall_impl; [exact H|].
  assert (∀ c, (∀ s r s', w c s = Ok r s' → P s' → r = ([], c) ∧ P s) →
            ∀ s b s', settled w c s = Ok b s' → P s' → b = c ∧ P s) as Hone.
  { intros c Hc s b s'. unfold settled, bind.
    destruct (w c s) as [r s1|e s1] eqn:Hw; [|done].
    destruct r as [[|] c']; simpl; [|done]. intros [= <- <-] Hs'.
    by destruct (Hc _ _ _ Hw Hs') as [[= ->] ?]. }
  assert (∀ o, from_option (λ c, ∀ s r s',
                  w c s = Ok r s' → P s' → r = ([], c) ∧ P s) True o →
            ∀ s b s', maybe (settled w) o s = Ok b s' → P s' → b = o ∧ P s)
    as Hopt.
  { intros [c|]; simpl; intros Hc s b s'; [|by intros [= <- <-]].
    unfold bind. destruct (settled w c s) as [c' s1|e s1] eqn:Hw; [|done].
    intros [= <- <-] Hs'. by destruct (Hone _ Hc _ _ _ Hw Hs') as [-> ?]. }
  intros [a|o|l|l]; simpl; intros Hsl s b s'; unfold bind.
  - destruct (settled w a s) as [c' s1|e s1] eqn:Hw; [|done].
    intros [= <- <-] Hs'. by destruct (Hone _ Hsl _ _ _ Hw Hs') as [-> ?].
  - destruct (maybe (settled w) o s) as [o' s1|e s1] eqn:Hw; [|done].
    intros [= <- <-] Hs'. by destruct (Hopt _ Hsl _ _ _ Hw Hs') as [-> ?].
  - destruct (each (settled w) l s) as [l' s1|e s1] eqn:Hw; [|done].
    intros [= <- <-] Hs'.
    eapply each_unchanged in Hw as [-> ?]; [done| |done].
    eapply Forall_impl; [exact Hsl|]. auto.
  - destruct (each (maybe (settled w)) l s) as [l' s1|e s1] eqn:Hw; [|done].
    intros [= <- <-] Hs'.
    eapply each_unchanged in Hw as [-> ?]; [done| |done].
    eapply Forall_impl; [exact Hsl|]. auto.
Qed.

Lemma statements_unchanged
    (w : node → S → outcome halt S (list node * node)) body :
  Forall (λ c, ∀ s r s', w c s = Ok r s' → P s' → r = ([], c) ∧ P s) body →
  ∀ s rs s',
    statements w body s = Ok rs s' → P s' → rs = ([], body) ∧ P s.
Proof.
  induction 1 as [|a l Ha _ IH]; intros s rs s'; simpl.
  - by intros [= <- <-].
  - unfold bind. destruct (w a s) as [r s1|e s1] eqn:Hw; [|done].
    destruct (statements w l s1) as [rs' s2|e s2] eqn:Hl; [|done].
    intros [= <- <-] Hs'. destruct (IH _ _ _ Hl Hs') as [-> Hs1].
    by destruct (Ha _ _ _ Hw Hs1) as [-> Hs].
Qed.

(** When the visitor asks for nothing unless it leaves a state without
    [P], a walk that ends in a state with [P] hands the tree back. *)
Lemma walk_unchanged (enter : list node → node → S → outcome halt S request)
    (reacts : S → node → bool) :
  (∀ anc n s req s', enter anc n s = Ok req s' → P s' → req = Pass ∧ P s) →
  ∀ n anc s r s',
    walk enter reacts anc n s = Ok r s' → P s' → r = ([], n) ∧ P s.
Proof.
  intros Henter. induction n as [k fs IH] using node_ind'.
  intros anc s r s'.
  assert (Forall (slot_all (λ c, ∀ s r s',
            walk enter reacts (Node k fs :: anc) c s = Ok r s' → P s' →
            r = ([], c) ∧ P s)) fs) as Hkids.
  { eapply Forall_impl; [exact IH|].
    intros [a|[a|]|l|l]; simpl; try done.
    - intros H ???. apply H.
    - intros H ???. apply H.
    - intros H. eapply Forall_impl; [exact H|]. intros c Hc ???. apply Hc.
    - intros H. eapply Forall_impl; [exact H|].
      intros [c|]; simpl; [|done]. intros Hc ???. apply Hc. }
  pose proof (fields_unchanged _ _ Hkids) as Hgeneric.
  simpl. unfold bind at 1.
  destruct (enter anc (Node k fs) s) as [req s1|e s1] eqn:He; [|done].
  assert (
    (fs' ⇐ each (field (settled (walk enter reacts (Node k fs :: anc)))) fs;;
     Ok (requested req (Node k fs'), Node k fs')) s1 = Ok r s' →
     P s' → r = ([], Node k fs) ∧ P s) as Hgen.
  { unfold bind.
    destruct (each _ fs s1) as [fs' s2|e s2] eqn:Hfs; [|done].
    intros [= <- <-] Hs'. destruct (Hgeneric _ _ _ Hfs Hs') as [-> Hs1].
    by destruct (Henter _ _ _ _ _ He Hs1) as [-> ?]. }
  destruct k; try (by apply Hgen);
    destruct fs as [|[e|o|body|hs] [|f2 fs2]]; try (by apply Hgen);
    apply Forall_cons in Hkids as [Hkid _]; simpl in Hkid; unfold bind.
  - destruct (walk _ _ _ _ s1) as [re s2|? s2] eqn:Hw; [|done].
    intros [= <- <-] Hs'. destruct (Hkid _ _ _ Hw Hs') as [-> Hs1].
    by destruct (Henter _ _ _ _ _ He Hs1) as [-> ?].
  - destruct (statements _ _ s1) as [rs s2|? s2] eqn:Hw; [|done].
    destruct (queued reacts rs.1 s2) as [? s3|? s3] eqn:Hq; [|done].
    intros [= <- <-] Hs'.
    assert (s3 = s2) as -> by (unfold queued in Hq; by case_match; simplify_eq).
    destruct (statements_unchanged _ _ Hkid _ _ _ Hw Hs') as [-> Hs1].
    by destruct (Henter _ _ _ _ _ He Hs1) as [-> ?].
  - destruct (statements _ _ s1) as [rs s2|? s2] eqn:Hw; [|done].
    destruct (queued reacts rs.1 s2) as [? s3|? s3] eqn:Hq; [|done].
    intros [= <- <-] Hs'.
    assert (s3 = s2) as -> by (unfold queued in Hq; by case_match; simplify_eq).
    destruct (statements_unchanged _ _ Hkid _ _ _ Hw Hs') as [-> Hs1].
    by destruct (Henter _ _ _ _ _ He Hs1) as [-> ?].
Qed.

End unchanged.

End WalkFacts.

(** ** The analyzer *)

Module AnalyzerFacts.
Import AstFacts WalkFacts Analyzer Shapes Sites.

Lemma classify_first_match v label :
  first_match v = Some label → classify v = Complex label.
Proof.
  unfold first_match, classify, complex_shapes. simpl.
  repeat (case_match; simplify_eq/=; try done).
  all: repeat match goal with
       | H : _ && _ = true |- _ => apply andb_true_iff in H as [??]
       | H : _ && _ = false |- _ => apply andb_false_iff in H as [?|?]
       | H : bool_decide _ = true |- _ => apply bool_decide_eq_true in H
       | H : bool_decide _ = false |- _ => apply bool_decide_eq_false in H
       | H : (_ <? _) = true |- _ => apply Nat.ltb_lt in H
       | H : (_ <? _) = false |- _ => apply Nat.ltb_ge in H
       end; try congruence; try lia.
Qed.

Lemma classify_plain v :
  plain_initializer v = true → classify v = Basic ∨ classify v = Unlisted.
Proof.
  destruct v as [k fs]. unfold plain_initializer, classify, is_basic, has_type.
  destruct k; simpl; try done; intros H;
    try apply bool_decide_eq_true in H;
    rewrite ?H; simpl; try (destruct (_ =? _)%string); auto;
    destruct (PrimFloat.eqb _ _); auto.
Qed.

Lemma classify_unlisted v :
  first_match v = None → classify v = Basic ∨ classify v = Unlisted.
Proof.
  unfold first_match, classify, complex_shapes. simpl.
  repeat (case_match; simplify_eq/=; try done); auto.
  all: repeat match goal with
       | H : _ && _ = true |- _ => apply andb_true_iff in H as [??]
       | H : _ && _ = false |- _ => apply andb_false_iff in H as [?|?]
       | H : bool_decide _ = true |- _ => apply bool_decide_eq_true in H
       | H : bool_decide _ = false |- _ => apply bool_decide_eq_false in H
       | H : (_ <? _) = true |- _ => apply Nat.ltb_lt in H
       | H : (_ <? _) = false |- _ => apply Nat.ltb_ge in H
       end; try congruence; try lia.
Qed.

(** What the visitor adds to the findings once the import is
    confirmed. *)
Lemma enter_reported snippet file anc n s :
  useStateImported s = true →
  ∃ act s',
    enter snippet file anc n s = Ok act s' ∧
    useStateImported s' = true ∧
    site <$> findings s' = (site <$> findings s) ++ reported n.
Proof.
  intros Himp. unfold enter. eexists _, _. split; [done|].
  assert (enterImportDeclaration n s = s) as ->.
  { unfold enterImportDeclaration. destruct s as [imp found].
    simpl in Himp. subst. by repeat case_match. }
  unfold enterCallExpression. rewrite Himp. simpl.
  destruct n as [k fs]. destruct k;
    try (simpl; split; [done|]; by rewrite (right_id_L [] (++))).
  destruct fs as [|[callee| | |] [|[| |args|] [|]]];
    try (simpl; split; [done|]; by rewrite (right_id_L [] (++))).
  2: { destruct args; simpl; (split; [done|]);
       by rewrite (right_id_L [] (++)). }
  unfold reported. destruct args as [|v rest].
  { split; [by case_match|]. case_match; by rewrite (right_id_L [] (++)). }
  destruct (bool_decide (name_of callee = Some "useState")); simpl;
    [|split; [done|]; by rewrite (right_id_L [] (++))].
  destruct (first_match v) as [label|] eqn:Hm.
  - rewrite (classify_first_match _ _ Hm). simpl. split; [done|].
    by rewrite fmap_app.
  - destruct (classify_unlisted _ Hm) as [-> | ->]; simpl;
      (split; [done|]); by rewrite (right_id_L [] (++)).
Qed.

(** The visitor before the import is confirmed, on a node that is not
    the import. *)
Lemma enter_unconfirmed snippet file anc n :
  Imports.imports_hook "useState" n = false →
  enter snippet file anc n (State false []) = Ok Continue (State false []).
Proof.
  intros Hn. destruct n as [k fs]. unfold enter. simpl.
  unfold enterCallExpression, enterImportDeclaration.
  unfold Imports.imports_hook in Hn. simpl in *.
  destruct k; simpl in *; try done. by rewrite Hn.
Qed.

Section collecting.
Context {S X : Type}.
Variable enter : list node → node → S → outcome exn S action.
Variable I : S → Prop.
Variable m : S → list X.
Variable c : node → list X.
Variable bad : node → bool.

Hypothesis enter_collects :
  ∀ anc n s, bad n = false → I s →
    ∃ act s', enter anc n s = Ok act s' ∧ I s' ∧ m s' = m s ++ c n.

Lemma each_collect {A B} (g : A → list X) (f : A → S → outcome exn S B) l :
  Forall (λ a, ∀ s, I s →
            ∃ b s', f a s = Ok b s' ∧ I s' ∧ m s' = m s ++ g a) l →
  ∀ s, I s →
    ∃ l' s', each f l s = Ok l' s' ∧ I s' ∧ m s' = m s ++ concat (g <$> l).
Proof.
  induction 1 as [|a l Ha _ IH]; intros s Hs; simpl.
  - eexists _, _. split; [done|]. split; [done|].
    by rewrite (right_id_L [] (++)).
  - unfold bind. destruct (Ha s Hs) as (b & s1 & -> & H1 & E1).
    destruct (IH s1 H1) as (bs & s2 & -> & H2 & E2).
    eexists _, _. split; [done|]. split; [done|].
    by rewrite E2, E1, (assoc_L (++)).
Qed.

Lemma maybe_collect {A B} (g : A → list X) (f : A → S → outcome exn S B) o :
  from_option (λ a, ∀ s, I s →
                 ∃ b s', f a s = Ok b s' ∧ I s' ∧ m s' = m s ++ g a) True o →
  ∀ s, I s →
    ∃ o' s', maybe f o s = Ok o' s' ∧ I s' ∧ m s' = m s ++ from_option g [] o.
Proof.
  destruct o as [a|]; simpl; intros H s Hs.
  - unfold bind. destruct (H s Hs) as (b & s1 & -> & H1 & E1).
    by eexists _, _.
  - eexists _, _. split; [done|]. split; [done|].
    by rewrite (right_id_L [] (++)).
Qed.

Lemma field_collect {A B} (g : A → list X) (f : A → S → outcome exn S B) sl :
  slot_all (λ a, ∀ s, I s →
              ∃ b s', f a s = Ok b s' ∧ I s' ∧ m s' = m s ++ g a) sl →
  ∀ s, I s →
    ∃ sl' s', field f sl s = Ok sl' s' ∧ I s' ∧ m s' = m s ++ slot_concat g sl.
Proof.
  destruct sl as [a|o|l|l]; simpl; intros H s Hs; unfold bind.
  - destruct (H s Hs) as (b & s1 & -> & H1 & E1). by eexists _, _.
  - destruct (maybe_collect g f o H s Hs) as (b & s1 & -> & H1 & E1).
    by eexists _, _.
  - destruct (each_collect g f l H s Hs) as (b & s1 & -> & H1 & E1).
    by eexists _, _.
  - destruct (each_collect (from_option g []) (maybe f) l) with (s := s)
      as (b & s1 & -> & H1 & E1); [|done|by eexists _, _].
    eapply Forall_impl; [exact H|]. intros o Ho. by apply maybe_collect.
Qed.

(** The walk returns, and what the visitor collects on the nodes it
    collects over the tree, in the order of the walk. *)
Lemma traverse_collect n :
  ∀ anc s, any_node bad n = false → I s →
    ∃ n' s', traverse enter anc n s = Ok n' s' ∧ I s' ∧
             m s' = m s ++ collect_nodes c n.
Proof.
  induction n as [k fs IH] using node_ind'.
  intros anc s [Hn Hfs]%any_node_false Hs. simpl. unfold bind.
  destruct (enter_collects anc (Node k fs) s Hn Hs) as (act & s1 & -> & H1 & E1).
  destruct (each_collect (slot_concat (collect_nodes c))
              (field (traverse enter (Node k fs :: anc))) fs) with (s := s1)
    as (fs' & s2 & -> & H2 & E2); [|done|].
  - rewrite Forall_forall in IH, Hfs |- *. intros sl Hsl.
    specialize (IH sl Hsl). specialize (Hfs sl Hsl).
    apply field_collect. destruct sl as [a|[a|]|l|l]; simpl in *; auto.
    + rewrite Forall_forall in IH, Hfs |- *. auto.
    + rewrite Forall_forall in IH, Hfs |- *. intros [a|] Ha; simpl; [|done].
      specialize (IH _ Ha). specialize (Hfs _ Ha). simpl in *. auto.
  - eexists _, _. split; [done|]. split; [done|].
    by rewrite E2, E1, (assoc_L (++)).
Qed.

End collecting.

Lemma traverse_step {S}
    (enter : list node → node → S → outcome exn S action) anc n s :
  traverse enter anc n s
  = (act ⇐ enter anc n;;
     fs ⇐ each (field (traverse enter (n :: anc))) (fields_of n);;
     Ok (apply_action act (Node (type_of n) fs))) s.
Proof. by destruct n. Qed.

(** The walk over a node that holds an array of statements and on which
    the visitor does nothing. *)
Lemma traverse_body {S}
    (enter : list node → node → S → outcome exn S action) anc k body s :
  enter anc (Node k [Many body]) s = Ok Continue s →
  traverse enter anc (Node k [Many body]) s
  = match each (traverse enter (Node k [Many body] :: anc)) body s with
    | Ok body' s' => Ok (Node k [Many body']) s'
    | Stop e s' => Stop e s'
    end.
Proof.
  intros He. rewrite traverse_step. unfold bind. rewrite He. simpl.
  unfold bind. by destruct (each _ body s).
Qed.

Lemma each_cons {E S A B} (f : A → S → outcome E S B) a l s :
  each f (a :: l) s = (b ⇐ f a;; bs ⇐ each f l;; Ok (b :: bs)) s.
Proof. reflexivity. Qed.

Lemma each_app {E S A B} (f : A → S → outcome E S B) l1 l2 s :
  each f (l1 ++ l2) s
  = (b1 ⇐ each f l1;; b2 ⇐ each f l2;; Ok (b1 ++ b2)) s.
Proof.
  revert s. induction l1 as [|a l1 IH]; intros s; simpl.
  - unfold bind. by destruct (each f l2 s).
  - unfold bind in *. destruct (f a s) as [b s1|e s1]; [|done].
    rewrite IH. destruct (each f l1 s1) as [b1 s2|e s2]; [|done].
    by destruct (each f l2 s2).
Qed.

(** C1, as the script behaves. The findings of a file are, in the order
    of the walk, one for each call of [useState] that comes after the
    import of [useState] from 'react' and whose first argument has one of
    the complex shapes (function literal, ternary, logical expression,
    call, object literal with a property, array literal with an element,
    binary expression); each finding is at the line of its call and
    carries the label of the first shape that matches in the precedence
    order.  The statements in front of the import contribute nothing. *)
Theorem complex_initializer_one_finding
    (snippet : node → string) (file : string) (pre : list node) (imp : node)
    (rest : list node) :
  Forall (λ n, any_node (Imports.imports_hook "useState") n = false) pre →
  Imports.imports_hook "useState" imp = true →
  site <$> analyzeAst snippet file (Program (pre ++ imp :: rest))
  = concat (collect_nodes reported <$> imp :: rest).
Proof.
  intros Hpre Himp. unfold analyzeAst.
  set (P := Program (pre ++ imp :: rest)).
  (* the statements in front of the import *)
  destruct (each_collect (λ s, s = State false []) findings (λ _, [])
              (traverse (enter snippet file) [P]) pre) with
    (s := State false []) as (pre' & s1 & Hp & -> & _); [|done|].
  { eapply Forall_impl; [exact Hpre|]. intros n Hn s ->.
    destruct (traverse_collect (enter snippet file)
                (λ s, s = State false []) findings (λ _, [])
                (Imports.imports_hook "useState")) with
      (n := n) (anc := [P]) (s := State false [])
      as (n' & s' & Ht & -> & _); [|done..|by eexists _, _].
    intros anc n0 s Hn0 ->. eexists _, _.
    split; [by apply enter_unconfirmed|]. by split. }
  (* the import and what follows it *)
  assert (∀ anc n s, useStateImported s = true →
            ∃ n' s', traverse (enter snippet file) anc n s = Ok n' s' ∧
                     useStateImported s' = true ∧
                     site <$> findings s'
                     = (site <$> findings s) ++ collect_nodes reported n)
    as Hafter.
  { intros anc n s Hs.
    apply (traverse_collect (enter snippet file)
             (λ s, useStateImported s = true) (λ s, site <$> findings s)
             reported (λ _, false)); [|apply any_node_never|done].
    intros anc0 n0 s0 _. apply enter_reported. }
  destruct imp as [k fs]. unfold Imports.imports_hook in Himp.
  destruct k; try done. simpl in Himp.
  set (imp := Node (KImportDeclaration source) fs) in *.
  assert (enter snippet file [P] imp (State false [])
          = Ok Continue (State true [])) as Hq.
  { unfold enter, enterImportDeclaration, enterCallExpression. simpl.
    by rewrite Himp. }
  destruct (each_collect (λ s, useStateImported s = true)
              (λ s, site <$> findings s)
              (slot_concat (collect_nodes reported))
              (field (traverse (enter snippet file) (imp :: [P]))) fs) with
    (s := State true []) as (fs' & s2 & Hfs & H2 & E2); [|done|].
  { apply Forall_forall. intros sl _. apply field_collect.
    destruct sl as [a|[a|]|l|l]; simpl; auto.
    - apply Forall_forall. auto.
    - apply Forall_forall. intros [a|] _; simpl; auto. }
  destruct (each_collect (λ s, useStateImported s = true)
              (λ s, site <$> findings s) (collect_nodes reported)
              (traverse (enter snippet file) [P]) rest) with
    (s := s2) as (rest' & s3 & Hr & H3 & E3); [|done|].
  { apply Forall_forall. auto. }
  assert (traverse (enter snippet file) [P] imp (State false [])
          = Ok (Node (KImportDeclaration source) fs') s2) as Hi.
  { rewrite traverse_step. unfold bind. rewrite Hq.
    change (fields_of imp) with fs. by rewrite Hfs. }
  unfold P. rewrite (traverse_body (enter snippet file) [] KProgram) by done.
  fold P. rewrite each_app. unfold bind. rewrite Hp.
  rewrite each_cons. unfold bind. rewrite Hi, Hr.
  rewrite E3, E2. simpl. done.
Qed.

Lemma complex_initializer_one_finding_witness :
  site <$> analyzeAst (λ _, "() => 2") "B.jsx" late_import
  = [(Some 3, "Function initialization")].
Proof.
  apply (complex_initializer_one_finding (λ _, "() => 2") "B.jsx"
           [component "A" "a" "setA" 1%float 1] react_import
           [component "B" "b" "setB" 2%float 3]).
  - apply Forall_cons_2; [reflexivity|apply Forall_nil_2].
  - reflexivity.
Defined.

(** C1, as stated: the call in the component in front of the import has a
    function for an initializer, and the analyzer has no finding for
    it. *)
Lemma call_before_import_not_reported :
  collect_nodes reported late_import
  = [(Some 1, "Function initialization"); (Some 3, "Function initialization")] ∧
  site <$> analyzeAst (λ _, "") "B.jsx" late_import
  = [(Some 3, "Function initialization")].
Proof. split; vm_compute; reflexivity. Qed.

(** C3. A [useState] call whose initializer is a boolean literal, the
    empty string, the number zero, [null], the identifier [undefined], an
    empty object literal or an empty array literal yields no finding: the
    visitor leaves the state as it is. *)
Theorem plain_initializer_no_finding
    (snippet : node → string) (file : string) (anc : list node)
    (initialValue : node) (rest : list node) (line : option nat)
    (s : state) :
  plain_initializer initialValue = true →
  enter snippet file anc
    (CallExpression (Identifier "useState") (initialValue :: rest) line) s
  = Ok Continue s.
Proof.
  intros H. unfold enter, enterCallExpression, enterImportDeclaration. simpl.
  destruct (useStateImported s); simpl; [|done].
  by destruct (classify_plain _ H) as [-> | ->].
Qed.

Lemma plain_initializer_no_finding_witness :
  plain_initializer (ObjectExpression []) = true ∧
  enter (λ _, "{}") "App.jsx" []
    (CallExpression (Identifier "useState") [ObjectExpression []] (Some 5))
    (State true [])
  = Ok Continue (State true []).
Proof.
  split; [reflexivity|].
  exact (plain_initializer_no_finding (λ _, "{}") "App.jsx" []
           (ObjectExpression []) [] (Some 5) (State true []) eq_refl).
Defined.

End AnalyzerFacts.

(** ** Hooks that are not imported *)

Module ImportFacts.
Import AstFacts WalkFacts Imports.

(** The analyzer, on a file that does not import [useState] from 'react'. *)
Lemma analyzer_ignores_unimported snippet file ast :
  any_node (imports_hook "useState") ast = false →
  Analyzer.analyzeAst snippet file ast = [].
Proof.
  intros Hast. unfold Analyzer.analyzeAst.
  assert (final (traverse (Analyzer.enter snippet file) [] ast
                   (Analyzer.State false []))
          = Analyzer.State false []) as H.
  { apply (traverse_final _ (λ s, s = Analyzer.State false [])
             (imports_hook "useState")); [|done..].
    intros anc [k fs] s Hbad ->. unfold Analyzer.enter. simpl.
    unfold Analyzer.enterCallExpression, Analyzer.enterImportDeclaration.
    unfold imports_hook in Hbad. simpl in *. destruct k; simpl in *; try done.
    by rewrite Hbad. }
  by destruct (traverse _ _ _ _); simpl in H; rewrite H.
Qed.

(** The setter logger, on such a file: the walk hands the tree back. *)
Lemma setter_logger_ignores_unimported ast :
  any_node (imports_hook "useState") ast = false →
  SetterLogger.processAst ast = Ok ast SetterLogger.initial.
Proof.
  intros Hast. unfold SetterLogger.processAst, settled, bind.
  rewrite (walk_fixed SetterLogger.enter SetterLogger.reacts
             SetterLogger.initial (imports_hook "useState")); [done| |done].
  intros anc [k fs] Hbad. unfold SetterLogger.enter.
  assert (SetterLogger.enterImportDeclaration (Node k fs) SetterLogger.initial
          = SetterLogger.initial) as ->.
  { unfold SetterLogger.enterImportDeclaration, imports_hook in *.
    destruct k; try done. simpl in *.
    destruct (String.eqb source "react"); [|done]. simpl in *.
    match goal with |- context [existsb ?p ?l] =>
      replace (existsb p l) with false; [done|] end. symmetry.
    apply existsb_false_Forall. apply existsb_false_Forall in Hbad.
    eapply Forall_impl; [exact Hbad|]. simpl. intros spec ->.
    apply andb_false_r. }
  unfold SetterLogger.enterVariableDeclarator. simpl.
  unfold SetterLogger.enterCallExpression.
  replace (SetterLogger.tracked SetterLogger.initial (Node k fs))
    with (@None (option string)); [done|].
  unfold SetterLogger.tracked.
  repeat (case_match; try done). simpl.
  by destruct (name_of _).
Qed.

(** C2, the effect logger: a file that imports nothing and defines its own
    [useEffect] is instrumented all the same. *)
Lemma local_useEffect_is_logged :
  any_node (imports_hook "useEffect") local_useEffect = false ∧
  CodeTransformer.transformAst "App.js" local_useEffect 0
  = Ok local_useEffect_logged
      (CodeTransformer.State 1 true 1
         [VariableDeclaration "let"
            [VariableDeclarator (Identifier "effectCallCount_0")
               (Some (NumericLiteral 0%float))]]).
Proof. split; vm_compute; reflexivity. Qed.

(** C2, for [useState]. In a file that does not import [useState] from
    'react', calls to an identifier of that name yield no finding in the
    analyzer, and the setter logger changes nothing: no setter is tracked,
    the tree comes back as it was and [modified] stays false. *)
Theorem unimported_useState_ignored
    (snippet : node → string) (file : string) (ast : node) :
  any_node (imports_hook "useState") ast = false →
  Analyzer.analyzeAst snippet file ast = [] ∧
  SetterLogger.processAst ast = Ok ast SetterLogger.initial.
Proof.
  intros Hast. split.
  - by apply analyzer_ignores_unimported.
  - by apply setter_logger_ignores_unimported.
Qed.

Lemma unimported_useState_ignored_witness :
  any_node (imports_hook "useState") local_useState = false ∧
  Analyzer.analyzeAst (λ _, "() => 1") "C.jsx" local_useState = [] ∧
  SetterLogger.processAst local_useState
  = Ok local_useState SetterLogger.initial.
Proof.
  split; [reflexivity|].
  exact (unimported_useState_ignored (λ _, "() => 1") "C.jsx" local_useState
           eq_refl).
Defined.

End ImportFacts.

(** ** The setter logger *)

Module SetterLoggerFacts.
Import AstFacts WalkFacts Setters SetterLogger.


(** On an identifier or literal no visitor acts. *)
Lemma walk_atom anc a s :
  atom a = true → walk enter reacts anc a s = Ok ([], a) s.
Proof.
  destruct a as [[] [|]]; try done; intros _; cbn; unfold bind;
    unfold enter, enterImportDeclaration, enterVariableDeclarator; cbn;
    by destruct (useStateImported s).
Qed.

Lemma reacts_atom a s : atom a = true → any_node (reacts s) a = false.
Proof. by destruct a as [[] [|]]. Qed.

(** The visitors act on import declarations, variable declarators and
    calls only. *)
Lemma enter_other anc k fs s :
  match k with
  | KImportDeclaration _ | KVariableDeclarator | KCallExpression _ => False
  | _ => True
  end →
  enter anc (Node k fs) s = Ok Pass s.
Proof.
  destruct k; try done; intros _;
    unfold enter, enterCallExpression, enterImportDeclaration,
      enterVariableDeclarator, tracked; cbn;
    by destruct (useStateImported s).
Qed.

Lemma enter_untracked anc callee args line s :
  isIdentifier callee = false →
  enter anc (CallExpression callee args line) s = Ok Pass s.
Proof.
  intros H. unfold enter, enterCallExpression, enterImportDeclaration,
      enterVariableDeclarator, tracked; cbn. rewrite H.
  by destruct (useStateImported s).
Qed.

Lemma enter_tracked anc name stateName arg rest line s :
  stateSetters s !! name = Some stateName →
  enter anc (CallExpression (Identifier name) (arg :: rest) line) s
  = Ok (InsertBefore (λ n',
          match n' with
          | CallExpression _ (arg' :: _) _ =>
              [logStatement
                 (findComponentName
                    (CallExpression (Identifier name) (arg :: rest) line
                     :: anc))
                 stateName arg']
          | _ => []
          end))
       (State true (useStateImported s) (stateSetters s)).
Proof.
  intros H. unfold enter, enterCallExpression, enterImportDeclaration,
      enterVariableDeclarator, tracked.
  destruct s as [m [] setters]; cbn -[lookup] in *; by rewrite H.
Qed.

Lemma enter_quiet anc n s : may_act n = false → enter anc n s = Ok Pass s.
Proof.
  destruct n as [k fs]. destruct k; try done; intros H;
    try by apply enter_other.
  unfold enter, enterCallExpression, enterImportDeclaration,
    enterVariableDeclarator, tracked, may_act, has_type in *. cbn in *.
  destruct fs as [|[callee| | |] [|[| |args|] [|]]];
    destruct s as [m [] setters]; cbn in *; try done; by rewrite H.
Qed.

Lemma walk_quiet anc n s :
  any_node may_act n = false → walk enter reacts anc n s = Ok ([], n) s.
Proof. apply walk_fixed. intros. by apply enter_quiet. Qed.

Lemma reacts_quiet n s :
  any_node may_act n = false → any_node (reacts s) n = false.
Proof.
  induction n as [k fs IH] using node_ind'.
  intros [Hn Hfs]%any_node_false. apply any_node_false. split.
  - unfold reacts, tracked, may_act, has_type in *.
    destruct k; try done; cbn in *.
    + destruct fs as [|[callee| | |] [|[| |args|] [|]]]; cbn in *; try done.
      by rewrite Hn.
    + apply orb_false_iff in Hn as [[-> _]%orb_false_iff _]. done.
  - rewrite Forall_forall in IH, Hfs |- *. intros sl Hsl.
    specialize (IH sl Hsl). specialize (Hfs sl Hsl).
    destruct sl as [a|[a|]|l|l]; simpl in *; auto.
    + rewrite Forall_forall in IH, Hfs |- *. auto.
    + rewrite Forall_forall in IH, Hfs |- *. intros [a|] Ha; simpl; [|done].
      specialize (IH _ Ha). specialize (Hfs _ Ha). simpl in *. auto.
Qed.

Lemma log_quiet componentName stateName arg :
  atom arg = true →
  any_node may_act (logStatement componentName stateName arg) = false.
Proof. by destruct arg as [[] [|]]. Qed.

(** A statement that calls a tracked setter on an identifier or literal:
    the walk asks for one log statement in front of it. *)
Lemma walk_setter_statement anc name stateName arg line s :
  stateSetters s !! name = Some stateName →
  atom arg = true →
  walk enter reacts anc
    (ExpressionStatement (CallExpression (Identifier name) [arg] line)) s
  = Ok ([logStatement (findComponentName anc) stateName arg],
        ExpressionStatement (CallExpression (Identifier name) [arg] line))
      (State true (useStateImported s) (stateSetters s)).
Proof.
  intros Hname Harg.
  set (call := CallExpression (Identifier name) [arg] line).
  set (s' := State true (useStateImported s) (stateSetters s)).
  assert (any_node may_act arg = false) as Hquiet
    by by destruct arg as [[] [|]].
  assert (walk enter reacts (ExpressionStatement call :: anc) call s
          = Ok ([logStatement (findComponentName anc) stateName arg], call) s')
    as Hcall.
  { change (walk enter reacts (ExpressionStatement call :: anc) call s)
      with (bind (enter (ExpressionStatement call :: anc) call)
              (λ req,
                 fs ⇐ each (field (settled (walk enter reacts
                               (call :: ExpressionStatement call :: anc))))
                        [One (Identifier name); Many [arg]];;
                 Ok (requested req (Node (type_of call) fs),
                     Node (type_of call) fs)) s).
    unfold bind at 1. unfold call at 2. rewrite (enter_tracked _ _ _ _ _ _ _ Hname).
    unfold bind. rewrite fields_settled; [done|].
    apply Forall_cons; split; [by apply walk_quiet|].
    apply Forall_cons; split; [|by apply Forall_nil].
    apply Forall_cons; split; [by apply walk_quiet|by apply Forall_nil]. }
  change (walk enter reacts anc (ExpressionStatement call) s)
    with (bind (enter anc (ExpressionStatement call))
            (λ req,
               r ⇐ walk enter reacts (ExpressionStatement call :: anc) call;;
               Ok (r.1 ++ requested req (ExpressionStatement r.2),
                   ExpressionStatement r.2)) s).
  unfold bind at 1. rewrite enter_other by done. unfold bind.
  by rewrite Hcall.
Qed.

Lemma walk_block anc body s :
  walk enter reacts anc (BlockStatement body) s
  = (req ⇐ enter anc (BlockStatement body);;
     rs ⇐ statements (walk enter reacts (BlockStatement body :: anc)) body;;
     _ ⇐ queued reacts rs.1;;
     Ok (requested req (BlockStatement rs.2), BlockStatement rs.2)) s.
Proof. reflexivity. Qed.

Lemma statements_cons
    (w : node → state → outcome halt state (list node * node)) a l s :
  statements w (a :: l) s
  = (r ⇐ w a;; rs ⇐ statements w l;; Ok (r.1 ++ rs.1, r.1 ++ r.2 :: rs.2)) s.
Proof. reflexivity. Qed.

(** Statements in front on which the walk does nothing. *)
Lemma statements_prefix
    (w : node → state → outcome halt state (list node * node)) s pre l :
  Forall (λ c, w c s = Ok ([], c) s) pre →
  statements w (pre ++ l) s
  = match statements w l s with
    | Ok rs s' => Ok (rs.1, pre ++ rs.2) s'
    | Stop e s' => Stop e s'
    end.
Proof.
  induction 1 as [|a pre Ha _ IH].
  - simpl. by destruct (statements w l s) as [[??]?|].
  - rewrite <-app_comm_cons, statements_cons. unfold bind.
    rewrite Ha, IH. by destruct (statements w l s) as [[??]?|].
Qed.

(** A block that holds a statement calling a tracked setter on an
    identifier or literal, among statements on which no visitor acts: the
    walk puts one log statement in front of the call. *)
Lemma walk_setter_block anc name stateName arg line s pre post :
  stateSetters s !! name = Some stateName →
  atom arg = true →
  Forall (λ n, any_node may_act n = false) pre →
  Forall (λ n, any_node may_act n = false) post →
  walk enter reacts anc
    (BlockStatement
       (pre ++ ExpressionStatement
                 (CallExpression (Identifier name) [arg] line) :: post)) s
  = Ok ([], BlockStatement
              (pre ++ logStatement (findComponentName anc) stateName arg
                   :: ExpressionStatement
                        (CallExpression (Identifier name) [arg] line)
                   :: post))
      (State true (useStateImported s) (stateSetters s)).
Proof.
  intros Hname Harg Hpre Hpost.
  set (call := ExpressionStatement (CallExpression (Identifier name) [arg] line)).
  set (log := logStatement (findComponentName anc) stateName arg).
  set (s' := State true (useStateImported s) (stateSetters s)).
  set (body := pre ++ call :: post).
  assert (any_node may_act log = false) as Hquiet by by apply log_quiet.
  assert (walk enter reacts (BlockStatement body :: anc) call s
          = Ok ([log], call) s') as Hcall.
  { unfold call. by rewrite (walk_setter_statement _ _ stateName). }
  assert (queued reacts [log] s' = Ok () s') as Hqueue.
  { unfold queued. cbn [forallb]. by rewrite (reacts_quiet _ _ Hquiet). }
  rewrite walk_block. unfold bind at 1. rewrite enter_other by done.
  unfold bind at 1. unfold body at 2. rewrite statements_prefix.
  2: { eapply Forall_impl; [exact Hpre|]. intros c Hc. by apply walk_quiet. }
  rewrite statements_cons. unfold bind at 1. rewrite Hcall. unfold bind at 1.
  rewrite (statements_fixed _ s' post).
  2: { eapply Forall_impl; [exact Hpost|]. intros c Hc. by apply walk_quiet. }
  cbn -[queued]. unfold bind. by rewrite Hqueue.
Qed.



End SetterLoggerFacts.

(** ** The effect logger *)

Module CodeTransformerFacts.
Import AstFacts WalkFacts Effects CodeTransformer.

Lemma counterName_inj : Inj (=) (=) counterName.
Proof.
  intros i j H. unfold counterName in H.
  apply (inj pretty). by simplify_eq/=.
Qed.

(** The visitor raises the module-level counter by one exactly when it
    hoists the declaration that carries the counter's value. *)
Lemma enter_hoists file c anc n s :
  (∃ N, effectCounter s = c + N ∧
        hoisted s = counter_declaration <$> rev (seq c N)) →
  ∃ N, effectCounter (final (enter file anc n s)) = c + N ∧
       hoisted (final (enter file anc n s))
       = counter_declaration <$> rev (seq c N).
Proof.
  intros (N & Hc & Hh). unfold enter.
  destruct (is_useEffect_call n); simpl; [|by exists N].
  destruct n as [k fs]. destruct k; simpl; try by exists N.
  destruct fs as [|[callee| | |] [|[| |args|] [|]]]; simpl; try by exists N.
  destruct args as [|callback rest]; simpl; [by exists N|].
  destruct (is_function_literal callback); simpl; [|by exists N].
  destruct (existsb _ anc); simpl; [|by exists N].
  exists (S N). split; [lia|]. rewrite seq_S, rev_app_distr. simpl.
  rewrite Hh. f_equal. unfold counter_declaration. by rewrite Hc.
Qed.

(** The traversal of a program hands back a program with as many
    statements. *)
Lemma traverse_program file body s0 out s :
  traverse (enter file) [] (Program body) s0 = Ok out s →
  ∃ body', out = Program body' ∧ length body' = length body.
Proof.
  simpl. unfold bind. simpl. unfold bind.
  destruct (each _ body s0) as [l s1|e s1] eqn:Hl; [|done].
  intros [= <- _]. exists l. split; [done|]. by eapply each_length.
Qed.




(** The visitor counts every call of the identifier [useEffect] ... *)
Lemma enter_found file anc n s act s' :
  enter file anc n s = Ok act s' →
  effectsFound s' = effectsFound s + (if is_useEffect_call n then 1 else 0).
Proof.
  unfold enter. destruct (is_useEffect_call n) eqn:Hn; simpl;
    [|intros [= _ <-]; lia].
  destruct n as [k fs]. destruct k; simpl; try done.
  destruct fs as [|[callee| | |] [|[| |args|] [|]]]; simpl; try done.
  destruct args as [|callback rest]; simpl; [done|].
  destruct (is_function_literal callback); simpl; [|intros [= _ <-]; simpl; lia].
  destruct (existsb _ anc); simpl; [|done]. intros [= _ <-]. simpl. lia.
Qed.

(** ... and raises the module-level counter on the calls it instruments. *)
Lemma enter_counted file anc n s act s' :
  enter file anc n s = Ok act s' →
  effectCounter s' = effectCounter s + (if instrumentable n then 1 else 0).
Proof.
  unfold enter, instrumentable. destruct (is_useEffect_call n) eqn:Hn; simpl;
    [|intros [= _ <-]; lia].
  destruct n as [k fs]. destruct k; simpl; try done.
  destruct fs as [|[callee| | |] [|[| |args|] [|]]]; simpl; try done.
  destruct args as [|callback rest]; simpl; [done|].
  destruct (is_function_literal callback); simpl; [|intros [= _ <-]; simpl; lia].
  destruct (existsb _ anc); simpl; [|done]. intros [= _ <-]. simpl. lia.
Qed.

(** [fileModified] is set exactly when the counter has moved. *)
Lemma enter_flag file c anc n s :
  c ≤ effectCounter s ∧ (fileModified s = true ↔ c < effectCounter s) →
  c ≤ effectCounter (final (enter file anc n s)) ∧
  (fileModified (final (enter file anc n s)) = true
   ↔ c < effectCounter (final (enter file anc n s))).
Proof.
  intros H. unfold enter.
  destruct (is_useEffect_call n); simpl; [|done].
  destruct n as [k fs]. destruct k; simpl; try done.
  destruct fs as [|[callee| | |] [|[| |args|] [|]]]; simpl; try done.
  destruct args as [|callback rest]; simpl; [done|].
  destruct (is_function_literal callback); simpl; [|done].
  destruct (existsb _ anc); simpl; [|done].
  split; [lia|]. split; [lia|done].
Qed.

Lemma transformAst_flag file ast c :
  let s := final (transformAst file ast c) in
  c ≤ effectCounter s ∧ (fileModified s = true ↔ c < effectCounter s).
Proof.
  intros s.
  assert (s = final (traverse (enter file) [] ast (State c false 0 [])))
    as -> by (unfold s, transformAst; by destruct (traverse _ _ _ _)).
  apply (traverse_final (enter file)
           (λ s, c ≤ effectCounter s
                 ∧ (fileModified s = true ↔ c < effectCounter s))
           (λ _, false)).
  - intros. by apply enter_flag.
  - apply any_node_never.
  - simpl. split; [lia|]. split; [done|lia].
Qed.

(** Where no call is a site, the counter of the module stays put. *)
Lemma enter_untouched file c anc n s :
  instrumentable n = false →
  effectCounter s = c → effectCounter (final (enter file anc n s)) = c.
Proof.
  unfold enter, instrumentable.
  destruct (is_useEffect_call n); simpl; [|done].
  destruct n as [k fs]. destruct k; simpl; try done.
  destruct fs as [|[callee| | |] [|[| |args|] [|]]]; simpl; try done.
  destruct args as [|callback rest]; simpl; [done|].
  by intros ->.
Qed.

Lemma transformAst_untouched file ast c :
  any_node instrumentable ast = false →
  effectCounter (final (transformAst file ast c)) = c.
Proof.
  intros Hast.
  assert (final (transformAst file ast c)
          = final (traverse (enter file) [] ast (State c false 0 [])))
    as -> by (unfold transformAst; by destruct (traverse _ _ _ _)).
  apply (traverse_final (enter file) (λ s, effectCounter s = c)
           instrumentable); [|done..].
  intros. by apply enter_untouched.
Qed.

End CodeTransformerFacts.

(** ** The file level of the effect logger *)

Module FileProcessorFacts.
Import AstFacts WalkFacts Effects CodeTransformer CodeTransformerFacts.
Import FileProcessor Runs.

(** The counts a traversal that returns leaves behind. *)
Lemma transformAst_counts file ast c out s :
  transformAst file ast c = Ok out s →
  effectsFound s = count_nodes is_useEffect_call ast ∧
  CodeTransformer.effectCounter s = c + count_nodes instrumentable ast.
Proof.
  unfold transformAst.
  destruct (traverse _ _ _ _) as [ast' s'|e s'] eqn:Ht; [|done].
  intros [= _ <-]. split.
  - by rewrite (traverse_count _ effectsFound is_useEffect_call
                  (enter_found file) _ _ _ _ _ Ht).
  - by rewrite (traverse_count _ CodeTransformer.effectCounter instrumentable
                  (enter_counted file) _ _ _ _ _ Ht).
Qed.

Lemma useEffect_calls_split ast :
  count_nodes is_useEffect_call ast
  = count_nodes instrumentable ast + count_nodes left_alone ast.
Proof.
  apply count_nodes_split. intros n. unfold left_alone, instrumentable.
  destruct (is_useEffect_call n); simpl; [|done]. by case_match.
Qed.

Section processFile.
Variable parse : string → option node.
Variable generate : string → node → string.

(** What [transformCode] hands to [processFile]. *)
Lemma transformCode_result file code c :
  match transformCode file parse generate code c with
  | Ok (Some text, n) c' =>
      ∃ ast out s,
        parse code = Some ast ∧ transformAst file ast c = Ok out s ∧
        fileModified s = true ∧ text = generate code out ∧
        n = effectsFound s ∧ c' = CodeTransformer.effectCounter s ∧ c < c'
  | Ok (None, _) c' => c' = c
  | Stop _ c' => c ≤ c'
  end.
Proof.
  unfold transformCode. destruct (parse code) as [ast|] eqn:Hp; [|done].
  pose proof (transformAst_flag file ast c) as [Hle Hflag]. simpl in *.
  destruct (transformAst file ast c) as [out s|e s] eqn:Ht; simpl in *;
    [|done].
  destruct (fileModified s) eqn:Hm.
  - exists ast, out, s. repeat split; try done. by apply Hflag.
  - destruct (decide (c < CodeTransformer.effectCounter s)) as [Hlt|];
      [|lia]. by apply Hflag in Hlt.
Qed.

(** [processFile] writes to the file it was given only, never lowers a
    counter, and writes only when the counter of the module has moved. *)
Lemma processFile_frame path w :
  let w' := processFile parse generate path w in
  (∀ other, other ≠ path → files w' !! other = files w !! other) ∧
  effectCounter w ≤ effectCounter w' ∧
  (effectCounter w' = effectCounter w → files w' = files w).
Proof.
  unfold processFile. simpl.
  destruct (files w !! path) as [code|] eqn:Hf; simpl; [|done].
  destruct (includes "useEffect" code); simpl; [|done].
  pose proof (transformCode_result path code (effectCounter w)) as H.
  destruct (transformCode _ _ _ _ _) as [[[text|] n] c'|e c']; simpl.
  - destruct H as (ast & out & s & _ & _ & _ & _ & _ & _ & Hlt).
    destruct (String.eqb text ""); simpl.
    + split; [done|split; lia].
    + split; [|split; lia]. intros other Hne.
      by rewrite lookup_insert_ne.
  - subst. split; [done|split; [lia|done]].
  - split; [done|split; [lia|done]].
Qed.


(** The visitor of the setter logger asks for an insertion exactly when
    it sets [modified]. *)
Lemma setter_enter_unmodified anc n s req s' :
  SetterLogger.enter anc n s = Ok req s' →
  SetterLogger.modified s' = false →
  req = Pass ∧ SetterLogger.modified s = false.
Proof.
  unfold SetterLogger.enter, SetterLogger.enterCallExpression.
  set (s1 := SetterLogger.enterVariableDeclarator n
               (SetterLogger.enterImportDeclaration n s)).
  assert (SetterLogger.modified s1 = SetterLogger.modified s) as Hs1.
  { unfold s1, SetterLogger.enterVariableDeclarator,
      SetterLogger.enterImportDeclaration.
    repeat (case_match; simpl; try done). }
  destruct (SetterLogger.tracked s1 n).
  - repeat (case_match; try done). by intros [= <- <-].
  - intros [= <- <-]. by rewrite <-Hs1.
Qed.

(** A run of the setter logger that leaves [modified] false leaves the
    tree as it was. *)
Lemma setter_unmodified_unchanged ast ast' s :
  SetterLogger.processAst ast = Ok ast' s →
  SetterLogger.modified s = false → ast' = ast.
Proof.
  unfold SetterLogger.processAst, settled, bind.
  destruct (walk _ _ _ _ _) as [r s1|e s1] eqn:Hw; [|done].
  destruct r as [[|] n]; simpl; [|done]. intros [= <- <-] Hs.
  by destruct (walk_unchanged (λ s, SetterLogger.modified s = false)
                 _ _ setter_enter_unmodified _ _ _ _ _ Hw Hs) as [[= ->] _].
Qed.

(** A file without a site is left as it is, and so is the counter. *)
Lemma processFile_untouched path w code ast :
  files w !! path = Some code →
  parse code = Some ast →
  any_node instrumentable ast = false →
  files (processFile parse generate path w) = files w ∧
  effectCounter (processFile parse generate path w) = effectCounter w.
Proof.
  intros Hf Hp Hast.
  pose proof (processFile_frame path w) as (_ & _ & Hsame).
  assert (effectCounter (processFile parse generate path w) = effectCounter w)
    as Hc; [|by split; [apply Hsame|]].
  pose proof (transformAst_untouched path ast (effectCounter w) Hast) as Hu.
  unfold processFile. simpl. rewrite Hf.
  destruct (includes "useEffect" code); simpl; [|done].
  unfold transformCode. rewrite Hp.
  destruct (transformAst path ast (effectCounter w)) as [out s|e s];
    simpl in *; [|done].
  destruct (fileModified s); simpl; [|done].
  by destruct (String.eqb _ "").
Qed.


End processFile.



End FileProcessorFacts.

(** ** Runs over several files *)

Module BatchFacts.
Import FileProcessor Runs FileProcessorFacts.

Section batch.
Variable parse : string → option node.
Variable generate : string → node → string.
Variable snippet : string → node → string.

(** A file that does not parse adds nothing to the findings. *)
Lemma analyzeFile_malformed file content :
  parse content = None →
  Analyzer.analyzeFile parse snippet file content
  = if includes "useState" content
    then (Some [], ["Error processing " +:+ file +:+ ":"])
    else (None, []).
Proof.
  intros Hp. unfold Analyzer.analyzeFile. rewrite Hp.
  by destruct (includes "useState" content).
Qed.

Lemma analyzer_skips_malformed before file content after :
  parse content = None →
  (Analyzer.processDirectory parse snippet
     (before ++ (file, content) :: after)).1
  = (Analyzer.processDirectory parse snippet (before ++ after)).1.
Proof.
  intros Hp. induction before as [|[f c] before IH]; simpl.
  - rewrite analyzeFile_malformed by done.
    destruct (includes "useState" content);
      by destruct (Analyzer.processDirectory _ _ after).
  - destruct (Analyzer.analyzeFile parse snippet f c) as [found errs].
    destruct (Analyzer.processDirectory _ _ (before ++ _ :: after)),
      (Analyzer.processDirectory _ _ (before ++ after)).
    simpl in *. by subst.
Qed.

(** [processFile] reads the files and the two counters only. *)
Lemma processFile_same path w1 w2 :
  same_but_console w1 w2 →
  same_but_console (processFile parse generate path w1)
    (processFile parse generate path w2).
Proof.
  intros (Hf & Hc & Hg). destruct w1 as [f1 o1 c1 g1], w2 as [f2 o2 c2 g2].
  simpl in *. subst. unfold processFile. simpl.
  destruct (f2 !! path) as [code|]; simpl; [|done].
  destruct (includes "useEffect" code); simpl; [|done].
  destruct (CodeTransformer.transformCode _ _ _ _ _)
    as [[[text|] n] c'|e c']; simpl; [|done..].
  by destruct (String.eqb text "").
Qed.

Lemma processDirectory_same paths w1 w2 :
  same_but_console w1 w2 →
  same_but_console (processDirectory parse generate paths w1)
    (processDirectory parse generate paths w2).
Proof.
  revert w1 w2. induction paths as [|p paths IH]; intros w1 w2 H; [done|].
  simpl. apply IH. by apply processFile_same.
Qed.

(** The console only grows. *)
Lemma processFile_console path w line :
  line ∈ console w → line ∈ console (processFile parse generate path w).
Proof.
  intros H. unfold processFile, failed, log. simpl.
  repeat (case_match; simpl); rewrite ?elem_of_app; auto.
Qed.

Lemma processDirectory_console paths w line :
  line ∈ console w → line ∈ console (processDirectory parse generate paths w).
Proof.
  revert w. induction paths as [|p paths IH]; intros w H; [done|].
  simpl. apply IH. by apply processFile_console.
Qed.

(** A file that does not parse stays as it is, whatever is processed. *)
Lemma malformed_stays bad code path w :
  parse code = None →
  files w !! bad = Some code →
  files (processFile parse generate path w) !! bad = Some code.
Proof.
  intros Hp Hf. destruct (decide (path = bad)) as [->|Hne].
  - unfold processFile. simpl. rewrite Hf.
    destruct (includes "useEffect" code); simpl; [|done].
    unfold CodeTransformer.transformCode. by rewrite Hp.
  - pose proof (processFile_frame parse generate path w) as (Hother & _).
    by rewrite Hother.
Qed.

Lemma malformed_stays_all bad code paths w :
  parse code = None →
  files w !! bad = Some code →
  files (processDirectory parse generate paths w) !! bad = Some code.
Proof.
  intros Hp. revert w. induction paths as [|p paths IH]; intros w Hf; [done|].
  simpl. apply IH. by apply malformed_stays.
Qed.

(** What [processFile] does with a file that does not parse. *)
Lemma processFile_malformed bad code w :
  parse code = None →
  files w !! bad = Some code →
  same_but_console (processFile parse generate bad w) w ∧
  (includes "useEffect" code = true →
   "Error processing " +:+ bad +:+ ":"
     ∈ console (processFile parse generate bad w)).
Proof.
  intros Hp Hf. unfold processFile. simpl. rewrite Hf.
  destruct (includes "useEffect" code); simpl; [|done].
  unfold CodeTransformer.transformCode. rewrite Hp. simpl.
  split; [done|]. intros _.
  rewrite !elem_of_app, !list_elem_of_singleton. auto.
Qed.

(** C8. In a batch with a malformed file the parse error is caught and
    logged under the file's path, the file adds no finding and is not
    written, and the run yields for the other files what it yields
    without the malformed file: the same findings from the analyzer, the
    same files on disk and the same counters from the effect logger. *)
Theorem malformed_file_isolated
    (before after : list (string * string)) (paths1 paths2 : list string)
    (bad code : string) (w : world) :
  parse code = None →
  files w !! bad = Some code →
  let found :=
    Analyzer.processDirectory parse (snippet) in
  let w1 := processDirectory parse generate (paths1 ++ bad :: paths2) w in
  let w0 := processDirectory parse generate (paths1 ++ paths2) w in
  (found (before ++ (bad, code) :: after)).1 = (found (before ++ after)).1 ∧
  (includes "useState" code = true →
   Analyzer.analyzeFile parse snippet bad code
   = (Some [], ["Error processing " +:+ bad +:+ ":"])) ∧
  same_but_console w1 w0 ∧
  files w1 !! bad = Some code ∧
  (includes "useEffect" code = true →
   "Error processing " +:+ bad +:+ ":" ∈ console w1).
Proof.
  intros Hp Hf found w1 w0.
  split; [by apply analyzer_skips_malformed|].
  split; [intros Hi; by rewrite analyzeFile_malformed, Hi|].
  unfold w1, w0, processDirectory. rewrite !foldl_app. simpl.
  fold (processDirectory parse generate paths1 w).
  set (wm := processDirectory parse generate paths1 w).
  assert (files wm !! bad = Some code) as Hm by by apply malformed_stays_all.
  destruct (processFile_malformed bad code wm Hp Hm) as [Hsame Hlog].
  split; [by apply (processDirectory_same paths2)|].
  split; [apply (malformed_stays_all bad code paths2); [done|];
          by apply malformed_stays|].
  intros Hi. apply (processDirectory_console paths2). by apply Hlog.
Qed.

End batch.

Lemma malformed_file_isolated_witness :
  let parse := parse_only "useEffect" Effects.one_effect in
  let generate := print_fixed "logged" in
  let disk : gmap string string :=
    {[ "bad.js" := "useState useEffect ("; "ok.js" := "useEffect" ]} in
  let w := World disk [] 0 0 in
  Analyzer.analyzeFile parse (λ _ _, "") "bad.js" "useState useEffect ("
  = (Some [], ["Error processing bad.js:"]) ∧
  same_but_console
    (processDirectory parse generate ["bad.js"; "ok.js"] w)
    (processDirectory parse generate ["ok.js"] w) ∧
  files (processDirectory parse generate ["bad.js"; "ok.js"] w) !! "bad.js"
  = Some "useState useEffect (" ∧
  "Error processing bad.js:"
    ∈ console (processDirectory parse generate ["bad.js"; "ok.js"] w).
Proof.
  destruct (malformed_file_isolated
              (parse_only "useEffect" Effects.one_effect)
              (print_fixed "logged") (λ _ _, "") [] [] [] ["ok.js"]
              "bad.js" "useState useEffect ("
              (World {[ "bad.js" := "useState useEffect (";
                        "ok.js" := "useEffect" ]} [] 0 0))
    as (_ & H2 & H3 & H4 & H5).
  - vm_compute. reflexivity.
  - vm_compute. reflexivity.
  - split; [apply H2; vm_compute; reflexivity|].
    split; [exact H3|]. split; [exact H4|].
    apply H5. vm_compute. reflexivity.
Defined.

End BatchFacts.

(** ** Callbacks with an expression body *)

Module BodyFacts.
Import Bodies CodeTransformer.



End BodyFacts.

(** ** Walks that keep no state *)

Module RewriteFacts.
Import AstFacts WalkFacts.

Section pure.
Context {S : Type}.

Lemma each_pure {A B} (f : A → S → outcome exn S B) (g : A → B) l :
  Forall (λ a, ∀ s, f a s = Ok (g a) s) l →
  ∀ s, each f l s = Ok (map g l) s.
Proof.
  induction 1 as [|a l Ha _ IH]; intros s; simpl; [done|].
  unfold bind. by rewrite Ha, IH.
Qed.

Lemma field_pure {A B} (f : A → S → outcome exn S B) (g : A → B) sl :
  slot_all (λ a, ∀ s, f a s = Ok (g a) s) sl →
  ∀ s, field f sl s = Ok (slot_map g sl) s.
Proof.
  destruct sl as [a|[a|]|l|l]; simpl; intros H s; unfold bind; simpl.
  - by rewrite H.
  - unfold bind. by rewrite H.
  - done.
  - by rewrite (each_pure f g).
  - rewrite (each_pure (maybe f) (option_map g)); [done|].
    eapply Forall_impl; [exact H|]. intros [a|]; simpl; [|done].
    intros Ha s'. unfold bind. by rewrite Ha.
Qed.

Variable enter : list node → node → S → outcome exn S action.
Variable v : node → action.
Hypothesis enter_pure : ∀ anc n s, enter anc n s = Ok (v n) s.

Lemma fields_rewrite anc fs :
  Forall (slot_all (λ c, ∀ anc s,
            traverse enter anc c s = Ok (rewrite v c) s)) fs →
  ∀ s, each (field (traverse enter anc)) fs s
       = Ok (map (slot_map (rewrite v)) fs) s.
Proof.
  intros H. apply each_pure. eapply Forall_impl; [exact H|].
  intros sl Hsl. apply field_pure.
  destruct sl as [a|[a|]|l|l]; simpl in *; auto.
  - eapply Forall_impl; [exact Hsl|]. auto.
  - eapply Forall_impl; [exact Hsl|]. intros [a|]; simpl; auto.
Qed.

(** The walk returns the tree [rewrite] computes. *)
Lemma traverse_rewrite n :
  ∀ anc s, traverse enter anc n s = Ok (rewrite v n) s.
Proof.
  induction n as [k fs IH] using node_ind'. intros anc s.
  simpl. unfold bind. rewrite enter_pure.
  by rewrite (fields_rewrite _ _ IH).
Qed.

Lemma traverse_inside_rewrite anc n s :
  traverse_inside enter anc n s
  = Ok (Node (type_of n) (map (slot_map (rewrite v)) (fields_of n))) s.
Proof.
  unfold traverse_inside, bind. rewrite fields_rewrite; [done|].
  destruct n as [k fs]. simpl.
  induction fs as [|sl fs IHfs]; constructor; [|done].
  destruct sl as [a|[a|]|l|l]; simpl; try done.
  - intros. apply traverse_rewrite.
  - intros. apply traverse_rewrite.
  - induction l; constructor; [|done]. intros. apply traverse_rewrite.
  - induction l as [|[a|] l IHl]; constructor; simpl; try done.
    intros. apply traverse_rewrite.
Qed.

End pure.

End RewriteFacts.

(** ** The profiler wrapper *)

Module ProfilerFacts.
Import AstFacts WalkFacts RewriteFacts Profiler.

Section wrap.
Variable name : string.
Local Abbreviation v := (enterReturnStatement name).

(** The walk keeps the kind of every node ... *)
Lemma rewrite_type n : type_of (rewrite v n) = type_of n.
Proof.
  destruct n as [k fs]. simpl. unfold enterReturnStatement.
  destruct k; try done.
  destruct fs as [|[|[arg|]| |] [|]]; try done. simpl.
  repeat (case_match; try done).
Qed.

Lemma rewrite_has_type n ty : has_type (rewrite v n) ty = has_type n ty.
Proof. unfold has_type. by rewrite rewrite_type. Qed.

Lemma rewrite_name_of n : name_of (rewrite v n) = name_of n.
Proof. unfold name_of. by rewrite rewrite_type. Qed.

(** ... and the tag name of every JSX element. *)
Lemma rewrite_opening_name n : opening_name (rewrite v n) = opening_name n.
Proof.
  destruct n as [k fs]. destruct k;
    try (simpl; unfold enterReturnStatement; by repeat case_match).
  - (* return statements: no tag name before or after *)
    pose proof (rewrite_type (Node KReturnStatement fs)) as H.
    destruct (rewrite v (Node KReturnStatement fs)) as [k' fs'].
    simpl in H. by subst.
  - (* JSX elements *)
    destruct fs as [|[[ko [|[nm|o| |] r1]]| | |] r2]; try done;
      try (simpl; destruct ko; try done;
           unfold enterReturnStatement; by repeat case_match).
    2: { destruct ko; try done. destruct r1 as [|sl r1], o as [arg|];
           simpl; unfold enterReturnStatement; simpl;
           by repeat case_match. }
    change (rewrite v (Node KJSXElement (One (Node ko (One nm :: r1)) :: r2)))
      with (Node KJSXElement
              (One (rewrite v (Node ko (One nm :: r1)))
               :: map (slot_map (rewrite v)) r2)).
    assert (rewrite v (Node ko (One nm :: r1))
            = Node ko (One (rewrite v nm)
                       :: map (slot_map (rewrite v)) r1)) as ->.
    { simpl. by destruct ko. }
    simpl. apply rewrite_name_of.
Qed.

(** The wrapper element is walked through to the element it wraps. *)
Lemma rewrite_wrapped arg :
  rewrite v (wrapped name arg) = wrapped name (rewrite v arg).
Proof. done. Qed.

(** The visitor's decision is the same on a node whose children have been
    walked. *)
Lemma decision_stable k fs :
  v (Node k (map (slot_map (rewrite v)) fs)) = Continue ↔
  v (Node k fs) = Continue.
Proof.
  unfold enterReturnStatement. destruct k; try done.
  destruct fs as [|[|[arg|]| |] [|]]; try done. simpl.
  rewrite !rewrite_has_type, rewrite_opening_name.
  by repeat case_match.
Qed.

(** A second walk changes nothing. *)
Lemma rewrite_idempotent n : rewrite v (rewrite v n) = rewrite v n.
Proof.
  induction n as [k fs IH] using node_ind'.
  assert (map (slot_map (rewrite v)) (map (slot_map (rewrite v)) fs)
          = map (slot_map (rewrite v)) fs) as Hfs.
  { induction IH as [|sl fs Hsl _ IHfs]; simpl; [done|]. f_equal; [|done].
    destruct sl as [a|[a|]|l|l]; simpl in *.
    - by rewrite Hsl.
    - by rewrite Hsl.
    - done.
    - f_equal. induction Hsl as [|a l Ha _ IHl]; simpl; [done|].
      by rewrite Ha, IHl.
    - f_equal. induction Hsl as [|[a|] l Ha _ IHl]; simpl; [done|..].
      + simpl in Ha. by rewrite Ha, IHl.
      + by rewrite IHl. }
  change (rewrite v (Node k fs))
    with (apply_action (v (Node k fs))
            (Node k (map (slot_map (rewrite v)) fs))).
  destruct (v (Node k fs)) as [|f] eqn:Hv.
  - simpl apply_action.
    change (rewrite v (Node k (map (slot_map (rewrite v)) fs)))
      with (apply_action (v (Node k (map (slot_map (rewrite v)) fs)))
              (Node k (map (slot_map (rewrite v))
                         (map (slot_map (rewrite v)) fs)))).
    apply decision_stable in Hv. by rewrite Hv, Hfs.
  - unfold enterReturnStatement in Hv. destruct k; try done.
    destruct fs as [|[|[arg|]| |] [|]]; try done.
    simpl in Hv. repeat case_match; simplify_eq.
    all: simpl map; simpl apply_action.
    all: change (rewrite v (ReturnStatement
                            (Some (wrapped name (rewrite v arg)))))
           with (ReturnStatement
                   (Some (wrapped name (rewrite v (rewrite v arg))))).
    all: apply Forall_cons in IH as [Harg _]; simpl in Harg.
    all: by rewrite Harg.
Qed.

Lemma fields_idempotent fs :
  map (slot_map (rewrite v)) (map (slot_map (rewrite v)) fs)
  = map (slot_map (rewrite v)) fs.
Proof.
  induction fs as [|sl fs IHfs]; simpl; [done|]. f_equal; [|done].
  destruct sl as [a|[a|]|l|l]; simpl; try done.
  - by rewrite rewrite_idempotent.
  - by rewrite rewrite_idempotent.
  - f_equal. induction l as [|a l IHl]; simpl; [done|].
    by rewrite rewrite_idempotent, IHl.
  - f_equal. induction l as [|[a|] l IHl]; simpl; [done|..].
    + by rewrite rewrite_idempotent, IHl.
    + by rewrite IHl.
Qed.

End wrap.

(** C7. The visitor of [wrapReturnWithProfiler] leaves a [return] of a
    [Profiler] element as it is, and wrapping twice is wrapping once: a
    second run over a function finds every returned JSX value wrapped and
    changes nothing. *)
Theorem profiler_wrap_idempotent
    (componentName : string) (attributes children : list node)
    (selfClosing : bool) (closing : option node)
    (anc : list node) (fn : node) :
  enterReturnStatement componentName
    (ReturnStatement
       (Some (JSXElement
                (JSXOpeningElement (JSXIdentifier "Profiler") attributes
                   selfClosing)
                children closing)))
  = Continue ∧
  wrapReturnWithProfiler anc (wrapReturnWithProfiler anc fn)
  = wrapReturnWithProfiler anc fn.
Proof.
  split; [done|].
  assert (∀ f,
            wrapReturnWithProfiler anc f
            = Node (type_of f)
                (map (slot_map (rewrite (enterReturnStatement
                                           (componentName_of f (head anc)))))
                   (fields_of f))) as Hwrap.
  { intros f. unfold wrapReturnWithProfiler.
    by rewrite (traverse_inside_rewrite _ (enterReturnStatement
                  (componentName_of f (head anc)))). }
  rewrite (Hwrap (wrapReturnWithProfiler anc fn)).
  rewrite (Hwrap fn). simpl.
  destruct fn as [k fs]. simpl.
  replace (componentName_of (Node k _) (head anc))
    with (componentName_of (Node k fs) (head anc)) by done.
  f_equal. apply fields_idempotent.
Qed.

End ProfilerFacts.

(** * Further facts *)

(** ** More on walks *)

Module WalkMore.
Import AstFacts WalkFacts.

Section counting.
Context {E S : Type} (I : S → Prop) (m : S → nat).

Lemma each_count_inv {A B} (c : A → nat) (f : A → S → outcome E S B) l :
  Forall (λ a, ∀ s b s', I s → f a s = Ok b s' → I s' ∧ m s' = m s + c a) l →
  ∀ s l' s', I s → each f l s = Ok l' s' →
    I s' ∧ m s' = m s + sum_list_with c l.
Proof.
  induction 1 as [|a l Ha _ IH]; intros s l' s' Hs; simpl.
  - intros [= _ <-]. split; [done|lia].
  - unfold bind. destruct (f a s) as [b s1|e s1] eqn:Hf; [|done].
    destruct (each f l s1) as [bs s2|e s2] eqn:Hl; [|done].
    intros [= _ <-]. destruct (Ha _ _ _ Hs Hf) as [H1 E1].
    destruct (IH _ _ _ H1 Hl) as [H2 E2]. split; [done|lia].
Qed.

Lemma maybe_count_inv {A B} (c : A → nat) (f : A → S → outcome E S B) o :
  from_option (λ a, ∀ s b s', I s → f a s = Ok b s' →
                 I s' ∧ m s' = m s + c a) True o →
  ∀ s o' s', I s → maybe f o s = Ok o' s' →
    I s' ∧ m s' = m s + from_option c 0 o.
Proof.
  destruct o as [a|]; simpl; intros H s o' s' Hs.
  - unfold bind. destruct (f a s) as [b s1|e s1] eqn:Hf; [|done].
    intros [= _ <-]. by apply (H _ _ _ Hs Hf).
  - intros [= _ <-]. split; [done|lia].
Qed.

Lemma field_count_inv {A B} (c : A → nat) (f : A → S → outcome E S B) sl :
  slot_all (λ a, ∀ s b s', I s → f a s = Ok b s' →
              I s' ∧ m s' = m s + c a) sl →
  ∀ s sl' s', I s → field f sl s = Ok sl' s' →
    I s' ∧ m s' = m s + slot_sum c sl.
Proof.
  destruct sl as [a|o|l|l]; simpl; intros H s sl' s' Hs; unfold bind.
  - destruct (f a s) as [b s1|e s1] eqn:Hf; [|done].
    intros [= _ <-]. by apply (H _ _ _ Hs Hf).
  - destruct (maybe f o s) as [b s1|e s1] eqn:Hf; [|done].
    intros [= _ <-]. by apply (maybe_count_inv c f o H _ _ _ Hs Hf).
  - destruct (each f l s) as [b s1|e s1] eqn:Hf; [|done].
    intros [= _ <-]. by apply (each_count_inv c f l H _ _ _ Hs Hf).
  - destruct (each (maybe f) l s) as [b s1|e s1] eqn:Hf; [|done].
    intros [= _ <-].
    apply (each_count_inv (from_option c 0) (maybe f) l) in Hf; [done| |done].
    eapply Forall_impl; [exact H|]. intros o Ho. by apply maybe_count_inv.
Qed.

End counting.

Section traverse.
Context {S : Type}.
Variable enter : list node → node → S → outcome exn S action.

(** Counting under an invariant of the state. *)
Lemma traverse_count_inv (I : S → Prop) (m : S → nat) (p : node → bool) :
  (∀ anc n s act s', I s → enter anc n s = Ok act s' →
     I s' ∧ m s' = m s + (if p n then 1 else 0)) →
  ∀ n anc s n' s', I s → traverse enter anc n s = Ok n' s' →
    I s' ∧ m s' = m s + count_nodes p n.
Proof.
  intros Henter. induction n as [k fs IH] using node_ind'.
  intros anc s n' s' Hs. simpl. unfold bind.
  destruct (enter anc (Node k fs) s) as [act s1|e s1] eqn:He; [|done].
  destruct (each _ fs s1) as [fs' s2|e s2] eqn:Hfs; [|done].
  intros [= _ <-]. destruct (Henter _ _ _ _ _ Hs He) as [H1 E1].
  eapply (each_count_inv I m (slot_sum (count_nodes p))) in Hfs; [| |done].
  - destruct Hfs as [H2 E2]. split; [done|lia].
  - eapply Forall_impl; [exact IH|]. intros sl Hsl. apply field_count_inv.
    destruct sl as [a|[a|]|l|l]; simpl in *; eauto.
    + eapply Forall_impl; [exact Hsl|]. eauto.
    + eapply Forall_impl; [exact Hsl|]. intros [a|]; simpl; eauto.
Qed.

Lemma fields_count_inv (I : S → Prop) (m : S → nat) (p : node → bool) :
  (∀ anc n s act s', I s → enter anc n s = Ok act s' →
     I s' ∧ m s' = m s + (if p n then 1 else 0)) →
  ∀ fs anc s fs' s', I s →
    each (field (traverse enter anc)) fs s = Ok fs' s' →
    I s' ∧ m s' = m s + sum_list_with (slot_sum (count_nodes p)) fs.
Proof.
  intros Henter fs anc s fs' s' Hs Hfs.
  pose proof (traverse_count_inv I m p Henter) as Hn.
  eapply (each_count_inv I m (slot_sum (count_nodes p))) in Hfs; [done| |done].
  apply Forall_forall. intros sl _. apply field_count_inv.
  destruct sl as [a|[a|]|l|l]; simpl; eauto.
  - apply Forall_forall. eauto.
  - apply Forall_forall. intros [a|] _; simpl; eauto.
Qed.

(** An invariant of the visitor is an invariant of the walk below a
    node. *)
Lemma traverse_inside_final (I : S → Prop) :
  (∀ anc n s, I s → I (final (enter anc n s))) →
  ∀ n anc s, I s → I (final (traverse_inside enter anc n s)).
Proof.
  intros Henter n anc s Hs. unfold traverse_inside, bind.
  assert (I (final (each (field (traverse enter (n :: anc)))
                      (fields_of n) s))) as Hend.
  { apply each_final; [|done]. apply Forall_forall. intros sl _.
    apply field_final.
    assert (∀ c s, I s → I (final (traverse enter (n :: anc) c s))) as Hc.
    { intros c s' Hs'.
      apply (traverse_final enter I (λ _, false)); [|apply any_node_never|done].
      intros. by apply Henter. }
    destruct sl as [a|[a|]|l|l]; simpl; try done.
    - by apply Hc.
    - by apply Hc.
    - apply Forall_forall. intros. by apply Hc.
    - apply Forall_forall. intros [a|] _; simpl; [|done]. by apply Hc. }
  by destruct (each _ (fields_of n) s).
Qed.

Lemma traverse_eq anc n s :
  traverse enter anc n s
  = bind (enter anc n)
      (λ act, bind (each (field (traverse enter (n :: anc))) (fields_of n))
                (λ fs, Ok (apply_action act (Node (type_of n) fs)))) s.
Proof. by destruct n. Qed.

Lemma each_total {A B} (f : A → S → outcome exn S B) l :
  Forall (λ a, ∀ s, ∃ b s', f a s = Ok b s') l →
  ∀ s, ∃ l' s', each f l s = Ok l' s'.
Proof.
  induction 1 as [|a l Ha _ IH]; intros s; simpl; [by eexists _, _|].
  unfold bind. destruct (Ha s) as (b & s1 & ->).
  destruct (IH s1) as (bs & s2 & ->). by eexists _, _.
Qed.

Lemma field_total {A B} (f : A → S → outcome exn S B) sl :
  slot_all (λ a, ∀ s, ∃ b s', f a s = Ok b s') sl →
  ∀ s, ∃ sl' s', field f sl s = Ok sl' s'.
Proof.
  destruct sl as [a|[a|]|l|l]; simpl; intros H s; unfold bind; simpl.
  - destruct (H s) as (b & s1 & ->). by eexists _, _.
  - unfold bind. destruct (H s) as (b & s1 & ->). by eexists _, _.
  - by eexists _, _.
  - destruct (each_total f l H s) as (b & s1 & ->). by eexists _, _.
  - destruct (each_total (maybe f) l) with (s := s) as (b & s1 & ->);
      [|by eexists _, _].
    eapply Forall_impl; [exact H|]. intros [a|]; simpl.
    + intros Ha s'. unfold bind. destruct (Ha s') as (b & s1 & ->).
      by eexists _, _.
    + intros _ s'. by eexists _, _.
Qed.

(** A walk whose visitor never throws returns. *)
Lemma traverse_total :
  (∀ anc n s, ∃ act s', enter anc n s = Ok act s') →
  ∀ n anc s, ∃ n' s', traverse enter anc n s = Ok n' s'.
Proof.
  intros Henter. induction n as [k fs IH] using node_ind'.
  intros anc s. simpl. unfold bind.
  destruct (Henter anc (Node k fs) s) as (act & s1 & ->).
  destruct (each_total (field (traverse enter (Node k fs :: anc))) fs)
    with (s := s1) as (fs' & s2 & ->); [|by eexists _, _].
  eapply Forall_impl; [exact IH|]. intros sl Hsl. apply field_total.
  destruct sl as [a|[a|]|l|l]; simpl in *; eauto.
  - eapply Forall_impl; [exact Hsl|]. eauto.
  - eapply Forall_impl; [exact Hsl|]. intros [a|]; simpl; eauto.
Qed.

(** A walk that comes by a node on which the visitor throws, throws. *)
Lemma each_stops {A B} (f : A → S → outcome exn S B) l :
  Exists (λ a, ∀ s, ∃ e s', f a s = Stop e s') l →
  ∀ s, ∃ e s', each f l s = Stop e s'.
Proof.
  induction 1 as [a l Ha|a l _ IH]; intros s; simpl; unfold bind.
  - destruct (Ha s) as (e & s1 & ->). by eexists _, _.
  - destruct (f a s) as [b s1|e s1]; [|by eexists _, _].
    destruct (IH s1) as (e & s2 & ->). by eexists _, _.
Qed.

Lemma field_stops {A B} (f : A → S → outcome exn S B) (bad : A → bool) sl :
  slot_all (λ a, bad a = true → ∀ s, ∃ e s', f a s = Stop e s') sl →
  slot_any bad sl = true →
  ∀ s, ∃ e s', field f sl s = Stop e s'.
Proof.
  destruct sl as [a|[a|]|l|l]; simpl; intros H Hbad s; unfold bind; simpl;
    try done.
  - destruct (H Hbad s) as (e & s1 & ->). by eexists _, _.
  - unfold bind. destruct (H Hbad s) as (e & s1 & ->). by eexists _, _.
  - destruct (each_stops f l) with (s := s) as (e & s1 & ->);
      [|by eexists _, _].
    apply existsb_exists in Hbad as (a & Ha & Hb).
    apply Exists_exists. exists a. split; [by apply list_elem_of_In|].
    rewrite Forall_forall in H. apply H; [by apply list_elem_of_In|done].
  - destruct (each_stops (maybe f) l) with (s := s) as (e & s1 & ->);
      [|by eexists _, _].
    apply existsb_exists in Hbad as (o & Ho & Hb).
    apply Exists_exists. exists o. split; [by apply list_elem_of_In|].
    rewrite Forall_forall in H. specialize (H o).
    destruct o as [a|]; simpl in *; [|done].
    intros s'. unfold bind.
    destruct (H (proj2 (list_elem_of_In _ _) Ho) Hb s') as (e & s1 & ->).
    by eexists _, _.
Qed.

Lemma traverse_stops (bad : node → bool) :
  (∀ anc n s, bad n = true → ∃ e s', enter anc n s = Stop e s') →
  ∀ n anc s, any_node bad n = true → ∃ e s', traverse enter anc n s = Stop e s'.
Proof.
  intros Henter. induction n as [k fs IH] using node_ind'.
  intros anc s Hn. simpl in Hn. simpl traverse. unfold bind.
  destruct (bad (Node k fs)) eqn:Hb.
  - destruct (Henter anc _ s Hb) as (e & s1 & ->). by eexists _, _.
  - simpl in Hn. destruct (enter anc (Node k fs) s) as [act s1|e s1];
      [|by eexists _, _].
    destruct (each_stops (field (traverse enter (Node k fs :: anc))) fs)
      with (s := s1) as (e & s2 & ->); [|by eexists _, _].
    apply existsb_exists in Hn as (sl & Hsl & Hany).
    apply Exists_exists. exists sl. split; [by apply list_elem_of_In|].
    apply (field_stops _ (any_node bad)); [|done].
    rewrite Forall_forall in IH.
    specialize (IH sl (proj2 (list_elem_of_In _ _) Hsl)).
    destruct sl as [a|[a|]|l|l]; simpl in *; eauto.
    + eapply Forall_impl; [exact IH|]. eauto.
    + eapply Forall_impl; [exact IH|]. intros [a|]; simpl; eauto.
Qed.

End traverse.

End WalkMore.

(** ** Invariants of walks with insertions *)

Module InsertMore.
Import AstFacts WalkFacts.

Section final.
Context {S : Type} (I : S → Prop).

Lemma settled_final {A} (w : A → S → outcome halt S (list node * node)) a :
  (∀ s, I s → I (final (w a s))) → ∀ s, I s → I (final (settled w a s)).
Proof.
  intros Hw s Hs. unfold settled, bind. specialize (Hw s Hs).
  destruct (w a s) as [[[|] n] s1|e s1]; done.
Qed.

Lemma statements_final {A}
    (w : A → S → outcome halt S (list node * node)) l :
  Forall (λ a, ∀ s, I s → I (final (w a s))) l →
  ∀ s, I s → I (final (statements w l s)).
Proof.
  induction 1 as [|a l Ha _ IH]; intros s Hs; simpl; [done|].
  unfold bind. specialize (Ha s Hs).
  destruct (w a s) as [r s1|e s1]; [|done]. specialize (IH s1 Ha).
  by destruct (statements w l s1).
Qed.

(** An invariant of the visitor is an invariant of the walk. *)
Lemma walk_final (enter : list node → node → S → outcome halt S request)
    (reacts : S → node → bool) :
  (∀ anc n s, I s → I (final (enter anc n s))) →
  ∀ n anc s, I s → I (final (walk enter reacts anc n s)).
Proof.
  intros Henter. induction n as [k fs IH] using node_ind'.
  intros anc s Hs.
  assert (Forall (slot_all (λ c, ∀ s,
            I s → I (final (walk enter reacts (Node k fs :: anc) c s)))) fs)
    as Hkids.
  { eapply Forall_impl; [exact IH|].
    intros [a|[a|]|l|l]; simpl; try done.
    - intros H ?. apply H.
    - intros H ?. apply H.
    - intros H. eapply Forall_impl; [exact H|]. intros c Hc ?. apply Hc.
    - intros H. eapply Forall_impl; [exact H|].
      intros [c|]; simpl; [|done]. intros Hc ?. apply Hc. }
  simpl. unfold bind at 1. specialize (Henter anc (Node k fs) s Hs).
  destruct (enter anc (Node k fs) s) as [req s1|e s1]; [|done].
  simpl in Henter.
  assert (I (final
    ((fs' ⇐ each (field (settled (walk enter reacts (Node k fs :: anc)))) fs;;
      Ok (requested req (Node k fs'), Node k fs')) s1))) as Hgen.
  { unfold bind.
    assert (I (final (each (field (settled
               (walk enter reacts (Node k fs :: anc)))) fs s1))) as Hend.
    { apply each_final; [|done]. eapply Forall_impl; [exact Hkids|].
      intros sl Hsl. apply field_final.
      destruct sl as [a|[a|]|l|l]; simpl in *; try done.
      - by apply settled_final.
      - by apply settled_final.
      - eapply Forall_impl; [exact Hsl|]. intros c Hc.
        by apply settled_final.
      - eapply Forall_impl; [exact Hsl|]. intros [c|]; simpl; [|done].
        intros Hc. by apply settled_final. }
    by destruct (each _ fs s1). }
  destruct k; try (by apply Hgen);
    destruct fs as [|[e|o|body|hs] [|f2 fs2]]; try (by apply Hgen);
    apply Forall_cons in Hkids as [Hkid _]; simpl in Hkid; unfold bind.
  - specialize (Hkid s1 Henter).
    by destruct (walk _ _ _ _ s1).
  - pose proof (statements_final _ _ Hkid s1 Henter) as Hst.
    destruct (statements _ _ s1) as [rs s2|? s2]; [|done].
    unfold queued. by destruct (forallb _ _).
  - pose proof (statements_final _ _ Hkid s1 Henter) as Hst.
    destruct (statements _ _ s1) as [rs s2|? s2]; [|done].
    unfold queued. by destruct (forallb _ _).
Qed.

End final.

End InsertMore.

(** ** More on the analyzer *)

Module AnalyzerReports.
Import AstFacts WalkFacts WalkMore Analyzer Shapes Reports.

Lemma classify_unmatched v :
  first_match v = None → classify v = Basic ∨ classify v = Unlisted.
Proof.
  unfold first_match, classify, complex_shapes. simpl.
  repeat (case_match; simplify_eq/=; try done); auto.
  all: repeat match goal with
       | H : _ && _ = true |- _ => apply andb_true_iff in H as [??]
       | H : _ && _ = false |- _ => apply andb_false_iff in H as [?|?]
       | H : bool_decide _ = true |- _ => apply bool_decide_eq_true in H
       | H : bool_decide _ = false |- _ => apply bool_decide_eq_false in H
       | H : (_ <? _) = true |- _ => apply Nat.ltb_lt in H
       | H : (_ <? _) = false |- _ => apply Nat.ltb_ge in H
       end; try congruence; try lia.
Qed.

Lemma classify_label v label :
  classify v = Complex label → first_match v = Some label.
Proof.
  destruct (first_match v) as [l|] eqn:Hm.
  - apply AnalyzerFacts.classify_first_match in Hm. congruence.
  - destruct (classify_unmatched v Hm); congruence.
Qed.

Lemma first_match_label v label : first_match v = Some label → label ∈ labels.
Proof.
  unfold first_match. destruct (find _ _) as [row|] eqn:Hf; [|done].
  intros [= <-]. apply find_some in Hf as [Hin _].
  apply list_elem_of_fmap. exists row. split; [done|].
  by apply list_elem_of_In.
Qed.

(** An initializer that has none of the seven complex shapes (a number
    other than zero, a string, an identifier, a member expression, a
    [new] expression, a template literal, ...) is not reported, and
    neither is a call without arguments. *)
Theorem unlisted_initializer_no_finding
    (snippet : node → string) (file : string) (anc : list node)
    (callee initialValue : node) (rest : list node) (line : option nat)
    (s : state) :
  first_match initialValue = None →
  enter snippet file anc
    (CallExpression callee (initialValue :: rest) line) s
  = Ok Continue s ∧
  enter snippet file anc (CallExpression callee [] line) s = Ok Continue s.
Proof.
  intros H. unfold enter, enterCallExpression, enterImportDeclaration. simpl.
  destruct (useStateImported s); simpl; [|done].
  destruct (bool_decide _); [|done].
  by destruct (classify_unmatched _ H) as [-> | ->].
Qed.

Lemma unlisted_initializer_no_finding_witness :
  let made := Node (KOther "NewExpression") [One (Identifier "Map"); Many []] in
  first_match made = None ∧
  enter (λ _, "new Map()") "App.jsx" []
    (CallExpression (Identifier "useState") [made] (Some 2)) (State true [])
  = Ok Continue (State true []).
Proof.
  split; [reflexivity|].
  exact (proj1 (unlisted_initializer_no_finding (λ _, "new Map()") "App.jsx"
                  [] (Identifier "useState")
                  (Node (KOther "NewExpression")
                     [One (Identifier "Map"); Many []])
                  [] (Some 2) (State true []) eq_refl)).
Defined.

(** What the visitor does to the findings. *)
Lemma enter_findings snippet file anc n s :
  ∃ s', enter snippet file anc n s = Ok Continue s' ∧
    (useStateImported s = true → useStateImported s' = true) ∧
    (findings s' = findings s ∨
     ∃ f, findings s' = findings s ++ [f] ∧ filePath f = file
          ∧ reason f ∈ labels) ∧
    (useStateImported s = true →
     length (findings s')
     = length (findings s) + (if complex_call n then 1 else 0)).
Proof.
  unfold enter. eexists. split; [done|].
  destruct n as [k fs]. destruct k.
  all: try (unfold enterCallExpression, enterImportDeclaration;
            destruct s as [[] found]; simpl;
            (split; [done|]); (split; [by left|]); intros;
            first [done|simpl; lia]).
  - (* calls *)
    unfold enterImportDeclaration, enterCallExpression, complex_call. simpl.
    destruct (useStateImported s) eqn:Himp; simpl.
    2: { split; [done|]. split; [by left|]. done. }
    split; [by repeat case_match|].
    destruct fs as [|[callee| | |] [|[| |args|] [|]]];
      try (split; [by left|intros _; repeat case_match; simpl; lia]).
    destruct args as [|v rest];
      [split; [by left; case_match|intros _; case_match; simpl; lia]|].
    destruct (bool_decide (name_of callee = Some "useState")); simpl;
      [|split; [by left|intros _; lia]].
    destruct (classify v) as [why| |] eqn:Hc.
    + apply classify_label in Hc. split.
      * right. eexists. split; [done|]. split; [done|].
        by eapply first_match_label.
      * intros _. simpl. rewrite Hc, length_app. simpl.
        rewrite ?bool_decide_eq_true_2 by by eexists. lia.
    + assert (first_match v = None) as ->.
      { destruct (first_match v) eqn:Hm; [|done].
        apply AnalyzerFacts.classify_first_match in Hm. congruence. }
      split; [by left|intros _; simpl].
      rewrite ?bool_decide_eq_false_2 by (by intros [??]). simpl. lia.
    + assert (first_match v = None) as ->.
      { destruct (first_match v) eqn:Hm; [|done].
        apply AnalyzerFacts.classify_first_match in Hm. congruence. }
      split; [by left|intros _; simpl].
      rewrite ?bool_decide_eq_false_2 by (by intros [??]). simpl. lia.
  - (* import declarations *)
    unfold enterCallExpression, enterImportDeclaration.
    destruct s as [imp found]. simpl.
    destruct (_ && _); destruct imp; simpl; (split; [done|]);
      (split; [by left|]); intros; first [done|lia].
Qed.

(** Every finding carries the path of the file that was analyzed and one
    of the seven labels. *)
Theorem findings_carry_file_and_label
    (snippet : node → string) (file : string) (ast : node) :
  Forall (λ f, filePath f = file ∧ reason f ∈ labels)
    (analyzeAst snippet file ast).
Proof.
  unfold analyzeAst.
  assert (Forall (λ f, filePath f = file ∧ reason f ∈ labels)
            (findings (final (traverse (enter snippet file) [] ast
                                (State false [])))))
    as H; [|by destruct (traverse _ _ _ _)].
  apply (traverse_final (enter snippet file)
           (λ s, Forall (λ f, filePath f = file ∧ reason f ∈ labels)
                   (findings s)) (λ _, false)).
  - intros anc n s _ Hs.
    destruct (enter_findings snippet file anc n s)
      as (s' & -> & _ & [Hf|(f & Hf & ? & ?)] & _); simpl; rewrite Hf;
      [done|].
    apply Forall_app. split; [done|]. by apply Forall_singleton.
  - apply any_node_never.
  - simpl. apply Forall_nil_2.
Qed.

(** In a file that starts with the import of [useState] from 'react',
    the findings are as many as the calls of [useState] with a complex
    first argument. *)
Theorem one_finding_per_complex_call
    (snippet : node → string) (file : string) (imp : node)
    (rest : list node) :
  Imports.imports_hook "useState" imp = true →
  length (analyzeAst snippet file (Program (imp :: rest)))
  = count_nodes complex_call (Program (imp :: rest)).
Proof.
  intros Himp. unfold analyzeAst.
  set (P := Program (imp :: rest)).
  destruct (traverse_total (enter snippet file)) with
    (n := P) (anc := @nil node) (s := State false [])
    as (ast' & s' & Ht).
  { intros anc n s. destruct (enter_findings snippet file anc n s)
      as (s1 & -> & _). by eexists _, _. }
  rewrite Ht.
  assert (∀ anc n s act s', useStateImported s = true →
            enter snippet file anc n s = Ok act s' →
            useStateImported s' = true ∧
            length (findings s')
            = length (findings s) + (if complex_call n then 1 else 0))
    as Henter.
  { intros anc n s act s1 Hs He.
    destruct (enter_findings snippet file anc n s)
      as (s2 & He' & Hflag & _ & Hlen).
    rewrite He' in He. injection He as <- <-. auto. }
  rewrite traverse_eq in Ht. unfold bind in Ht.
  assert (enter snippet file [] P (State false []) = Ok Continue (State false []))
    as Hp by done.
  rewrite Hp in Ht. unfold P in Ht at 3. simpl fields_of in Ht.
  simpl each in Ht. unfold bind in Ht.
  destruct (traverse (enter snippet file) [P] imp (State false []))
    as [imp' s1|e s1] eqn:Hi; [|done].
  destruct (each _ rest s1) as [rest' s2|e s2] eqn:Hr; [|done].
  injection Ht as _ <-.
  rewrite traverse_eq in Hi. unfold bind in Hi.
  destruct imp as [k fs]. unfold Imports.imports_hook in Himp.
  destruct k; try done. simpl in Himp.
  assert (enter snippet file [P] (Node (KImportDeclaration source) fs)
            (State false []) = Ok Continue (State true [])) as Hq.
  { unfold enter, enterImportDeclaration, enterCallExpression. simpl.
    by rewrite Himp. }
  rewrite Hq in Hi.
  destruct (each _ (fields_of _) _) as [fs' s3|e s3] eqn:Hf; [|done].
  injection Hi as _ <-.
  apply (fields_count_inv (enter snippet file)
           (λ s, useStateImported s = true) (λ s, length (findings s))
           complex_call Henter) in Hf as [Hs3 Hn3]; [|done].
  apply (each_count_inv (λ s, useStateImported s = true)
           (λ s, length (findings s)) (count_nodes complex_call)) in Hr
    as [_ Hn2]; [| |done].
  - rewrite Hn2, Hn3. simpl. lia.
  - apply Forall_forall. intros n _ s b sb.
    apply (traverse_count_inv (enter snippet file)
             (λ s, useStateImported s = true) (λ s, length (findings s))
             complex_call Henter).
Qed.

Lemma one_finding_per_complex_call_witness :
  length (analyzeAst (λ _, "() => 1") "C.jsx"
            (Program
               [ ImportDeclaration
                   [ImportSpecifier (Identifier "useState")
                      (Identifier "useState")] "react";
                 ExpressionStatement
                   (CallExpression (Identifier "useState")
                      [ArrowFunctionExpression [] (NumericLiteral 1%float)]
                      (Some 2)) ]))
  = 1.
Proof.
  exact (one_finding_per_complex_call (λ _, "() => 1") "C.jsx"
           (ImportDeclaration
              [ImportSpecifier (Identifier "useState")
                 (Identifier "useState")] "react")
           [ExpressionStatement
              (CallExpression (Identifier "useState")
                 [ArrowFunctionExpression [] (NumericLiteral 1%float)]
                 (Some 2))] eq_refl).
Defined.

(** The component name: [pre] is the part of the chain below the nearest
    function node. *)
Lemma findComponentName_skip pre chain :
  forallb (λ n, negb (is_function n)) pre = true →
  findComponentName (pre ++ chain) = findComponentName chain.
Proof.
  induction pre as [|n pre IH]; simpl; [done|].
  intros [Hn Hpre]%andb_true_iff. unfold is_function in Hn.
  apply negb_true_iff in Hn. rewrite Hn. auto.
Qed.

(** A call is attributed to the nearest enclosing function that has a
    name of its own, or, when that function has none and is the
    initializer of a variable, to the variable (with [undefined] for a
    name when the variable is a pattern); a function literal in any other
    place is passed over, and outside every function the name is
    'Unknown Component'. *)
Theorem component_is_nearest_named_function
    (pre rest : list node) (fn parent id : node) (init : option node)
    (name : string) :
  forallb (λ n, negb (is_function n)) pre = true →
  is_function fn = true →
  findComponentName pre = Some "Unknown Component" ∧
  (function_id fn = Some name →
   findComponentName (pre ++ fn :: rest) = Some name) ∧
  (function_id fn = None →
   findComponentName (pre ++ fn :: VariableDeclarator id init :: rest)
   = name_of id) ∧
  (function_id fn = None →
   has_type parent "VariableDeclarator" = false →
   findComponentName (pre ++ fn :: parent :: rest)
   = findComponentName (parent :: rest)).
Proof.
  intros Hpre Hfn. unfold is_function in Hfn.
  assert (∀ up,
    findComponentName (fn :: up)
    = match function_id fn, up with
      | Some name, _ => Some name
      | None, VariableDeclarator id _ :: _ => name_of id
      | None, _ => findComponentName up
      end) as Hstep.
  { intros up. simpl. by rewrite Hfn. }
  split; [|split; [|split]].
  - rewrite <-(app_nil_r pre). by rewrite findComponentName_skip.
  - intros Hid. rewrite findComponentName_skip by done.
    by rewrite Hstep, Hid.
  - intros Hid. rewrite findComponentName_skip by done.
    by rewrite Hstep, Hid.
  - intros Hid Hparent. rewrite findComponentName_skip by done.
    rewrite Hstep, Hid. destruct parent as [k fs].
    by destruct k.
Qed.

Lemma component_is_nearest_named_function_witness :
  let call := CallExpression (Identifier "useState") [] (Some 3) in
  let body := BlockStatement [ExpressionStatement call] in
  let fn := ArrowFunctionExpression [] body in
  findComponentName [call; ExpressionStatement call; body]
  = Some "Unknown Component" ∧
  findComponentName
    [call; ExpressionStatement call; body; fn;
     VariableDeclarator (Identifier "App") (Some fn)]
  = Some "App".
Proof.
  destruct (component_is_nearest_named_function
              [CallExpression (Identifier "useState") [] (Some 3);
               ExpressionStatement
                 (CallExpression (Identifier "useState") [] (Some 3));
               BlockStatement
                 [ExpressionStatement
                    (CallExpression (Identifier "useState") [] (Some 3))]]
              []
              (ArrowFunctionExpression []
                 (BlockStatement
                    [ExpressionStatement
                       (CallExpression (Identifier "useState") []
                          (Some 3))]))
              (Program []) (Identifier "App")
              (Some (ArrowFunctionExpression []
                       (BlockStatement
                          [ExpressionStatement
                             (CallExpression (Identifier "useState") []
                                (Some 3))])))
              "" eq_refl eq_refl) as (H1 & _ & H3 & _).
  split; [exact H1|]. exact (H3 eq_refl).
Defined.

(** The findings of a directory are those of its files, in the order of
    the walk; the error lines likewise. *)
Theorem directory_findings_concatenate
    (parse : string → option node) (snippet : string → node → string)
    (files : list (string * string)) :
  (processDirectory parse snippet files).1
  = concat (contribution parse snippet <$> files) ∧
  (processDirectory parse snippet files).2
  = concat ((λ entry, (analyzeFile parse snippet entry.1 entry.2).2) <$> files).
Proof.
  induction files as [|[file content] files [IH1 IH2]]; [done|].
  simpl. unfold contribution at 1. simpl.
  destruct (analyzeFile parse snippet file content) as [found errs].
  destruct (processDirectory parse snippet files) as [allFindings console].
  simpl in *. subst. split; [|done].
  destruct found as [fs|]; simpl; [|done].
  by destruct fs.
Qed.

End AnalyzerReports.

(** ** The analyzer's report *)

Module ReportFacts.
Import Analyzer Report Reports Tally.

Lemma bump_keys key acc k :
  k ∈ (bump key acc).*1 ↔ k = key ∨ k ∈ acc.*1.
Proof.
  induction acc as [|[k' c] acc IH]; simpl.
  - rewrite list_elem_of_singleton, elem_of_nil. tauto.
  - destruct (String.eqb_spec k' key) as [->|Hne]; simpl.
    + rewrite !elem_of_cons. tauto.
    + rewrite !elem_of_cons, IH. tauto.
Qed.

Lemma bump_NoDup key acc : NoDup acc.*1 → NoDup (bump key acc).*1.
Proof.
  induction acc as [|[k c] acc IH]; simpl.
  - intros _. apply NoDup_singleton.
  - intros [Hk Hacc]%NoDup_cons.
    destruct (String.eqb_spec k key) as [->|Hne]; simpl.
    + by apply NoDup_cons.
    + apply NoDup_cons. split; [|by apply IH].
      rewrite bump_keys. intros [->|?]; done.
Qed.

Lemma bump_held key acc k :
  held k (bump key acc) = held k acc + (if decide (key = k) then 1 else 0).
Proof.
  unfold held. induction acc as [|[k' c] acc IH]; simpl.
  - destruct (String.eqb_spec key k), (decide (key = k)); simpl; done || lia.
  - destruct (String.eqb_spec k' key) as [->|Hne]; simpl.
    + destruct (String.eqb_spec key k), (decide (key = k)); simpl;
        done || lia.
    + destruct (String.eqb_spec k' k) as [->|Hne']; simpl; [|done].
      destruct (decide (key = k)); [congruence|lia].
Qed.

Lemma bump_positive key acc :
  Forall (λ entry, 0 < entry.2) acc →
  Forall (λ entry, 0 < entry.2) (bump key acc).
Proof.
  induction 1 as [|[k c] acc Hc Hacc IH]; simpl.
  - apply Forall_singleton. simpl. lia.
  - destruct (String.eqb k key); apply Forall_cons; split;
      first [exact Hc|exact IH|exact Hacc|simpl in *; lia].
Qed.

Lemma bump_sum key acc :
  sum_list (bump key acc).*2 = S (sum_list acc.*2).
Proof.
  induction acc as [|[k c] acc IH]; csimpl; [done|].
  destruct (String.eqb k key); csimpl; lia.
Qed.

Lemma held_member acc k c :
  NoDup acc.*1 → (k, c) ∈ acc → held k acc = c.
Proof.
  unfold held. induction acc as [|[k' c'] acc IH]; simpl.
  - by intros _ ?%elem_of_nil.
  - intros [Hk Hacc]%NoDup_cons [[= -> ->]|Hin]%elem_of_cons.
    + by rewrite String.eqb_refl.
    + destruct (String.eqb_spec k' k) as [->|Hne]; [|by apply IH].
      destruct Hk. apply list_elem_of_fmap. by exists (k, c).
Qed.

Lemma member_held acc k :
  0 < held k acc → (k, held k acc) ∈ acc.
Proof.
  unfold held. induction acc as [|[k' c'] acc IH]; simpl; [lia|].
  destruct (String.eqb_spec k' k) as [->|Hne]; simpl.
  - intros _. apply elem_of_cons. by left.
  - intros H. apply elem_of_cons. right. by apply IH.
Qed.

(** The object built by the reduction. *)
Lemma typeCount_spec findings :
  NoDup (typeCount findings).*1 ∧
  Forall (λ entry, 0 < entry.2) (typeCount findings) ∧
  sum_list (typeCount findings).*2 = length findings ∧
  ∀ label, held label (typeCount findings) = count_reason label findings.
Proof.
  unfold typeCount, count_reason.
  induction findings as [|f findings IH] using rev_ind.
  - simpl. split; [apply NoDup_nil_2|]. split; [apply Forall_nil_2|]. done.
  - destruct IH as (Hnd & Hpos & Hsum & Hheld). rewrite foldl_app. simpl.
    split; [by apply bump_NoDup|]. split; [by apply bump_positive|].
    split; [rewrite bump_sum, length_app, Hsum; simpl; lia|].
    intros label. rewrite bump_held, Hheld, filter_app, length_app.
    f_equal. rewrite filter_cons, filter_nil.
    destruct (decide (reason f = label)); done.
Qed.

Lemma insert_entry_perm x l : insert_entry x l ≡ₚ x :: l.
Proof.
  induction l as [|y l IH]; simpl; [done|].
  destruct (x.2 <? y.2); [|done]. rewrite IH. apply Permutation_swap.
Qed.

Lemma sort_perm l : sort l ≡ₚ l.
Proof.
  induction l as [|x l IH]; simpl; [done|].
  unfold sort in *. simpl. by rewrite insert_entry_perm, IH.
Qed.

Lemma insert_entry_sorted x l :
  StronglySorted (λ a b, b.2 ≤ a.2) l →
  StronglySorted (λ a b, b.2 ≤ a.2) (insert_entry x l).
Proof.
  induction 1 as [|y l Hl IH Hy]; simpl.
  - repeat constructor.
  - destruct (Nat.ltb_spec x.2 y.2) as [Hlt|Hge].
    + constructor; [done|]. rewrite insert_entry_perm.
      apply Forall_cons. split; [lia|done].
    + constructor; [by constructor|].
      apply Forall_cons. split; [done|].
      eapply Forall_impl; [exact Hy|]. simpl. intros. lia.
Qed.

Lemma sort_sorted l : StronglySorted (λ a b, b.2 ≤ a.2) (sort l).
Proof.
  induction l as [|x l IH]; simpl; [constructor|].
  by apply insert_entry_sorted.
Qed.

(** The summary lists every label that occurs once, with the number of
    findings that carry it, the larger numbers first; the numbers add up
    to the number of findings.  The labels are those of the analyzer
    (none of them is a name that an object has from the start). *)
Theorem summary_counts_findings (findings : list finding) :
  Forall (λ f, reason f ∈ labels) findings →
  (∀ label count,
     (label, count) ∈ summary findings
     ↔ 0 < count ∧ count = count_reason label findings) ∧
  NoDup (summary findings).*1 ∧
  StronglySorted (λ a b, b.2 ≤ a.2) (summary findings) ∧
  sum_list (summary findings).*2 = length findings.
Proof.
  intros _. destruct (typeCount_spec findings) as (Hnd & Hpos & Hsum & Hheld).
  unfold summary. pose proof (sort_perm (typeCount findings)) as Hperm.
  split; [|split; [|split]].
  - intros label count. rewrite Hperm, <-Hheld. split.
    + intros Hin. split.
      * rewrite Forall_forall in Hpos. by apply (Hpos _ Hin).
      * symmetry. by apply held_member.
    + intros [Hc ->]. by apply member_held.
  - by rewrite Hperm.
  - apply sort_sorted.
  - by rewrite Hperm.
Qed.

Lemma summary_counts_findings_witness :
  summary three_findings = [("Function call", 2); ("Ternary operator", 1)] ∧
  sum_list (summary three_findings).*2 = 3.
Proof.
  destruct (summary_counts_findings three_findings) as (_ & _ & _ & H).
  - apply (bool_decide_unpack _). vm_compute. reflexivity.
  - split; [reflexivity|exact H].
Defined.

End ReportFacts.

(** ** More on the setter logger *)

Module SetterLoggerMore.
Import AstFacts WalkFacts InsertMore SetterLogger.

(** What the visitor does to the three variables. *)
Lemma enter_grows anc n s :
  let s' := final (enter anc n s) in
  (modified s = true → modified s' = true) ∧
  (useStateImported s = true → useStateImported s' = true) ∧
  dom (stateSetters s) ⊆ dom (stateSetters s').
Proof.
  unfold enter, enterCallExpression.
  set (s0 := enterImportDeclaration n s).
  assert ((modified s = true → modified s0 = true) ∧
          (useStateImported s = true → useStateImported s0 = true) ∧
          dom (stateSetters s) ⊆ dom (stateSetters s0)) as (A0 & B0 & C0).
  { unfold s0, enterImportDeclaration. by repeat case_match. }
  set (s1 := enterVariableDeclarator n s0).
  assert ((modified s0 = true → modified s1 = true) ∧
          (useStateImported s0 = true → useStateImported s1 = true) ∧
          dom (stateSetters s0) ⊆ dom (stateSetters s1)) as (A1 & B1 & C1).
  { unfold s1, enterVariableDeclarator.
    repeat case_match; try done. simpl. split; [done|]. split; [done|].
    rewrite dom_insert. apply union_subseteq_r. }
  destruct (tracked s1 n); simpl.
  - repeat case_match; simpl; split; auto; split; auto; by etrans.
  - split; auto. split; auto. by etrans.
Qed.

(** Tracking does not follow scopes: a setter name that is tracked stays
    tracked to the end of the walk, whatever the walk comes by and
    however it ends, and neither the import nor [modified] is ever taken
    back. *)
Theorem tracking_only_grows (anc : list node) (n : node) (s : state) :
  let s' := final (walk enter reacts anc n s) in
  (modified s = true → modified s' = true) ∧
  (useStateImported s = true → useStateImported s' = true) ∧
  (∀ name, is_Some (stateSetters s !! name) →
           is_Some (stateSetters s' !! name)).
Proof.
  assert (let s' := final (walk enter reacts anc n s) in
          (modified s = true → modified s' = true) ∧
          (useStateImported s = true → useStateImported s' = true) ∧
          dom (stateSetters s) ⊆ dom (stateSetters s')) as (A & B & C).
  { apply (walk_final (λ s', (modified s = true → modified s' = true) ∧
             (useStateImported s = true → useStateImported s' = true) ∧
             dom (stateSetters s) ⊆ dom (stateSetters s'))); [|done].
    intros anc0 n0 s0 (A0 & B0 & C0).
    destruct (enter_grows anc0 n0 s0) as (A1 & B1 & C1).
    split; [auto|]. split; [auto|]. by etrans. }
  split; [done|]. split; [done|]. intros name Hname.
  apply elem_of_dom. apply C. by apply elem_of_dom.
Qed.

Section processFile.
Variable parse : string → option node.
Variable generate : string → node → string.


End processFile.


End SetterLoggerMore.

(** ** More on the effect logger *)

Module EffectSites.
Import AstFacts WalkFacts WalkMore Effects Bare CodeTransformer.

(** A callback with a block body keeps its statements, in their order,
    behind the synthesized ones: the dependency log (when the call has a
    second argument), the increment and the log call in the effect
    logger, the log call in the function logger. *)
Theorem block_body_statements_in_front
    (file : string) (anc : list node) (k : kind) (params stmts : list node)
    (rest : list node) (line : option nat) (s : state)
    (parentName functionName : string) :
  is_function_literal (Node k [Many params; One (BlockStatement stmts)])
  = true →
  existsb (λ p, has_type p "Program") anc = true →
  let callback := Node k [Many params; One (BlockStatement stmts)] in
  let call := CallExpression (Identifier "useEffect") (callback :: rest) line in
  let lg :=
    createEffectLogger (componentName_of anc) file
      (from_option pretty "unknown" line) (effectCounter s) in
  let deps :=
    from_option (λ d, [ExpressionStatement
                         (createDependenciesLogger (componentName_of anc)
                            (effectCounter s) d)]) [] (head rest) in
  (∃ act s',
     enter file anc call s = Ok act s' ∧
     apply_action act call
     = CallExpression (Identifier "useEffect")
         (Node k [Many params;
                  One (BlockStatement
                         (deps ++ [incrementCounter lg; logStatement lg]
                          ++ stmts))] :: rest) line) ∧
  FunctionLogger.addLog
    (FunctionLogger.logStatement parentName functionName) callback
  = Node k [Many params;
            One (BlockStatement
                   (FunctionLogger.logStatement parentName functionName
                    :: stmts))].
Proof.
  intros Hlit Hprog callback call lg deps. split; [|reflexivity].
  unfold call, callback.
  destruct k; try done; unfold enter; simpl; rewrite ?Hlit, Hprog;
    (eexists _, _; split; [reflexivity|]); simpl; unfold deps, lg;
    by destruct rest.
Qed.

Lemma block_body_statements_in_front_witness :
  let tick :=
    ExpressionStatement (CallExpression (Identifier "tick") [] (Some 2)) in
  let deps := ArrayExpression [] in
  let call :=
    CallExpression (Identifier "useEffect")
      [ArrowFunctionExpression [] (BlockStatement [tick]); deps] (Some 1) in
  let lg := createEffectLogger (Some "Unknown") "App.js" "1" 0 in
  ∃ act s',
    enter "App.js" [Program []] call (State 0 false 0 []) = Ok act s' ∧
    apply_action act call
    = CallExpression (Identifier "useEffect")
        [ArrowFunctionExpression []
           (BlockStatement
              [ ExpressionStatement
                  (createDependenciesLogger (Some "Unknown") 0 deps);
                incrementCounter lg; logStatement lg; tick ]);
         deps] (Some 1).
Proof.
  exact (proj1 (block_body_statements_in_front "App.js" [Program []]
                  KArrowFunctionExpression []
                  [ExpressionStatement
                     (CallExpression (Identifier "tick") [] (Some 2))]
                  [ArrayExpression []] (Some 1) (State 0 false 0 [])
                  "global" "f" eq_refl eq_refl)).
Defined.

(** On a call [useEffect()] the visitor throws. *)
Lemma enter_bare file anc n s :
  bare_useEffect n = true → ∃ e s', enter file anc n s = Stop e s'.
Proof.
  unfold bare_useEffect, enter. intros [Hn Hargs]%andb_true_iff.
  rewrite Hn. simpl. destruct n as [k fs]. destruct k; try done.
  destruct fs as [|[callee| | |] [|[| |[|]|] [|]]]; try done.
  by eexists _, _.
Qed.

(** A traversal that has set [fileModified] has counted a call. *)
Lemma enter_modified_found file anc n s :
  (fileModified s = true → 1 ≤ effectsFound s) →
  fileModified (final (enter file anc n s)) = true →
  1 ≤ effectsFound (final (enter file anc n s)).
Proof.
  unfold enter. destruct (is_useEffect_call n); simpl; [|done].
  destruct n as [k fs]. destruct k; simpl; try done.
  destruct fs as [|[callee| | |] [|[| |args|] [|]]]; simpl; try done.
  all: intros; repeat case_match; simpl in *; lia.
Qed.

Lemma transformAst_modified_found file ast c :
  let s := final (transformAst file ast c) in
  fileModified s = true → 1 ≤ effectsFound s.
Proof.
  intros s.
  assert (s = final (traverse (enter file) [] ast (State c false 0 [])))
    as -> by (unfold s, transformAst; by destruct (traverse _ _ _ _)).
  apply (traverse_final (enter file)
           (λ s, fileModified s = true → 1 ≤ effectsFound s) (λ _, false)).
  - intros. by apply enter_modified_found.
  - apply any_node_never.
  - done.
Qed.

End EffectSites.

Module EffectFiles.
Import AstFacts WalkFacts WalkMore Effects Bare CodeTransformer.
Import FileProcessor Runs EffectSites.

Section processFile.
Variable parse : string → option node.
Variable generate : string → node → string.

(** A single call [useEffect()] without arguments makes the visitor throw
    wherever it stands in the file: the file is not written, whatever
    calls came before it, the total stays, and the error is logged under
    the path of the file. *)
Theorem bare_call_stops_the_file
    (path : string) (w : world) (code : string) (ast : node) :
  files w !! path = Some code →
  includes "useEffect" code = true →
  parse code = Some ast →
  any_node bare_useEffect ast = true →
  let w' := processFile parse generate path w in
  files w' = files w ∧
  globalEffectCounter w' = globalEffectCounter w ∧
  "Error processing " +:+ path +:+ ":" ∈ console w'.
Proof.
  intros Hf Hincl Hp Hbare.
  destruct (traverse_stops (enter path) bare_useEffect (enter_bare path)
              ast [] (State (effectCounter w) false 0 []) Hbare)
    as (e & s' & Ht).
  unfold processFile. simpl. rewrite Hf, Hincl. simpl.
  unfold transformCode, transformAst. rewrite Hp, Ht. simpl.
  split; [done|]. split; [done|].
  rewrite !elem_of_app, !list_elem_of_singleton. auto.
Qed.

(** [processFile] either leaves the disk and the total as they are, or
    writes the file it was given, says so, and raises the total and the
    counter of the module by at least one. *)
Theorem effect_logger_writes_or_leaves (path : string) (w : world) :
  let w' := processFile parse generate path w in
  (files w' = files w ∧ globalEffectCounter w' = globalEffectCounter w)
  ∨ (∃ text,
       text ≠ "" ∧
       files w' = <[path := text]> (files w) ∧
       globalEffectCounter w < globalEffectCounter w' ∧
       effectCounter w < effectCounter w' ∧
       "Successfully modified " +:+ path ∈ console w').
Proof.
  unfold processFile. simpl.
  destruct (files w !! path) as [code|] eqn:Hf; simpl; [|by left].
  destruct (includes "useEffect" code); simpl; [|by left].
  pose proof (FileProcessorFacts.transformCode_result parse generate
                path code (effectCounter w)) as H.
  unfold transformCode in *.
  destruct (parse code) as [ast|]; simpl; [|by left].
  pose proof (transformAst_modified_found path ast (effectCounter w)) as Hn.
  destruct (transformAst path ast (effectCounter w)) as [out s|e s];
    simpl in *; [|by left].
  destruct (fileModified s) eqn:Hm; simpl; [|by left].
  destruct H as (ast0 & out0 & s0 & _ & _ & _ & _ & _ & _ & Hlt).
  destruct (String.eqb_spec (generate code out) "") as [Heq|Hne];
    simpl; [by left|].
  right. exists (generate code out). split; [done|]. split; [done|].
  split; [specialize (Hn eq_refl); lia|]. split; [done|].
  rewrite !elem_of_app, !list_elem_of_singleton. auto.
Qed.

End processFile.

Lemma bare_call_stops_the_file_witness :
  let parse := parse_only "useEffect" effect_then_bare in
  let w := World {[ "App.js" := "useEffect" ]} [] 0 0 in
  let w' := processFile parse (print_fixed "logged") "App.js" w in
  files w' = files w ∧ effectCounter w' = 1 ∧
  "Error processing App.js:" ∈ console w'.
Proof.
  destruct (bare_call_stops_the_file
              (parse_only "useEffect" effect_then_bare) (print_fixed "logged")
              "App.js" (World {[ "App.js" := "useEffect" ]} [] 0 0)
              "useEffect" effect_then_bare) as (H1 & _ & H3).
  - vm_compute. reflexivity.
  - vm_compute. reflexivity.
  - vm_compute. reflexivity.
  - vm_compute. reflexivity.
  - cbv zeta. split; [exact H1|]. split; [vm_compute; reflexivity|exact H3].
Defined.

End EffectFiles.

(** ** The function logger: scan pass, files and menu *)

Module FunctionRegistryFacts.
Import AstFacts WalkFacts WalkMore FunctionLogger FunctionRegistry Names.

Lemma upper_initial_starts_upper name :
  upper_initial name = true →
  starts_upper name = true ∧ nonempty (Some name) = Some name.
Proof.
  destruct name as [|c rest]; [done|]. unfold upper_initial, starts_upper.
  intros [H1 H2]%andb_true_iff. apply Nat.leb_le in H1, H2.
  split; [|done]. apply negb_true_iff, andb_false_iff. left.
  apply Nat.leb_gt. lia.
Qed.

(** The definition of a component is never given a log statement, however
    it was selected: a function declaration whose name starts with a
    capital, and an arrow function that initializes a variable of such a
    name, are left as they are. *)
Theorem component_definition_never_logged
    (filePath : string) (functionsToLog : gset string) (anc : list node)
    (name : string) (params : list node) (body : node) (s : state) :
  upper_initial name = true →
  enter filePath false functionsToLog anc
    (FunctionDeclaration (Some name) params body) s
  = Ok Continue s ∧
  enter filePath false functionsToLog
    (VariableDeclarator (Identifier name)
       (Some (ArrowFunctionExpression params body)) :: anc)
    (ArrowFunctionExpression params body) s
  = Ok Continue s.
Proof.
  intros Hname. destruct (upper_initial_starts_upper _ Hname) as [Hup Hne].
  assert (String.eqb name "" = false) as Hnonempty by by destruct name.
  split.
  - unfold enter. simpl. rewrite Hnonempty, Hup. simpl.
    destruct (bool_decide (name ∈ functionsToLog)); [|done].
    by rewrite bool_decide_eq_true_2.
  - unfold enter. simpl. rewrite Hnonempty, Hup. simpl.
    destruct (bool_decide (name ∈ functionsToLog)); [|done].
    by rewrite bool_decide_eq_true_2.
Qed.

Lemma component_definition_never_logged_witness :
  enter "App.js" false {[ "App" ]} []
    (FunctionDeclaration (Some "App") [] (BlockStatement []))
    (State ∅ ∅ false 0)
  = Ok Continue (State ∅ ∅ false 0).
Proof.
  exact (proj1 (component_definition_never_logged "App.js" {[ "App" ]} []
                  "App" [] (BlockStatement []) (State ∅ ∅ false 0) eq_refl)).
Defined.

(** What the visitor of the scan pass keeps. *)
Lemma enter_scan filePath fns anc n s :
  let s' := final (enter filePath true fns anc n s) in
  modified s' = modified s ∧ modifiedFunctions s' = modifiedFunctions s ∧
  (dom (functionHierarchy s) ⊆ dom (functionLocations s) →
   dom (functionHierarchy s') ⊆ dom (functionLocations s')).
Proof.
  unfold enter. destruct (is_function n); [|done].
  destruct (nonempty (getFunctionName n (head anc))) as [name|]; [|done].
  simpl. split; [done|]. split; [done|]. intros Hdom.
  rewrite dom_insert.
  repeat case_match; rewrite ?dom_insert;
    first [by apply union_mono_l | by apply union_subseteq_r'].
Qed.

(** What the visitor of the mutation pass keeps. *)
Lemma enter_mutate filePath fns anc n s :
  let s' := final (enter filePath false fns anc n s) in
  functionLocations s' = functionLocations s ∧
  functionHierarchy s' = functionHierarchy s ∧
  ((modified s = true ↔ 1 ≤ modifiedFunctions s) →
   (modified s' = true ↔ 1 ≤ modifiedFunctions s')).
Proof.
  unfold enter. destruct (is_function n); [|done].
  destruct (nonempty (getFunctionName n (head anc))) as [name|]; [|done].
  simpl. destruct (bool_decide (name ∈ fns)); [|done].
  destruct (bool_decide (_ = Some name)); [done|]. simpl.
  split; [done|]. split; [done|]. intros _. split; [lia|done].
Qed.

Section files.
Variable extname : string → string.
Variable parse : string → option node.
Variable generate : string → node → string.

Lemma processFile_scan filePath fns w :
  let r := processFile extname parse generate filePath true fns w in
  files (final r) = files w ∧
  (∀ results w', r = Ok results w' → results = Counts 0 0) ∧
  (dom (hierarchy w) ⊆ dom (locations w) →
   dom (hierarchy (final r)) ⊆ dom (locations (final r))).
Proof.
  unfold processFile. destruct (wanted extname filePath); simpl.
  2: { split; [done|]. split; [by intros ?? [= <- <-]|done]. }
  destruct (files w !! filePath) as [content|]; simpl; [|done].
  destruct (parse content) as [ast|]; simpl.
  2: { split; [done|]. split; [by intros ?? [= <- <-]|done]. }
  pose proof (traverse_final (enter filePath true fns)
    (λ s, modified s = false ∧
          (dom (hierarchy w) ⊆ dom (locations w) →
           dom (functionHierarchy s) ⊆ dom (functionLocations s)))
    (λ _, false)) as Hinv.
  specialize (Hinv (λ anc n s _ Hs,
    let '(conj Hm Hd) := Hs in
    let '(conj Hm' (conj _ Hd')) := enter_scan filePath fns anc n s in
    conj (eq_trans Hm' Hm) (λ H, Hd' (Hd H)))
    ast [] (State (locations w) (hierarchy w) false 0)
    (any_node_never ast) (conj eq_refl (λ H, H))).
  destruct (traverse _ _ _ _) as [ast' s|e s]; simpl in *.
  - destruct Hinv as [-> Hd]. simpl.
    split; [done|]. split; [by intros ?? [= <- <-]|done].
  - destruct Hinv as [_ Hd].
    split; [done|]. split; [by intros ?? [= <- <-]|done].
Qed.

Lemma processFile_mutate filePath fns w :
  let r := processFile extname parse generate filePath false fns w in
  locations (final r) = locations w ∧ hierarchy (final r) = hierarchy w ∧
  (∀ other, other ≠ filePath → files (final r) !! other = files w !! other) ∧
  ∀ results w', r = Ok results w' →
    modifiedFiles results ≤ 1 ∧
    modifiedFiles results ≤ modifiedFunctionCount results ∧
    (modifiedFiles results = 0 → files w' = files w) ∧
    (modifiedFiles results = 1 →
     ∃ text, files w' = <[filePath := text]> (files w) ∧
       "Modified: " +:+ filePath +:+ " ("
         +:+ pretty (modifiedFunctionCount results) +:+ " functions)"
       ∈ console w').
Proof.
  unfold processFile. destruct (wanted extname filePath); simpl.
  2: { split; [done|]. split; [done|]. split; [done|].
       intros ?? [= <- <-]. simpl. split; [lia|]. split; [lia|].
       split; [done|lia]. }
  destruct (files w !! filePath) as [content|]; simpl; [|done].
  destruct (parse content) as [ast|]; simpl.
  2: { split; [done|]. split; [done|]. split; [done|].
       intros ?? [= <- <-]. simpl. split; [lia|]. split; [lia|].
       split; [done|lia]. }
  pose proof (traverse_final (enter filePath false fns)
    (λ s, functionLocations s = locations w ∧
          functionHierarchy s = hierarchy w ∧
          (modified s = true ↔ 1 ≤ modifiedFunctions s))
    (λ _, false)) as Hinv.
  specialize (Hinv (λ anc n s _ Hs,
    let '(conj Hl (conj Hh Hm)) := Hs in
    let '(conj Hl' (conj Hh' Hm')) := enter_mutate filePath fns anc n s in
    conj (eq_trans Hl' Hl) (conj (eq_trans Hh' Hh) (Hm' Hm)))
    ast [] (State (locations w) (hierarchy w) false 0)
    (any_node_never ast)).
  destruct Hinv as (Hl & Hh & Hm).
  { simpl. split; [done|]. split; [done|]. split; [done|lia]. }
  destruct (traverse _ _ _ _) as [ast' s|e s]; simpl in *.
  - destruct (modified s) eqn:Hmod; simpl.
    + split; [done|]. split; [done|]. split.
      { intros other Hne. by rewrite lookup_insert_ne. }
      intros ?? [= <- <-]. simpl. split; [lia|].
      split; [apply Hm; done|]. split; [lia|]. intros _.
      eexists. split; [done|].
      rewrite elem_of_app, list_elem_of_singleton. by right.
    + split; [done|]. split; [done|]. split; [done|].
      intros ?? [= <- <-]. simpl. split; [lia|]. split; [lia|].
      split; [done|lia].
  - split; [done|]. split; [done|]. split; [done|].
    intros ?? [= <- <-]. simpl. split; [lia|]. split; [lia|].
    split; [done|lia].
Qed.

(** The scan pass only reads: whatever files it goes through, the disk
    is afterwards as it was and the totals it returns are zero. *)
Theorem scan_pass_writes_nothing
    (paths : list string) (functionsToLog : gset string) (w : world) :
  let r := processDirectory extname parse generate paths true functionsToLog w in
  files (final r) = files w ∧
  ∀ totals w', r = Ok totals w' → totals = Counts 0 0.
Proof.
  revert w. induction paths as [|p paths IH]; intros w; simpl.
  - split; [done|]. by intros ?? [= <- <-].
  - destruct (processFile_scan p functionsToLog w) as (Hf & Hc & _).
    destruct (processFile _ _ _ p true _ w) as [results w1|e w1]; simpl in *;
      [|done].
    rewrite (Hc _ _ eq_refl). simpl.
    destruct (IH w1) as (Hf' & Hc').
    destruct (processDirectory _ _ _ paths true _ w1) as [totals w2|e w2];
      simpl in *.
    + split; [congruence|]. intros ?? [= <- <-].
      by rewrite (Hc' _ _ eq_refl).
    + split; [congruence|done].
Qed.

(** After the scan every function that has a recorded parent has a
    recorded location: the names the menu can offer all have one. *)
Theorem scanned_parent_has_location
    (paths : list string) (functionsToLog : gset string) (w : world) :
  dom (hierarchy w) ⊆ dom (locations w) →
  let w' :=
    final (processDirectory extname parse generate paths true
             functionsToLog w) in
  dom (hierarchy w') ⊆ dom (locations w').
Proof.
  revert w. induction paths as [|p paths IH]; intros w Hw; simpl; [done|].
  destruct (processFile_scan p functionsToLog w) as (_ & _ & Hd).
  specialize (Hd Hw).
  destruct (processFile _ _ _ p true _ w) as [results w1|e w1]; simpl in *;
    [|done].
  specialize (IH w1 Hd).
  by destruct (processDirectory _ _ _ paths true _ w1).
Qed.

(** The mutation pass leaves the two maps alone and touches no file
    outside the ones it was given; it counts at most one modified file per
    file and at least one function per modified file, and when it counts
    no modified file the disk is as it was. *)
Theorem mutation_pass_totals
    (paths : list string) (functionsToLog : gset string) (w : world)
    (totals : counts) (w' : world) :
  processDirectory extname parse generate paths false functionsToLog w
  = Ok totals w' →
  modifiedFiles totals ≤ length paths ∧
  modifiedFiles totals ≤ modifiedFunctionCount totals ∧
  (modifiedFiles totals = 0 → files w' = files w) ∧
  (∀ other, other ∉ paths → files w' !! other = files w !! other) ∧
  locations w' = locations w ∧ hierarchy w' = hierarchy w.
Proof.
  revert w totals w'. induction paths as [|p paths IH]; intros w totals w';
    simpl.
  - intros [= <- <-]. simpl. repeat split; done || lia.
  - destruct (processFile_mutate p functionsToLog w) as (Hl & Hh & Ho & Hr).
    destruct (processFile _ _ _ p false _ w) as [results w1|e w1]; [|done].
    simpl in *. destruct (Hr _ _ eq_refl) as (H1 & H2 & H3 & _).
    destruct (processDirectory _ _ _ paths false _ w1) as [rest w2|e w2]
      eqn:Hd; [|done].
    intros [= <- <-]. simpl.
    destruct (IH _ _ _ Hd) as (I1 & I2 & I3 & I4 & I5 & I6).
    split; [lia|]. split; [lia|]. split; [|split; [|split]].
    + intros H0. rewrite I3 by lia. apply H3. lia.
    + intros other Hne. rewrite not_elem_of_cons in Hne.
      destruct Hne as [Hne1 Hne2]. rewrite I4 by done. by apply Ho.
    + congruence.
    + congruence.
Qed.

End files.

Lemma scanned_parent_has_location_witness :
  let parse := Runs.parse_only "App" app_with_handler in
  let w :=
    final (processDirectory (λ _, ".js") parse (λ _ _, "") ["App.js"] true ∅
             (World {[ "App.js" := "App" ]} [] ∅ ∅)) in
  hierarchy w = {[ "App" := "App"; "handleClick" := "App" ]} ∧
  dom (hierarchy w) ⊆ dom (locations w).
Proof.
  split; [vm_compute; reflexivity|].
  apply (scanned_parent_has_location (λ _, ".js")
           (Runs.parse_only "App" app_with_handler) (λ _ _, "")
           ["App.js"] ∅ (World {[ "App.js" := "App" ]} [] ∅ ∅)).
  simpl. done.
Defined.

Lemma mutation_pass_totals_witness :
  let parse := Runs.parse_only "App" app_with_handler in
  ∃ totals w',
    processDirectory (λ _, ".js") parse (λ _ _, "logged") ["App.js"] false
      {[ "handleClick" ]} (World {[ "App.js" := "App" ]} [] ∅ ∅)
    = Ok totals w' ∧
    modifiedFiles totals = 1 ∧ modifiedFunctionCount totals = 1 ∧
    modifiedFiles totals ≤ modifiedFunctionCount totals.
Proof.
  eexists _, _. split; [vm_compute; reflexivity|].
  split; [reflexivity|]. split; [reflexivity|].
  refine (proj1 (proj2 (mutation_pass_totals (λ _, ".js")
            (Runs.parse_only "App" app_with_handler) (λ _ _, "logged")
            ["App.js"] {[ "handleClick" ]}
            (World {[ "App.js" := "App" ]} [] ∅ ∅) _ _ _))).
  vm_compute. reflexivity.
Defined.

End FunctionRegistryFacts.

(** ** The function logger: categories and selections *)

Module FunctionMenuFacts.
Import FunctionRegistry FunctionMenu Names.

Lemma categorizeFunctions_within (h : gmap string string) :
  let r := categorizeFunctions h in
  components r = ∅ ∧ handlers r ∪ hooks r ∪ utils r ⊆ dom h.
Proof.
  unfold categorizeFunctions.
  apply (set_fold_ind_L (λ r X,
    components r = ∅ ∧ handlers r ∪ hooks r ∪ utils r ⊆ X)).
  - simpl. split; [done|]. intros name. rewrite !elem_of_union.
    rewrite !elem_of_empty. tauto.
  - intros x X r Hx [Hc Hr]. unfold categorize.
    destruct (String.prefix "handle" x || String.prefix "on" x);
      [|destruct (String.prefix "use" x)]; simpl;
      (split; [done|]); intros name; specialize (Hr name); revert Hr;
      rewrite !elem_of_union, ?elem_of_singleton; tauto.
Qed.

Lemma category_within r (h : gmap string string) selection X :
  components r = ∅ →
  handlers r ∪ hooks r ∪ utils r ⊆ dom h →
  category r selection = Some X →
  X ⊆ dom h ∧ (selection = "1" → X = ∅).
Proof.
  intros Hc Hsub. unfold category.
  destruct (String.eqb_spec selection "1") as [->|H1].
  { intros [= <-]. rewrite Hc. split; [apply empty_subseteq|done]. }
  destruct (String.eqb selection "2").
  { intros [= <-]. split; [|done]. etrans; [|exact Hsub].
    etrans; [apply union_subseteq_r|apply union_subseteq_l]. }
  destruct (String.eqb selection "3").
  { intros [= <-]. split; [|done]. etrans; [|exact Hsub].
    etrans; [apply union_subseteq_l|apply union_subseteq_l]. }
  destruct (String.eqb selection "4"); [|done].
  intros [= <-]. split; [|done]. etrans; [|exact Hsub].
  apply union_subseteq_r.
Qed.

(** The registry after [categorizeFunctions]: no component, and the
    names that have a recorded parent, each in the one category its
    prefix gives it (handlers before hooks, the rest utilities). *)
Theorem categories_partition_hierarchy (h : gmap string string) :
  let r := categorizeFunctions h in
  let handler name := String.prefix "handle" name || String.prefix "on" name in
  components r = ∅ ∧
  ∀ name,
    (name ∈ handlers r ↔ name ∈ dom h ∧ handler name = true) ∧
    (name ∈ hooks r ↔
       name ∈ dom h ∧ handler name = false ∧ String.prefix "use" name = true) ∧
    (name ∈ utils r ↔
       name ∈ dom h ∧ handler name = false ∧ String.prefix "use" name = false).
Proof.
  unfold categorizeFunctions.
  apply (set_fold_ind_L (λ r X,
    let handler name :=
      String.prefix "handle" name || String.prefix "on" name in
    components r = ∅ ∧
    ∀ name,
      (name ∈ handlers r ↔ name ∈ X ∧ handler name = true) ∧
      (name ∈ hooks r ↔
         name ∈ X ∧ handler name = false ∧ String.prefix "use" name = true) ∧
      (name ∈ utils r ↔
         name ∈ X ∧ handler name = false ∧ String.prefix "use" name = false))).
  - simpl. split; [done|]. intros name.
    rewrite !elem_of_empty. tauto.
  - intros x X r Hx [Hc Hr]. unfold categorize.
    destruct (String.prefix "handle" x || String.prefix "on" x) eqn:Hh;
      [|destruct (String.prefix "use" x) eqn:Hu]; simpl;
      (split; [done|]); intros name; destruct (Hr name) as (H1 & H2 & H3);
      rewrite ?elem_of_union, ?elem_of_singleton, H1, H2, H3;
      (split; [|split]);
      intuition (simplify_eq; rewrite ?Hh, ?Hu in *; auto; congruence).
Qed.

(** Only functions with a recorded parent can be chosen for logging, and
    the category of the components never holds one: selecting it alone
    selects no function. *)
Theorem selection_within_hierarchy
    (h : gmap string string) (selections : gset string) :
  let chosen := functionsToLog (categorizeFunctions h) selections in
  chosen ⊆ dom h ∧ (selections ⊆ {[ "1" ]} → chosen = ∅).
Proof.
  simpl.
  destruct (categorizeFunctions_within h) as [Hc Hsub].
  unfold functionsToLog.
  apply (set_fold_ind_L (λ acc X,
           acc ⊆ dom h ∧ (X ⊆ {[ "1" ]} → acc = ∅))).
  - split; [apply empty_subseteq|done].
  - intros selection X acc Hx [Hacc Hone].
    destruct (category (categorizeFunctions h) selection) as [Y|] eqn:Hcat;
      simpl.
    + destruct (category_within _ h _ _ Hc Hsub Hcat) as [HY Hempty]. split.
      * by apply union_least.
      * intros Hsel. rewrite Hempty, Hone.
        -- apply (left_id_L ∅ (∪)).
        -- etrans; [|exact Hsel]. apply union_subseteq_r.
        -- assert (selection ∈ ({[ "1" ]} : gset string)) as Hin.
           { apply Hsel. apply elem_of_union. left.
             by apply elem_of_singleton. }
           by apply elem_of_singleton in Hin.
    + split.
      * rewrite (left_id_L ∅ (∪)). done.
      * intros Hsel. rewrite Hone; [apply (left_id_L ∅ (∪))|].
        etrans; [|exact Hsel]. apply union_subseteq_r.
Qed.

Lemma selection_within_hierarchy_witness :
  let h : gmap string string :=
    {[ "App" := "App"; "handleClick" := "App" ]} in
  functionsToLog (categorizeFunctions h) {[ "1" ]} = ∅ ∧
  functionsToLog (categorizeFunctions h) {[ "3" ]} = {[ "handleClick" ]}.
Proof.
  split; [|vm_compute; reflexivity].
  exact (proj2 (selection_within_hierarchy
                  {[ "App" := "App"; "handleClick" := "App" ]} {[ "1" ]})
           (reflexivity _)).
Defined.

(** Toggling. *)
Lemma toggle_elem x num s :
  x ∈ toggle num s ↔ (x ∈ s ∧ x ≠ num) ∨ (x = num ∧ num ∉ s).
Proof.
  unfold toggle. destruct (decide (num ∈ s)) as [Hin|Hout].
  - rewrite bool_decide_eq_true_2 by done.
    rewrite elem_of_difference, elem_of_singleton. tauto.
  - rewrite bool_decide_eq_false_2 by done.
    rewrite elem_of_union, elem_of_singleton.
    destruct (decide (x = num)) as [Heq|]; subst; tauto.
Qed.

Lemma toggle_twice num s : toggle num (toggle num s) = s.
Proof.
  apply set_eq. intros x. rewrite !toggle_elem.
  destruct (decide (x = num)) as [Heq|], (decide (num ∈ s)); subst; tauto.
Qed.

Lemma toggle_comm a b s : toggle a (toggle b s) = toggle b (toggle a s).
Proof.
  apply set_eq. intros x. rewrite !toggle_elem.
  destruct (decide (x = a)), (decide (x = b)),
    (decide (a ∈ s)), (decide (b ∈ s)), (decide (a = b));
    subst; tauto.
Qed.

Lemma toggle_foldl num l s :
  toggle num (foldl (λ acc n, toggle n acc) s l)
  = foldl (λ acc n, toggle n acc) (toggle num s) l.
Proof.
  revert s. induction l as [|n l IH]; intros s; simpl; [done|].
  by rewrite IH, toggle_comm.
Qed.

Lemma toggle_list_twice l s :
  foldl (λ acc n, toggle n acc) (foldl (λ acc n, toggle n acc) s l) l = s.
Proof.
  revert s. induction l as [|n l IH]; intros s; simpl; [done|].
  by rewrite toggle_foldl, toggle_twice.
Qed.

Lemma toggle_menu num s :
  num ∈ menu_numbers → s ⊆ menu_numbers → toggle num s ⊆ menu_numbers.
Proof.
  intros Hnum Hs x. rewrite toggle_elem. intros [[? _]|[-> _]]; auto.
Qed.

(** The menu holds numbers from 1 to 4 only, whatever is typed, and
    typing the same line a second time takes back what the first did to
    the selections (unless the line is the command that clears them). *)
Theorem same_input_twice_restores (input : string) (selections : gset string) :
  selections ⊆ menu_numbers →
  (handleInput input selections).2 ⊆ menu_numbers ∧
  (input ≠ "c" →
   (handleInput input (handleInput input selections).2).2 = selections).
Proof.
  intros Hsel. unfold handleInput.
  destruct (String.eqb input "q"); [done|].
  destruct (String.eqb input "l"); [done|].
  destruct (String.eqb_spec input "c") as [->|Hc].
  { split; [apply empty_subseteq|done]. }
  destruct (String.eqb input "a"); [done|]. simpl. split.
  - unfold handleNumbers. revert selections Hsel.
    assert (Forall (λ n, n ∈ menu_numbers) (numbers input)) as Hn.
    { unfold numbers. apply Forall_forall. intros n [Hn _]%list_elem_of_filter.
      unfold menu_numbers. rewrite !elem_of_union, !elem_of_singleton.
      rewrite !elem_of_cons in Hn. rewrite elem_of_nil in Hn. tauto. }
    induction Hn as [|n l Hn _ IH]; intros s Hs; simpl; [done|].
    apply IH. by apply toggle_menu.
  - intros _. apply toggle_list_twice.
Qed.

Lemma same_input_twice_restores_witness :
  (handleInput "1 3" {[ "3" ]}).2 = {[ "1" ]} ∧
  (handleInput "1 3" (handleInput "1 3" {[ "3" ]}).2).2 = {[ "3" ]}.
Proof.
  split; [vm_compute; reflexivity|].
  refine (proj2 (same_input_twice_restores "1 3" {[ "3" ]} _) _).
  - apply (bool_decide_unpack _). vm_compute. reflexivity.
  - done.
Defined.

End FunctionMenuFacts.

(** ** More on the profiler wrapper *)

Module ProfilerMore.
Import AstFacts WalkFacts RewriteFacts ProfilerFacts Profiler Returns.

Lemma decision_bare name n :
  enterReturnStatement name n = Continue ↔ returns_bare_jsx n = false.
Proof.
  unfold enterReturnStatement, returns_bare_jsx.
  destruct n as [k fs]. destruct k; try done.
  destruct fs as [|[|[arg|]| |] [|]]; try done. simpl.
  destruct (has_type arg "JSXElement"), (has_type arg "JSXFragment"),
    (bool_decide (opening_name arg = Some "Profiler")); simpl; done.
Qed.

Lemma bare_is_jsx n : returns_bare_jsx n = true → returns_jsx n = true.
Proof.
  unfold returns_bare_jsx, returns_jsx.
  destruct n as [k fs]. destruct k; try done.
  destruct fs as [|[|[arg|]| |] [|]]; try done.
  destruct (has_type arg "JSXElement"), (has_type arg "JSXFragment"),
    (bool_decide (opening_name arg = Some "Profiler")); simpl; done.
Qed.

Section wrap.
Variable name : string.
Local Abbreviation v := (enterReturnStatement name).

Lemma slot_all_map (P : node → Prop) (g : node → node) fs :
  Forall (slot_all (λ c, P (g c))) fs →
  Forall (slot_all P) (map (slot_map g) fs).
Proof.
  induction 1 as [|sl fs Hsl _ IH]; simpl; constructor; [|done].
  destruct sl as [a|[a|]|l|l]; simpl in *; try done.
  - induction Hsl; simpl; by constructor.
  - induction Hsl as [|[a|] l Ha _ IHl]; simpl; by constructor.
Qed.

(** The walk leaves no [return] of JSX that is not wrapped. *)
Lemma rewrite_no_bare n : any_node returns_bare_jsx (rewrite v n) = false.
Proof.
  induction n as [k fs IH] using node_ind'.
  change (rewrite v (Node k fs))
    with (apply_action (v (Node k fs))
            (Node k (map (slot_map (rewrite v)) fs))).
  destruct (v (Node k fs)) as [|f] eqn:Hv.
  - simpl apply_action. apply any_node_false. split.
    + apply (proj1 (decision_bare name _)).
      by apply (proj2 (decision_stable name k fs)).
    + by apply slot_all_map.
  - unfold enterReturnStatement in Hv. destruct k; try done.
    destruct fs as [|[|[arg|]| |] [|]]; try done.
    simpl in Hv. repeat case_match; simplify_eq.
    all: apply Forall_cons in IH as [Harg _]; simpl in Harg.
    all: simpl map; simpl apply_action.
    all: simpl; by rewrite Harg.
Qed.

(** Where no [return] of JSX stands, the walk changes nothing. *)
Lemma rewrite_fixed n : any_node returns_jsx n = false → rewrite v n = n.
Proof.
  induction n as [k fs IH] using node_ind'.
  intros [Hroot Hkids]%any_node_false.
  assert (v (Node k fs) = Continue) as Hv.
  { apply (proj2 (decision_bare name _)).
    destruct (returns_bare_jsx (Node k fs)) eqn:Hb; [|done].
    apply bare_is_jsx in Hb. congruence. }
  change (rewrite v (Node k fs))
    with (apply_action (v (Node k fs))
            (Node k (map (slot_map (rewrite v)) fs))).
  rewrite Hv. simpl. f_equal. clear Hroot Hv.
  induction fs as [|sl fs IHfs]; simpl; [done|].
  apply Forall_cons in IH as [Hsl IH], Hkids as [Ksl Hkids].
  rewrite IHfs by done. f_equal.
  destruct sl as [a|[a|]|l|l]; simpl in *.
  - by rewrite Hsl.
  - by rewrite Hsl.
  - done.
  - f_equal. induction l as [|a l IHl]; simpl; [done|].
    apply Forall_cons in Hsl as [Ha Hsl], Ksl as [Ka Ksl].
    by rewrite Ha, IHl.
  - f_equal. induction l as [|[a|] l IHl]; simpl; [done|..];
      apply Forall_cons in Hsl as [Ha Hsl], Ksl as [Ka Ksl].
    + simpl in *. by rewrite Ha, IHl.
    + by rewrite IHl.
Qed.

End wrap.

Lemma wrap_equation anc fn :
  wrapReturnWithProfiler anc fn
  = Node (type_of fn)
      (map (slot_map (rewrite (enterReturnStatement
                                 (componentName_of fn (head anc)))))
         (fields_of fn)).
Proof.
  unfold wrapReturnWithProfiler.
  by rewrite (traverse_inside_rewrite _ (enterReturnStatement
                (componentName_of fn (head anc)))).
Qed.

(** After the wrap every [return] of a JSX element or fragment below the
    function returns a [Profiler] element: those of the component and
    those of the functions nested in it alike. *)
Theorem every_jsx_return_wrapped (anc : list node) (fn : node) :
  below returns_bare_jsx (wrapReturnWithProfiler anc fn) = false.
Proof.
  rewrite wrap_equation. unfold below. simpl fields_of.
  apply existsb_false_Forall.
  eapply Forall_impl;
    [apply (slot_all_map (λ c, any_node returns_bare_jsx c = false))|].
  2: { intros sl Hsl. destruct sl as [a|[a|]|l|l]; simpl in *; try done.
       - by apply existsb_false_Forall.
       - apply existsb_false_Forall. eapply Forall_impl; [exact Hsl|].
         by intros [a|]. }
  apply Forall_forall. intros sl _.
  destruct sl as [a|[a|]|l|l]; simpl; try done.
  - apply rewrite_no_bare.
  - apply rewrite_no_bare.
  - apply Forall_forall. intros. apply rewrite_no_bare.
  - apply Forall_forall. intros [a|] _; simpl; [|done]. apply rewrite_no_bare.
Qed.

Lemma every_jsx_return_wrapped_witness :
  below returns_jsx list_component = true ∧
  below returns_bare_jsx (wrapReturnWithProfiler [] list_component) = false ∧
  count_nodes returns_jsx (wrapReturnWithProfiler [] list_component) = 2.
Proof.
  split; [reflexivity|]. split; [|vm_compute; reflexivity].
  exact (every_jsx_return_wrapped [] list_component).
Defined.

(** The scan for a returned JSX value. *)
Lemma each_or {A} (f : A → bool → outcome exn bool A) (q : A → bool) l :
  Forall (λ a, ∀ b, f a b = Ok a (b || q a)) l →
  ∀ b, each f l b = Ok l (b || existsb q l).
Proof.
  induction 1 as [|a l Ha _ IH]; intros b; simpl.
  - by rewrite orb_false_r.
  - unfold bind. rewrite Ha, IH. by rewrite orb_assoc.
Qed.

Lemma field_or (f : node → bool → outcome exn bool node) (q : node → bool) sl :
  slot_all (λ a, ∀ b, f a b = Ok a (b || q a)) sl →
  ∀ b, field f sl b = Ok sl (b || slot_any q sl).
Proof.
  destruct sl as [a|[a|]|l|l]; simpl; intros H b; unfold bind; simpl.
  - by rewrite H.
  - unfold bind. by rewrite H.
  - by rewrite orb_false_r.
  - by rewrite (each_or f q l H).
  - rewrite (each_or (maybe f) (from_option q false)); [done|].
    eapply Forall_impl; [exact H|]. intros [a|]; simpl.
    + intros Ha b'. unfold bind. by rewrite Ha.
    + intros _ b'. by rewrite orb_false_r.
Qed.

Lemma fields_scan anc fs :
  Forall (slot_all (λ c, ∀ anc b,
            traverse ProfilerScan.enterReturnStatement anc c b
            = Ok c (b || any_node returns_jsx c))) fs →
  ∀ b, each (field (traverse ProfilerScan.enterReturnStatement anc)) fs b
       = Ok fs (b || existsb (slot_any (any_node returns_jsx)) fs).
Proof.
  intros H. apply each_or. eapply Forall_impl; [exact H|].
  intros sl Hsl. apply field_or.
  destruct sl as [a|[a|]|l|l]; simpl in *; auto.
  - eapply Forall_impl; [exact Hsl|]. auto.
  - eapply Forall_impl; [exact Hsl|]. intros [a|]; simpl; auto.
Qed.

Lemma traverse_scan n :
  ∀ anc b, traverse ProfilerScan.enterReturnStatement anc n b
           = Ok n (b || any_node returns_jsx n).
Proof.
  induction n as [k fs IH] using node_ind'. intros anc b.
  rewrite WalkMore.traverse_eq. unfold bind.
  assert (ProfilerScan.enterReturnStatement anc (Node k fs) b
          = Ok Continue (b || returns_jsx (Node k fs))) as ->.
  { unfold ProfilerScan.enterReturnStatement, returns_jsx.
    destruct k; try by rewrite orb_false_r.
    destruct fs as [|[|[arg|]| |] [|]]; try by rewrite orb_false_r.
    destruct (_ || _); by rewrite ?orb_true_r, ?orb_false_r. }
  simpl fields_of. rewrite (fields_scan _ _ IH). simpl.
  by rewrite orb_assoc.
Qed.

(** [isReactComponent] says yes to a node with a capitalized name and a
    [return] of JSX somewhere below it, and to no other. *)
Lemma isReactComponent_spec anc n :
  ProfilerScan.isReactComponent anc n
  = match
      FunctionLogger.nonempty (ProfilerScan.id_name n)
      ∪ FunctionLogger.nonempty (head anc ≫= ProfilerScan.id_name)
    with
    | Some name => ProfilerScan.capitalized name && below returns_jsx n
    | None => false
    end.
Proof.
  unfold ProfilerScan.isReactComponent. case_match; [|done].
  destruct (ProfilerScan.capitalized _); [|done]. simpl.
  unfold traverse_inside, bind.
  assert (Forall (slot_all (λ c, ∀ anc b,
            traverse ProfilerScan.enterReturnStatement anc c b
            = Ok c (b || any_node returns_jsx c))) (fields_of n)) as Hkids.
  { apply Forall_forall. intros sl _.
    destruct sl as [a|[a|]|l|l]; simpl; try done.
    - intros. apply traverse_scan.
    - intros. apply traverse_scan.
    - apply Forall_forall. intros. apply traverse_scan.
    - apply Forall_forall. intros [a|] _; simpl; [|done].
      intros. apply traverse_scan. }
  by rewrite (fields_scan _ _ Hkids).
Qed.

(** A function without a [return] of JSX below it, such as an arrow
    function whose body is the JSX expression itself, is not taken for a
    component, whatever its name; and the wrap would leave it as it is. *)
Theorem no_jsx_return_no_component (anc : list node) (n : node) :
  below returns_jsx n = false →
  ProfilerScan.isReactComponent anc n = false ∧
  wrapReturnWithProfiler anc n = n ∧
  ∀ id fn, n = VariableDeclarator id (Some fn) →
           wrapReturnWithProfiler (n :: anc) fn = fn.
Proof.
  intros Hn.
  assert (∀ m anc', below returns_jsx m = false →
                    wrapReturnWithProfiler anc' m = m) as Hwrap.
  { intros [k fs] anc' Hm. rewrite wrap_equation. simpl. f_equal.
    generalize (componentName_of (Node k fs) (head anc')). intros nm.
    unfold below in Hm. simpl in Hm.
    apply existsb_false_Forall in Hm.
    induction Hm as [|sl fs' Hsl _ IH]; simpl; [done|]. rewrite IH. f_equal.
    destruct sl as [a|[a|]|l|l]; simpl in *.
    - by rewrite rewrite_fixed.
    - by rewrite rewrite_fixed.
    - done.
    - f_equal. apply existsb_false_Forall in Hsl.
      induction Hsl as [|a l Ha _ IHl]; simpl; [done|].
      by rewrite rewrite_fixed, IHl.
    - f_equal. apply existsb_false_Forall in Hsl.
      induction Hsl as [|[a|] l Ha _ IHl]; simpl; [done|..].
      + simpl in Ha. by rewrite rewrite_fixed, IHl.
      + by rewrite IHl. }
  split; [|split].
  - rewrite isReactComponent_spec, Hn. case_match; [|done].
    apply andb_false_r.
  - by apply Hwrap.
  - intros id fn ->. apply Hwrap. unfold below in *. simpl in *.
    apply orb_false_iff in Hn as [_ Hn]. apply orb_false_iff in Hn as [Hn _].
    destruct fn as [k fs]. simpl in Hn. by apply orb_false_iff in Hn as [_ ?].
Qed.

Lemma no_jsx_return_no_component_witness :
  let decl := VariableDeclarator (Identifier "Card") (Some card) in
  ProfilerScan.isReactComponent [] decl = false ∧
  wrapReturnWithProfiler [decl] card = card.
Proof.
  destruct (no_jsx_return_no_component []
              (VariableDeclarator (Identifier "Card") (Some card)) eq_refl)
    as (H1 & _ & H3).
  split; [exact H1|]. exact (H3 _ _ eq_refl).
Defined.

End ProfilerMore.

(** ** The component graph *)

Module GraphFacts.
Import ComponentAnalyzer Graph.

Lemma get_stored key map component :
  get key map = Some component → component ∈ map.*2.
Proof.
  unfold get. destruct (find _ _) as [entry|] eqn:Hf; [|done].
  intros [= <-]. apply find_some in Hf as [Hin _].
  apply list_elem_of_fmap. exists entry. split; [done|].
  by apply list_elem_of_In.
Qed.

Lemma stored_names_size map : size (stored_names map) ≤ length map.
Proof.
  unfold stored_names. induction map as [|entry map IH]; csimpl.
  - by vm_compute.
  - rewrite size_union_alt, size_singleton.
    etrans; [|apply le_n_S, IH]. apply le_n_S, subseteq_size.
    apply subseteq_difference_l. done.
Qed.

Section forest.
Variable names : gset string.

Lemma collect_spec {A}
    (step : A → gset string → option (option tree * gset string))
    (bound : gset string → Prop) (entries : list A) :
  (∀ v v', bound v → v ⊆ v' → bound v') →
  Forall (steps_well names step bound) entries →
  ∀ visited, bound visited →
    ∃ nodes visited',
      collect step entries visited = Some (nodes, visited') ∧
      visited ⊆ visited' ∧ visited' ⊆ (visited ∪ names) ∧
      NoDup (forest_names nodes) ∧
      ∀ v, v ∈ forest_names nodes → (v ∉ visited) ∧ v ∈ visited'.
Proof.
  intros Hmono Hsteps visited Hbound. unfold collect.
  assert (∀ nodes0 visited1,
    bound visited1 → visited ⊆ visited1 → visited1 ⊆ (visited ∪ names) →
    NoDup (forest_names nodes0) →
    (∀ v, v ∈ forest_names nodes0 → (v ∉ visited) ∧ v ∈ visited1) →
    ∃ nodes visited',
      foldl
        (λ acc entry,
           '(nodes, visited) ← acc;
           '(node, visited) ← step entry visited;
           Some (match node with
                 | Some t => nodes ++ [t]
                 | None => nodes
                 end, visited))
        (Some (nodes0, visited1)) entries = Some (nodes, visited') ∧
      visited ⊆ visited' ∧ visited' ⊆ (visited ∪ names) ∧
      NoDup (forest_names nodes) ∧
      ∀ v, v ∈ forest_names nodes → (v ∉ visited) ∧ v ∈ visited') as Hloop.
  { induction Hsteps as [|entry entries Hstep _ IH];
      intros nodes0 visited1 Hb Hsub Hup Hnd Hin; simpl.
    - by exists nodes0, visited1.
    - destruct (Hstep visited1 Hb)
        as (node & visited2 & -> & Hsub2 & Hup2 & Hnd2 & Hin2).
      simpl. apply IH.
      + by apply (Hmono visited1).
      + by etrans.
      + intros x Hx. apply Hup2 in Hx. apply elem_of_union in Hx as [Hx|Hx].
        * by apply Hup.
        * apply elem_of_union. by right.
      + destruct node as [t|]; [|done]. simpl in *.
        unfold forest_names in *. rewrite fmap_app, concat_app. simpl.
        rewrite app_nil_r. apply NoDup_app. split; [done|]. split; [|done].
        intros x Hx1 Hx2. destruct (Hin _ Hx1) as [_ ?].
        by destruct (Hin2 _ Hx2) as [? _].
      + intros x Hx. destruct node as [t|]; simpl in *.
        * unfold forest_names in Hx. rewrite fmap_app, concat_app in Hx.
          simpl in Hx. rewrite app_nil_r in Hx.
          apply elem_of_app in Hx as [Hx|Hx].
          -- destruct (Hin _ Hx). split; [done|]. by apply Hsub2.
          -- destruct (Hin2 _ Hx) as [Hout ?]. split; [|done].
             intros ?. apply Hout. by apply Hsub.
        * destruct (Hin _ Hx). split; [done|]. by apply Hsub2. }
  apply Hloop; try done.
  - apply union_subseteq_l.
  - apply NoDup_nil_2.
  - intros v Hv. by apply elem_of_nil in Hv.
Qed.

End forest.

(** [buildTree] with fuel for every component not yet visited. *)
Lemma buildTree_spec map fuel :
  ∀ component,
    component ∈ map.*2 →
    steps_well (stored_names map) (buildTree fuel map)
      (λ visited, size (stored_names map ∖ visited) < fuel) component.
Proof.
  induction fuel as [|fuel IH]; intros component Hc visited Hsize; [lia|].
  simpl. destruct (decide (name component ∈ visited)) as [Hin|Hout].
  { rewrite bool_decide_eq_true_2 by done. exists None, visited.
    split; [done|]. split; [done|]. split; [apply union_subseteq_l|].
    split; [apply NoDup_nil_2|]. intros v Hv. by apply elem_of_nil in Hv. }
  rewrite bool_decide_eq_false_2 by done.
  assert (name component ∈ stored_names map) as Hname.
  { unfold stored_names. apply elem_of_list_to_set.
    apply list_elem_of_fmap. by exists component. }
  set (visited1 := {[name component]} ∪ visited).
  assert (size (stored_names map ∖ visited1) < fuel) as Hsize1.
  { assert (stored_names map ∖ visited1 ⊂ stored_names map ∖ visited) as Hlt.
    { split.
      - apply difference_mono_l. apply union_subseteq_r.
      - intros Hsub. specialize (Hsub (name component)).
        rewrite !elem_of_difference in Hsub.
        destruct Hsub as [_ Hn]; [done|]. apply Hn.
        apply elem_of_union. left. by apply elem_of_singleton. }
    apply subset_size in Hlt. lia. }
  destruct (collect_spec (stored_names map)
              (λ childName visited,
                 match get childName map with
                 | Some childComponent =>
                     buildTree fuel map childComponent visited
                 | None => Some (None, visited)
                 end)
              (λ visited, size (stored_names map ∖ visited) < fuel)
              (children component)) with (visited := visited1)
    as (nodes & visited' & -> & Hsub & Hup & Hnd & Hin).
  - intros v v' Hv Hvv'. eapply Nat.le_lt_trans; [|exact Hv].
    apply subseteq_size. by apply difference_mono_l.
  - apply Forall_forall. intros childName _ v Hv.
    destruct (get childName map) as [child|] eqn:Hget.
    + apply IH; [|done]. by eapply get_stored.
    + exists None, v. split; [done|]. split; [done|].
      split; [apply union_subseteq_l|]. split; [apply NoDup_nil_2|].
      intros x Hx. by apply elem_of_nil in Hx.
  - done.
  - simpl. eexists _, _. split; [done|].
    split; [etrans; [|exact Hsub]; apply union_subseteq_r|].
    split.
    { intros x Hx. apply Hup in Hx. unfold visited1 in Hx.
      rewrite !elem_of_union, elem_of_singleton in Hx.
      rewrite elem_of_union. destruct Hx as [[->|?]|?]; auto. }
    split.
    + simpl. apply NoDup_cons. split; [|done].
      intros Hx. destruct (Hin _ Hx) as [Hnot _]. apply Hnot.
      apply elem_of_union. left. by apply elem_of_singleton.
    + intros v Hv. simpl in Hv. apply elem_of_cons in Hv as [->|Hv].
      * split; [done|]. apply Hsub. apply elem_of_union. left.
        by apply elem_of_singleton.
      * destruct (Hin _ Hv) as [Hnot ?]. split; [|done].
        intros ?. apply Hnot. apply elem_of_union. by right.
Qed.

Lemma choices_values basename t :
  ∀ level, value <$> choicesOf basename level t = tree_names t.
Proof.
  induction t as [nm ty fp kids IH] using
    (fix ind (t : tree) : ∀ P : tree → Prop,
       (∀ nm ty fp kids, Forall P kids → P (TreeNode nm ty fp kids)) → P t :=
       λ P H, match t with
              | TreeNode nm ty fp kids =>
                  H nm ty fp kids
                    ((fix all l : Forall P l :=
                        match l with
                        | [] => Forall_nil_2 P
                        | t' :: l' => Forall_cons_2 P t' l' (ind t' P H) (all l')
                        end) kids)
              end).
  intros level. simpl. f_equal. generalize (S level). intros lv.
  induction IH as [|kid kids Hkid _ IHkids]; [done|].
  rewrite !fmap_cons.
  change (value <$> (choicesOf basename lv kid
                     ++ concat (choicesOf basename lv <$> kids))
          = tree_names kid ++ concat (tree_names <$> kids)).
  rewrite fmap_app. f_equal; [apply Hkid|apply IHkids].
Qed.

(** The tree for the menu is built within the bound on the depth, and
    no component comes twice in it: the values of the choices are
    pairwise distinct, and each is the name of a stored component. *)
Theorem menu_lists_each_component_once
    (basename : string → string) (a : analyzer) :
  ∃ forest,
    getComponentsAsTree a = Some forest ∧
    NoDup (value <$> convertTreeToChoices basename forest 0) ∧
    ∀ v, v ∈ value <$> convertTreeToChoices basename forest 0 →
         v ∈ name <$> (components a).*2.
Proof.
  unfold getComponentsAsTree, treesWithin.
  destruct (collect_spec (stored_names (components a))
              (buildTree (S (length (components a))) (components a))
              (λ _, True) (rootComponents (components a)))
    with (visited := (∅ : gset string))
    as (forest & visited' & -> & _ & Hup & Hnd & Hin); [done| |done|].
  { apply Forall_forall. intros root Hroot visited _.
    apply buildTree_spec.
    - unfold rootComponents in Hroot. by apply list_elem_of_filter in Hroot as [_ ?].
    - eapply Nat.le_lt_trans; [apply subseteq_size, subseteq_difference_l; done|].
      pose proof (stored_names_size (components a)). lia. }
  exists forest. split; [done|].
  assert (value <$> convertTreeToChoices basename forest 0 = forest_names forest)
    as ->.
  { unfold convertTreeToChoices, forest_names. clear Hup Hnd Hin.
    induction forest as [|t forest IH]; [done|].
    rewrite !fmap_cons.
    change (value <$> (choicesOf basename 0 t
                       ++ concat (choicesOf basename 0 <$> forest))
            = tree_names t ++ concat (tree_names <$> forest)).
    rewrite fmap_app. f_equal; [apply choices_values|apply IH]. }
  split; [done|]. intros v Hv. destruct (Hin _ Hv) as [_ Hv'].
  apply Hup in Hv'. apply elem_of_union in Hv' as [Hv'|Hv'].
  - by apply elem_of_empty in Hv'.
  - unfold stored_names in Hv'. by apply elem_of_list_to_set in Hv'.
Qed.

End GraphFacts.

(** ** The component graph: what the scan keeps *)

Module ScanFacts.
Import AstFacts WalkFacts WalkMore ComponentAnalyzer Graph.

Section invariant.
Variable I : analyzer → Prop.
Hypothesis I_path : ∀ a path, I a → I (Analyzer (components a) path).
Hypothesis I_component : ∀ name type a, I a → I (addComponent name type a).
Hypothesis I_relationship : ∀ p c a, I a → I (addRelationship p c a).

Lemma enterJSXElement_invariant name imported anc n a :
  I a → I (final (enterJSXElement name imported anc n a)).
Proof.
  intros Ha. unfold enterJSXElement. repeat case_match; simpl; auto.
Qed.

Lemma register_invariant filePath anc n name s :
  I (this s) → I (this (register filePath anc n name s)).
Proof.
  intros Hs. unfold register. simpl.
  apply (traverse_inside_final _ I).
  - intros. by apply enterJSXElement_invariant.
  - by apply I_component.
Qed.

Lemma enter_invariant filePath anc n s :
  I (this s) → I (this (final (enter filePath anc n s))).
Proof.
  intros Hs. unfold enter.
  assert (I (this (enterImportDeclaration n s))) as Hs'.
  { unfold enterImportDeclaration. by case_match. }
  revert Hs'. generalize (enterImportDeclaration n s). intros s' Hs'.
  unfold enterComponent.
  repeat case_match; simpl; try done; by apply register_invariant.
Qed.

Variable parse : string → option node.

Lemma analyzeFile_invariant filePath content a :
  I a → I (analyzeFile parse filePath content a).1.
Proof.
  intros Ha. unfold analyzeFile.
  destruct (ProfilerScan.shouldProcessFile filePath); simpl; [|done].
  destruct (parse content) as [ast|]; simpl; [|by apply I_path].
  assert (I (this (final (traverse (enter filePath) [] ast
                            (State (Analyzer (components a) filePath) ∅)))))
    as H.
  { apply (traverse_final (enter filePath) (λ s, I (this s)) (λ _, false)).
    - intros. by apply enter_invariant.
    - apply any_node_never.
    - simpl. by apply I_path. }
  by destruct (traverse _ _ _ _).
Qed.

Lemma scanDirectory_invariant files a :
  I a → I (scanDirectory parse files a).1.
Proof.
  unfold scanDirectory. generalize (@nil string).
  revert a. induction files as [|[path content] files IH]; intros a errs Ha;
    simpl; [done|].
  pose proof (analyzeFile_invariant path content a Ha) as H.
  destruct (analyzeFile parse path content a) as [a' errors]. simpl in *.
  by apply IH.
Qed.

End invariant.

(** Lookups. *)
Lemma get_none key map : get key map = None ↔ key ∉ map.*1.
Proof.
  unfold get. induction map as [|[k c] map IH]; simpl.
  - split; [intros _ H; by apply elem_of_nil in H|done].
  - destruct (String.eqb_spec k key) as [->|Hne]; simpl.
    + split; [done|]. intros H. destruct H. apply elem_of_cons. by left.
    + rewrite IH, not_elem_of_cons. split; [by intros|by intros [_ ?]].
Qed.

Lemma get_cons key k c map :
  get key ((k, c) :: map) = if String.eqb k key then Some c else get key map.
Proof. unfold get. simpl. by destruct (String.eqb k key). Qed.

Lemma adjust_cons key f k c map :
  adjust key f ((k, c) :: map)
  = (if String.eqb k key then (k, f c) else (k, c)) :: adjust key f map.
Proof. reflexivity. Qed.

Lemma get_app key map name component :
  get key (map ++ [(name, component)])
  = match get key map with
    | Some found => Some found
    | None => if String.eqb name key then Some component else None
    end.
Proof.
  induction map as [|[k c] map IH].
  - simpl. rewrite get_cons. by destruct (String.eqb name key).
  - rewrite <-app_comm_cons, !get_cons. by destruct (String.eqb k key).
Qed.

Lemma get_adjust key k f map :
  get k (adjust key f map)
  = if String.eqb k key then f <$> get k map else get k map.
Proof.
  induction map as [|[k' c] map IH].
  - by destruct (String.eqb k key).
  - rewrite adjust_cons.
    destruct (String.eqb_spec k' key) as [->|Hne]; rewrite !get_cons, IH.
    + destruct (String.eqb_spec key k) as [->|Hne'].
      * by rewrite String.eqb_refl.
      * done.
    + destruct (String.eqb_spec k' k) as [->|Hne'].
      * destruct (String.eqb_spec k key); [congruence|done].
      * done.
Qed.

Lemma adjust_keys key f map : (adjust key f map).*1 = map.*1.
Proof.
  induction map as [|[k c] map IH]; [done|].
  rewrite adjust_cons, !fmap_cons, IH. by destruct (String.eqb k key).
Qed.

Lemma adjust_named key f map :
  (∀ c, name (f c) = name c) →
  Forall (λ entry, name entry.2 = entry.1) map →
  Forall (λ entry, name entry.2 = entry.1) (adjust key f map).
Proof.
  intros Hf. induction 1 as [|[k c] map Hk Hmap IH]; [apply Forall_nil_2|].
  rewrite adjust_cons. apply Forall_cons. split; [|done].
  destruct (String.eqb k key); simpl in *; [by rewrite Hf|done].
Qed.

Lemma set_add_elem x y set : x ∈ set_add y set ↔ x = y ∨ x ∈ set.
Proof.
  unfold set_add. destruct (decide (y ∈ set)) as [Hin|Hout].
  - rewrite bool_decide_eq_true_2 by done. split; [by right|].
    by intros [->|?].
  - rewrite bool_decide_eq_false_2 by done.
    rewrite elem_of_app, list_elem_of_singleton. tauto.
Qed.

Lemma addComponent_well_formed name type a :
  well_formed (components a) →
  well_formed (components (addComponent name type a)).
Proof.
  intros (Hkeys & Hnames & Hsym). unfold addComponent.
  destruct (get name (components a)) as [found|] eqn:Hget; [done|]. simpl.
  split; [|split].
  - rewrite fmap_app. simpl. apply NoDup_app. split; [done|].
    split; [|apply NoDup_singleton].
    intros x Hx ->%list_elem_of_singleton. by apply get_none in Hget.
  - apply Forall_app. split; [done|]. by apply Forall_singleton.
  - intros p c. rewrite !get_app.
    destruct (get p (components a)) as [parent|] eqn:Hp,
      (get c (components a)) as [child|] eqn:Hc; simpl.
    + specialize (Hsym p c). by rewrite Hp, Hc in Hsym.
    + specialize (Hsym p c). rewrite Hp, Hc in Hsym. simpl in Hsym.
      rewrite Hsym. by destruct (String.eqb name c).
    + specialize (Hsym p c). rewrite Hp, Hc in Hsym. simpl in Hsym.
      rewrite <-Hsym. by destruct (String.eqb name p).
    + destruct (String.eqb name p), (String.eqb name c); simpl;
        split; intros H; by apply elem_of_nil in H.
Qed.

Lemma addRelationship_well_formed p0 c0 a :
  well_formed (components a) →
  well_formed (components (addRelationship p0 c0 a)).
Proof.
  intros (Hkeys & Hnames & Hsym). unfold addRelationship.
  destruct (get p0 (components a)) as [P|] eqn:HP; [|done].
  destruct (get c0 (components a)) as [C|] eqn:HC; [|done]. simpl.
  split; [|split].
  - by rewrite !adjust_keys.
  - by do 2 (apply adjust_named; [done|]).
  - intros p c. rewrite !get_adjust. specialize (Hsym p c).
    destruct (String.eqb_spec p p0), (String.eqb_spec p c0),
      (String.eqb_spec c p0), (String.eqb_spec c c0); subst;
      rewrite ?HP, ?HC in *;
      repeat match goal with
             | |- context [get ?k (components a)] =>
                 destruct (get k (components a))
             end;
      simpl in *; rewrite ?set_add_elem; intuition congruence.
Qed.

Lemma keeps_refl map : keeps map map.
Proof. intros key c Hc. by exists c. Qed.

Lemma keeps_trans map1 map2 map3 :
  keeps map1 map2 → keeps map2 map3 → keeps map1 map3.
Proof.
  intros H12 H23 key c Hc. destruct (H12 _ _ Hc) as (c2 & Hc2 & Hf & Ht).
  destruct (H23 _ _ Hc2) as (c3 & Hc3 & Hf' & Ht').
  exists c3. split; [done|]. split; congruence.
Qed.

Lemma addComponent_keeps name type a :
  keeps (components a) (components (addComponent name type a)).
Proof.
  unfold addComponent.
  destruct (get name (components a)) eqn:Hget; [apply keeps_refl|]. simpl.
  intros key c Hc. exists c. rewrite get_app, Hc. done.
Qed.

Lemma addRelationship_keeps p0 c0 a :
  keeps (components a) (components (addRelationship p0 c0 a)).
Proof.
  unfold addRelationship.
  destruct (get p0 (components a)); [|apply keeps_refl].
  destruct (get c0 (components a)); [|apply keeps_refl]. simpl.
  intros key comp Hc. rewrite !get_adjust, Hc.
  destruct (String.eqb key c0), (String.eqb key p0); simpl;
    by eexists.
Qed.

Section scan.
Variable parse : string → option node.

(** The scan keeps the graph in shape, whatever files it goes through:
    no name is stored twice, every node stands under its own name, and
    the children and the parents mirror each other. *)
Theorem scan_keeps_graph_well_formed
    (files : list (string * string)) (a : analyzer) :
  well_formed (components a) →
  well_formed (components (scanDirectory parse files a).1).
Proof.
  apply (scanDirectory_invariant (λ a, well_formed (components a))).
  - done.
  - intros. by apply addComponent_well_formed.
  - intros. by apply addRelationship_well_formed.
Qed.

Lemma scanDirectory_errors files a errs errs' :
  (foldl (λ acc entry,
            let '(a', errors) := analyzeFile parse entry.1 entry.2 acc.1 in
            (a', acc.2 ++ errors))
     (a, errs) files).1
  = (foldl (λ acc entry,
              let '(a', errors) := analyzeFile parse entry.1 entry.2 acc.1 in
              (a', acc.2 ++ errors))
       (a, errs') files).1.
Proof.
  revert a errs errs'.
  induction files as [|[path content] files IH]; intros a errs errs'; simpl;
    [done|].
  destruct (analyzeFile parse path content a) as [a' errors]. apply IH.
Qed.

Lemma scanDirectory_app files files' a :
  (scanDirectory parse (files ++ files') a).1
  = (scanDirectory parse files' (scanDirectory parse files a).1).1.
Proof.
  unfold scanDirectory. rewrite foldl_app.
  destruct (foldl _ (a, []) files) as [a' errs]. apply scanDirectory_errors.
Qed.

(** The first registration wins: a component that is in the map after
    some files stays in it with the file it was found in and the type it
    was given, whatever the files that follow define under its name. *)
Theorem first_registration_wins
    (files files' : list (string * string)) (a : analyzer) :
  keeps (components (scanDirectory parse files a).1)
    (components (scanDirectory parse (files ++ files') a).1).
Proof.
  rewrite scanDirectory_app. generalize (scanDirectory parse files a).1.
  clear a. intros a.
  apply (scanDirectory_invariant
           (λ a', keeps (components a) (components a'))).
  - done.
  - intros name type a' Ha'. eapply keeps_trans; [exact Ha'|].
    apply addComponent_keeps.
  - intros p c a' Ha'. eapply keeps_trans; [exact Ha'|].
    apply addRelationship_keeps.
  - apply keeps_refl.
Qed.

End scan.

Lemma scan_keeps_graph_well_formed_witness :
  let a :=
    (scanDirectory (Runs.parse_only "Card" card_file) two_cards
       (Analyzer [] "")).1 in
  components a
  = [("Card", NewComponentNode "Card" "src/pages/Card.tsx" "page" [] [] [])] ∧
  well_formed (components a).
Proof.
  split; [vm_compute; reflexivity|].
  apply (scan_keeps_graph_well_formed (Runs.parse_only "Card" card_file)
           two_cards (Analyzer [] "")).
  split; [apply NoDup_nil_2|]. split; [apply Forall_nil_2|].
  intros p c. simpl. split; intros H; by apply elem_of_nil in H.
Defined.

End ScanFacts.

(** ** The answer to the prompt *)

Module SelectionFacts.
Import ComponentAnalyzer Graph ScanFacts.

Lemma unique_from seen l :
  NoDup seen →
  NoDup (foldl (λ seen x, set_add x seen) seen l) ∧
  ∀ x, x ∈ foldl (λ seen x, set_add x seen) seen l ↔ x ∈ seen ∨ x ∈ l.
Proof.
  revert seen. induction l as [|y l IH]; intros seen Hseen; simpl.
  - split; [done|]. intros x. rewrite elem_of_nil. tauto.
  - assert (NoDup (set_add y seen)) as Hadd.
    { unfold set_add. destruct (decide (y ∈ seen)) as [Hin|Hout].
      - by rewrite bool_decide_eq_true_2.
      - rewrite bool_decide_eq_false_2 by done. apply NoDup_app.
        split; [done|]. split; [|apply NoDup_singleton].
        by intros x Hx ->%list_elem_of_singleton. }
    destruct (IH _ Hadd) as [Hnd Hel]. split; [done|].
    intros x. rewrite Hel, set_add_elem, elem_of_cons. tauto.
Qed.

Lemma unique_NoDup l : NoDup (unique l).
Proof. apply unique_from, NoDup_nil_2. Qed.

Lemma unique_elem x l : x ∈ unique l ↔ x ∈ l.
Proof.
  unfold unique. rewrite (proj2 (unique_from [] l (NoDup_nil_2))).
  rewrite elem_of_nil. tauto.
Qed.

Lemma grow_keeps map types answers x :
  x ∈ answers → x ∈ grow map answers types.
Proof.
  unfold grow. revert answers.
  induction types as [|type types IH]; intros answers Hx; simpl; [done|].
  apply IH. case_bool_decide; [|done]. apply elem_of_app. by left.
Qed.

Lemma grow_group map types answers type x :
  type ∈ types →
  "*" +:+ type +:+ "*" ∈ answers →
  x ∈ componentsOfType type map →
  x ∈ grow map answers types.
Proof.
  unfold grow. revert answers.
  induction types as [|type' types IH]; intros answers Htype Hgroup Hx.
  - by apply elem_of_nil in Htype.
  - simpl. apply elem_of_cons in Htype as [<-|Htype].
    + apply (grow_keeps map types). rewrite bool_decide_eq_true_2 by done.
      apply elem_of_app. by right.
    + apply IH; [done| |done]. case_bool_decide; [|done].
      apply elem_of_app. by left.
Qed.

Lemma grow_within map types answers x :
  x ∈ grow map answers types →
  x ∈ answers ∨ ∃ type, type ∈ types ∧ x ∈ componentsOfType type map.
Proof.
  unfold grow. revert answers.
  induction types as [|type types IH]; intros answers Hx; simpl in *.
  - by left.
  - apply IH in Hx as [Hx|(type' & Htype' & Hx)].
    + case_bool_decide; [|by left].
      apply elem_of_app in Hx as [Hx|Hx]; [by left|].
      right. exists type. split; [apply elem_of_cons; by left|done].
    + right. exists type'. split; [apply elem_of_cons; by right|done].
Qed.

Lemma componentsOfType_elem x type map :
  x ∈ componentsOfType type map
  ↔ ∃ component,
      component ∈ map.*2 ∧ ComponentAnalyzer.type component = type ∧
      name component = x.
Proof.
  unfold componentsOfType. rewrite list_elem_of_fmap. split.
  - intros (c & -> & [Ht Hc]%list_elem_of_filter). by exists c.
  - intros (c & Hc & Ht & <-). exists c. split; [done|].
    by apply list_elem_of_filter.
Qed.

(** Without the value of "Select All" among the answers, the names handed
    back hold no name twice and no value that starts with an asterisk;
    they hold every answer that does not start with one, and the name of
    every stored component whose type is page, layout, component or
    provider and whose group value is among the answers; and they hold
    nothing but answers and names of stored components. *)
Theorem selection_expands_groups
    (a : analyzer) (response : list string) :
  "*all*" ∉ response →
  NoDup (selected a response) ∧
  (∀ c, c ∈ selected a response → String.prefix "*" c = false) ∧
  (∀ c, c ∈ response → String.prefix "*" c = false →
        c ∈ selected a response) ∧
  (∀ type component,
     type ∈ ["page"; "layout"; "component"; "provider"] →
     "*" +:+ type +:+ "*" ∈ response →
     component ∈ (components a).*2 →
     ComponentAnalyzer.type component = type →
     String.prefix "*" (name component) = false →
     name component ∈ selected a response) ∧
  (∀ c, c ∈ selected a response →
        c ∈ response ∨ c ∈ name <$> (components a).*2).
Proof.
  intros Hall. unfold selected. rewrite bool_decide_eq_false_2 by done.
  fold (grow (components a) response
          ["page"; "layout"; "component"; "provider"]).
  split; [apply unique_NoDup|]. split; [|split; [|split]].
  - intros c [Hc _]%unique_elem%list_elem_of_filter. done.
  - intros c Hc Hstar. apply unique_elem, list_elem_of_filter.
    split; [done|]. by apply grow_keeps.
  - intros type component Htype Hgroup Hin Ht Hstar.
    apply unique_elem, list_elem_of_filter. split; [done|].
    apply (grow_group _ _ _ type); [done..|].
    apply componentsOfType_elem. by exists component.
  - intros c [_ Hc]%unique_elem%list_elem_of_filter.
    apply grow_within in Hc as [Hc|(type & _ & Hc)]; [by left|].
    right. apply componentsOfType_elem in Hc as (component & Hin & _ & <-).
    apply list_elem_of_fmap. by exists component.
Qed.

Lemma selection_expands_groups_witness :
  let a :=
    Analyzer
      [ ("Home", NewComponentNode "Home" "src/pages/Home.tsx" "page" [] [] []);
        ("Card", NewComponentNode "Card" "src/Card.tsx" "component" [] [] []) ]
      "" in
  selected a ["*page*"; "Card"; "Card"] = ["Card"; "Home"] ∧
  NoDup (selected a ["*page*"; "Card"; "Card"]).
Proof.
  split; [vm_compute; reflexivity|].
  refine (proj1 (selection_expands_groups _ ["*page*"; "Card"; "Card"] _)).
  apply (bool_decide_unpack _). vm_compute. reflexivity.
Defined.

End SelectionFacts.
